(** * gsttaskpool.c: pool for streaming threads

    A shallow embedding of [gst/gsttaskpool.c] (the Kurento fork, with the
    schedule-thread extension) and the theorems that relate it to its
    specification.

    Conventions
    - A C pointer is an [option addr]; [None] is [NULL].
    - The process state is a [World]: the heap of [GstTaskPool] objects, the
      function-local static of [gst_task_pool_get_default], and the trace of
      the calls the code makes into GLib and into the submitted jobs.
    - What GLib and the thread scheduler decide (whether a thread could be
      spawned, which worker runs next) is an explicit argument of the
      function that depends on it.
    - [need_schedule_thread] is a C [gint]: incrementing it at [G_MAXINT] is
      undefined behaviour, and the embedding returns [None] there.
    - A function on [World] is one call that runs from its entry to its
      return with no other call on the same pool in between, and a job is a
      call that returns without calling into its pool.  Where the code gives
      a lock up or waits inside a call, what other threads can do meanwhile
      is followed step by step in modules of their own: [Handshake] (the
      enabling caller against the new schedule thread), [Overlap] (two
      enabling callers) and [Teardown] (cleanup against a job that
      pushes). *)

From stdpp Require Import base option list gmap.
From Stdlib Require Import ZArith.

(** ** Plain data *)

Definition addr := positive.

(** [TaskData]: the function pointer and the closure argument of one job. *)
Record TaskData := mkTaskData {
  func : positive;
  user_data : option addr
}.

Record GError := mkGError {
  error_domain : N;
  error_code : Z
}.

(** A [GError **] argument: [None] when the caller passes [NULL],
    [Some None] for a location that holds no error, [Some (Some e)] once an
    error was stored. *)
Definition GErrorOut := option (option GError).

(** GLib: the first error stored in a location is kept. *)
Definition g_propagate_error (dest : GErrorOut) (src : GError) : GErrorOut :=
  match dest with
  | None => None
  | Some None => Some (Some src)
  | Some (Some e) => Some (Some e)
  end.

(** The observable calls, in the order they happen. *)
Inductive Event :=
  | EvInvoke (pool : addr) (td : TaskData)   (* default_func: func (user_data) *)
  | EvDone (pool : addr) (td : TaskData)     (* that call has returned *)
  | EvCritical                               (* g_return_if_fail failed *)
  | EvWarning                                (* g_warning *)
  | EvObjectNew (p : addr)                   (* g_object_newv *)
  | EvObjectFinalize (p : addr)
  | EvThreadPoolNew (p : addr)               (* g_thread_pool_new *)
  | EvContextNew (c : addr)                  (* g_main_context_new *)
  | EvLoopNew (l : addr) (c : option addr)   (* g_main_loop_new *)
  | EvThreadNew (t : addr)                   (* g_thread_new *)
  | EvCondWait                               (* g_cond_wait has returned *)
  | EvLoopQuit (l : option addr)
  | EvThreadJoin (t : option addr)
  | EvLoopUnref (l : option addr)
  | EvContextUnref (c : option addr)
  | EvContextRef (c : addr).

Global Instance TaskData_eq_dec : EqDecision TaskData.
Proof. solve_decision. Defined.
Global Instance GError_eq_dec : EqDecision GError.
Proof. solve_decision. Defined.
Global Instance Event_eq_dec : EqDecision Event.
Proof. solve_decision. Defined.

(** ** GThreadPool

    GLib is not part of this repository.  A [GThreadPool] is modelled from
    GLib's documented contract, which section 4.2 of the specification
    restates for the default backend: pushed items wait in a FIFO queue, at
    most [max_threads] of them are being processed at a time ([-1]: no
    limit), and each processed item is handed to the pool's function together
    with the pool's [user_data]. *)
Record GThreadPool := mkGThreadPool {
  tp_func : TaskData -> addr -> list Event;
  tp_user_data : addr;
  tp_max_threads : Z;
  tp_exclusive : bool;
  tp_queue : list TaskData;
  tp_running : list TaskData
}.

Definition tp_set_queue (q : list TaskData) (tp : GThreadPool) : GThreadPool :=
  mkGThreadPool (tp_func tp) (tp_user_data tp) (tp_max_threads tp)
    (tp_exclusive tp) q (tp_running tp).

Definition tp_set_running (r : list TaskData) (tp : GThreadPool) : GThreadPool :=
  mkGThreadPool (tp_func tp) (tp_user_data tp) (tp_max_threads tp)
    (tp_exclusive tp) (tp_queue tp) r.

(** [g_thread_pool_new (func, user_data, max_threads, exclusive, error)].
    GLib returns [NULL] when [max_threads < -1] or when an exclusive pool is
    asked for without a bound.  [spawn] is the environment's answer for the
    threads an exclusive pool starts at once: [Some e] when one of them could
    not be created, which GLib reports through [error] while still returning
    the pool. *)
Definition g_thread_pool_new (f : TaskData -> addr -> list Event)
    (data : addr) (max_threads : Z) (exclusive : bool)
    (spawn : option GError) (error : GErrorOut)
  : option GThreadPool * GErrorOut * list Event :=
  if (exclusive && (max_threads =? -1)%Z) || (max_threads <? -1)%Z then
    (None, error, [EvCritical])
  else
    let tp := mkGThreadPool f data max_threads exclusive [] [] in
    match spawn with
    | Some e =>
        if exclusive then (Some tp, g_propagate_error error e, [EvThreadPoolNew data])
        else (Some tp, error, [EvThreadPoolNew data])
    | None => (Some tp, error, [EvThreadPoolNew data])
    end.

(** [g_thread_pool_push (pool, data, error)]: the item is appended to the
    queue in every case; [spawn = Some e] is the environment's answer when a
    thread was needed and could not be created, which is reported through
    [error]. *)
Definition g_thread_pool_push (tp : GThreadPool) (data : TaskData)
    (spawn : option GError) (error : GErrorOut) : GThreadPool * GErrorOut :=
  let tp' := tp_set_queue (tp_queue tp ++ [data]) tp in
  match spawn with
  | Some e => (tp', g_propagate_error error e)
  | None => (tp', error)
  end.

(** What a worker thread of a pool can do next: take the oldest queued item
    and call the pool function on it, or return from the call it is in. *)
Inductive WorkerEvent :=
  | WStart
  | WFinish (i : nat).

Definition can_start (tp : GThreadPool) : bool :=
  (tp_max_threads tp =? -1)%Z
  || (Z.of_nat (length (tp_running tp)) <? tp_max_threads tp)%Z.

Definition worker_step (e : WorkerEvent) (tp : GThreadPool)
  : option (GThreadPool * list Event) :=
  match e with
  | WStart =>
      match tp_queue tp with
      | td :: q =>
          if can_start tp then
            Some (tp_set_running (tp_running tp ++ [td]) (tp_set_queue q tp),
                  tp_func tp td (tp_user_data tp))
          else None
      | [] => None
      end
  | WFinish i =>
      match tp_running tp !! i with
      | Some td =>
          Some (tp_set_running (delete i (tp_running tp)) tp,
                [EvDone (tp_user_data tp) td])
      | None => None
      end
  end.

Definition drained (tp : GThreadPool) : bool :=
  match tp_queue tp, tp_running tp with
  | [], [] => true
  | _, _ => false
  end.

(** The blocking part of [g_thread_pool_free (pool, immediate, TRUE)]: the
    caller sleeps while the workers go on, and wakes up in the first state
    with nothing queued and nothing running.  [sched] is what the workers do
    meanwhile; an entry that is not possible in the current state is passed
    over.  [None]: the caller is still blocked when [sched] ends. *)
Fixpoint g_thread_pool_wait (sched : list WorkerEvent) (tp : GThreadPool)
  : option (GThreadPool * list Event) :=
  if drained tp then Some (tp, [])
  else
    match sched with
    | [] => None
    | e :: sched' =>
        match worker_step e tp with
        | Some (tp', evs) =>
            match g_thread_pool_wait sched' tp' with
            | Some (tp'', evs') => Some (tp'', evs ++ evs')
            | None => None
            end
        | None => g_thread_pool_wait sched' tp
        end
    end.

(** [g_thread_pool_free (pool, immediate, wait_)].  GLib refuses (and returns
    at once) to release a pool that is allowed no thread while items are
    queued and [immediate] is not set.  With [immediate] the queued items are
    dropped; with [wait_] the call returns only when the items still to be
    processed are done.  The result is the list of events up to the return;
    a pool released without [wait_] is not followed further. *)
Definition g_thread_pool_free (tp : GThreadPool) (immediate wait_ : bool)
    (sched : list WorkerEvent) : option (list Event) :=
  if negb (immediate || negb (tp_max_threads tp =? 0)%Z
           || bool_decide (tp_queue tp = [])) then
    Some [EvCritical]
  else
    let tp1 := if immediate then tp_set_queue [] tp else tp in
    if wait_ then snd <$> g_thread_pool_wait sched tp1 else Some [].

(** ** The object *)

Record GstTaskPoolPrivate := mkPriv {
  max_threads : Z;
  exclusive : bool;
  need_schedule_thread : Z;
  schedule_context : option addr;
  schedule_loop : option addr;
  schedule_thread : option addr
}.

(** Modelled from the spec: the declaration of [struct _GstTaskPool] is in
    gsttaskpool.h, which is not under src/.  The members are the ones
    gsttaskpool.c uses and section 3 lists for a Pool: [pool], the
    [GThreadPool *] backend, and [priv]; [ref_count] is the reference count
    of the parent object (not bounded here). *)
Record GstTaskPool := mkGstTaskPool {
  ref_count : Z;
  pool : option GThreadPool;
  priv : GstTaskPoolPrivate
}.

Definition set_pool (b : option GThreadPool) (o : GstTaskPool) : GstTaskPool :=
  mkGstTaskPool (ref_count o) b (priv o).

Definition set_ref_count (n : Z) (o : GstTaskPool) : GstTaskPool :=
  mkGstTaskPool n (pool o) (priv o).

Definition set_priv (pr : GstTaskPoolPrivate) (o : GstTaskPool) : GstTaskPool :=
  mkGstTaskPool (ref_count o) (pool o) pr.

Definition set_config (m : Z) (x : bool) (pr : GstTaskPoolPrivate)
  : GstTaskPoolPrivate :=
  mkPriv m x (need_schedule_thread pr) (schedule_context pr)
    (schedule_loop pr) (schedule_thread pr).

Definition set_need (n : Z) (pr : GstTaskPoolPrivate) : GstTaskPoolPrivate :=
  mkPriv (max_threads pr) (exclusive pr) n (schedule_context pr)
    (schedule_loop pr) (schedule_thread pr).

Definition set_schedule (c l t : option addr) (pr : GstTaskPoolPrivate)
  : GstTaskPoolPrivate :=
  mkPriv (max_threads pr) (exclusive pr) (need_schedule_thread pr) c l t.

(** [pool->priv->schedule_context], [schedule_loop] and [schedule_thread]
    set on an object. *)
Definition with_schedule (c l t : option addr) (o : GstTaskPool) : GstTaskPool :=
  set_priv (set_schedule c l t (priv o)) o.

(** [pool->priv->need_schedule_thread] set on an object. *)
Definition with_need (n : Z) (o : GstTaskPool) : GstTaskPool :=
  set_priv (set_need n (priv o)) o.

(** [heap]: the live [GstTaskPool] objects by address.
    [default_static]: the [static GstTaskPool *pool] of
    [gst_task_pool_get_default].
    [trace]: the events so far, oldest first.
    [next_handle]: the next address GLib hands out for a main context, a main
    loop or a thread. *)
Record World := mkWorld {
  heap : gmap addr GstTaskPool;
  default_static : option addr;
  trace : list Event;
  next_handle : addr
}.

Definition set_heap (h : gmap addr GstTaskPool) (w : World) : World :=
  mkWorld h (default_static w) (trace w) (next_handle w).

Definition set_default_static (d : option addr) (w : World) : World :=
  mkWorld (heap w) d (trace w) (next_handle w).

Definition emit (evs : list Event) (w : World) : World :=
  mkWorld (heap w) (default_static w) (trace w ++ evs) (next_handle w).

Definition set_next_handle (n : addr) (w : World) : World :=
  mkWorld (heap w) (default_static w) (trace w) n.

(** [pool->field = ...] on a live object. *)
Definition store (p : addr) (f : GstTaskPool -> GstTaskPool) (w : World) : World :=
  set_heap (alter f p (heap w)) w.

(** The events a call added: what [trace] gained between [w] and [w']. *)
Definition emitted (w w' : World) : list Event :=
  drop (length (trace w)) (trace w').

Definition empty_world : World := mkWorld ∅ None [] 1%positive.

Definition G_MAXINT : Z := 2147483647.

(** ** The default implementation *)

(** [default_func]: the item is released and the job is called. *)
Definition default_func (tdata : TaskData) (pool_ : addr) : list Event :=
  [EvInvoke pool_ tdata].

(** [default_prepare]: the caller's [error] is not handed on, GLib gets
    [NULL] ([None]) in its place. *)
Definition default_prepare (p : addr) (spawn : option GError)
    (error : GErrorOut) (w : World) : World * GErrorOut :=
  match heap w !! p with
  | Some o =>
      let '(tp, _, evs) :=
        g_thread_pool_new default_func p (max_threads (priv o))
          (exclusive (priv o)) spawn None in
      (emit evs (store p (set_pool tp) w), error)
  | None => (w, error)
  end.

(** [default_cleanup]: [None] while the call is still blocked in
    [g_thread_pool_free]. *)
Definition default_cleanup (p : addr) (sched : list WorkerEvent) (w : World)
  : option World :=
  match heap w !! p with
  | Some o =>
      match pool o with
      | Some tp =>
          match g_thread_pool_free tp false true sched with
          | Some evs => Some (store p (set_pool None) (emit evs w))
          | None => None
          end
      | None => Some w
      end
  | None => Some w
  end.

(** [default_push]: the result is the returned [gpointer]. *)
Definition default_push (p : addr) (tdata : TaskData) (spawn : option GError)
    (error : GErrorOut) (w : World) : option addr * GErrorOut * World :=
  match heap w !! p with
  | Some o =>
      match pool o with
      | Some tp =>
          let '(tp', error') := g_thread_pool_push tp tdata spawn error in
          (None, error', store p (set_pool (Some tp')) w)
      | None => (None, error, w)
      end
  | None => (None, error, w)
  end.

Definition default_join (p : addr) (id : option addr) (w : World) : World := w.

(** Modelled from the spec: the declaration of [GstTaskPoolClass] is in
    gsttaskpool.h, which is not under src/.  The four virtual methods are the
    ones [gst_task_pool_class_init] fills in and section 4.1 names; a [None]
    member is a [NULL] function pointer. *)
Record GstTaskPoolClass := mkClass {
  prepare : option (addr -> option GError -> GErrorOut -> World -> World * GErrorOut);
  cleanup : option (addr -> list WorkerEvent -> World -> option World);
  push : option (addr -> TaskData -> option GError -> GErrorOut -> World
                 -> option addr * GErrorOut * World);
  join : option (addr -> option addr -> World -> World)
}.

Definition gst_task_pool_class_init : GstTaskPoolClass :=
  mkClass (Some default_prepare) (Some default_cleanup) (Some default_push)
    (Some default_join).

(** [gst_task_pool_init]; the floating reference is sunk, which leaves the
    count at one. *)
Definition gst_task_pool_init : GstTaskPool :=
  mkGstTaskPool 1 None (mkPriv (-1) false 0 None None None).

(** [g_object_newv (GST_TYPE_TASK_POOL, 0, NULL)]: a fresh address. *)
Definition g_object_newv (w : World) : addr * World :=
  let p := fresh (dom (heap w)) in
  (p, emit [EvObjectNew p] (set_heap (<[p := gst_task_pool_init]> (heap w)) w)).

Definition gst_task_pool_new (w : World) : addr * World := g_object_newv w.

Definition gst_task_pool_new_full (max_threads_ : Z) (exclusive_ : bool)
    (w : World) : addr * World :=
  let '(p, w1) := g_object_newv w in
  (p, store p (fun o => set_priv (set_config max_threads_ exclusive_ (priv o)) o) w1).

(** ** The public functions

    [GST_IS_TASK_POOL (pool)], a macro of gsttaskpool.h, holds for the
    addresses of live objects. *)

Definition gst_task_pool_prepare (klass : GstTaskPoolClass) (p : addr)
    (spawn : option GError) (error : GErrorOut) (w : World)
  : World * GErrorOut :=
  match heap w !! p with
  | None => (emit [EvCritical] w, error)
  | Some _ =>
      match prepare klass with
      | Some f => f p spawn error w
      | None => (w, error)
      end
  end.

Definition gst_task_pool_cleanup (klass : GstTaskPoolClass) (p : addr)
    (sched : list WorkerEvent) (w : World) : option World :=
  match heap w !! p with
  | None => Some (emit [EvCritical] w)
  | Some _ =>
      match cleanup klass with
      | Some f => f p sched w
      | None => Some w
      end
  end.

Definition gst_task_pool_push (klass : GstTaskPoolClass) (p : addr)
    (tdata : TaskData) (spawn : option GError) (error : GErrorOut) (w : World)
  : option addr * GErrorOut * World :=
  match heap w !! p with
  | None => (None, error, emit [EvCritical] w)
  | Some _ =>
      match push klass with
      | Some f => f p tdata spawn error w
      | None => (None, error, emit [EvWarning] w)
      end
  end.

Definition gst_task_pool_join (klass : GstTaskPoolClass) (p : addr)
    (id : option addr) (w : World) : World :=
  match heap w !! p with
  | None => emit [EvCritical] w
  | Some _ =>
      match join klass with
      | Some f => f p id w
      | None => w
      end
  end.

(** Modelled from the spec: [gst_object_ref] is in gstobject.c, which is not
    under src/.  A new shared reference (sections 4.4 and 9) is one more
    count on the same object. *)
Definition gst_object_ref (p : addr) (w : World) : World :=
  store p (fun o => set_ref_count (ref_count o + 1) o) w.

(** Modelled from the spec: [gst_object_unref] is in gstobject.c, which is
    not under src/.  Giving a reference back is one count less, and the last
    reference finalizes the object ([gst_task_pool_finalize]). *)
Definition gst_object_unref (p : addr) (w : World) : World :=
  match heap w !! p with
  | Some o =>
      if (ref_count o =? 1)%Z then
        emit [EvObjectFinalize p] (set_heap (delete p (heap w)) w)
      else store p (set_ref_count (ref_count o - 1)) w
  | None => emit [EvCritical] w
  end.

(** [gst_task_pool_get_default]: [g_once_init_enter] lets the first caller
    in, [g_once_init_leave] publishes the pool it made. *)
Definition gst_task_pool_get_default (spawn : option GError) (w : World)
  : addr * World :=
  match default_static w with
  | Some p => (p, gst_object_ref p w)
  | None =>
      let '(_pool, w1) := gst_task_pool_new w in
      let '(w2, _) :=
        gst_task_pool_prepare gst_task_pool_class_init _pool spawn None w1 in
      let w3 := set_default_static (Some _pool) w2 in
      (_pool, gst_object_ref _pool w3)
  end.

(** A fresh GLib handle. *)
Definition new_handle (w : World) : addr * World :=
  (next_handle w, set_next_handle (Pos.succ (next_handle w)) w).

(** The 0-to-1 branch of [gst_task_pool_need_schedule_thread], as one call
    runs it when no other call on the same pool is inside the function
    meanwhile: context, loop and thread are made, and the caller waits on
    [schedule_cond] for the thread's idle callback; here the wait has
    returned.  [g_cond_wait] gives [schedule_lock] up while the counter is
    still 0, so this is not what overlapping calls do: the steps of the branch
    against the new thread are in [Handshake] below, and against a second
    caller in [Overlap]. *)
Definition start_schedule_thread (p : addr) (w : World) : World :=
  let '(c, w1) := new_handle w in
  let w2 := emit [EvContextNew c] w1 in
  let '(l, w3) := new_handle w2 in
  let w4 := emit [EvLoopNew l (Some c)] w3 in
  let '(t, w5) := new_handle w4 in
  let w6 := emit [EvThreadNew t] w5 in
  let w7 :=
    store p (with_schedule (Some c) (Some l) (Some t)) w6 in
  emit [EvCondWait] w7.

(** The 1-to-0 branch. *)
Definition stop_schedule_thread (p : addr) (o : GstTaskPool) (w : World) : World :=
  let pr := priv o in
  let w1 :=
    emit [EvLoopQuit (schedule_loop pr); EvThreadJoin (schedule_thread pr);
          EvLoopUnref (schedule_loop pr); EvContextUnref (schedule_context pr)]
      w in
  store p (with_schedule None None None) w1.

(** [gst_task_pool_need_schedule_thread].  The two guards come first, then
    the comparison with the default pool, then the body under
    [schedule_lock], which reads the object again.  [None]: the increment of
    a counter that holds [G_MAXINT]. *)
Definition gst_task_pool_need_schedule_thread (p : addr) (needed : bool)
    (spawn : option GError) (w : World) : option (bool * World) :=
  match heap w !! p with
  | None => Some (false, emit [EvCritical] w)
  | Some o =>
      if negb (needed || (0 <? need_schedule_thread (priv o))%Z) then
        Some (false, emit [EvCritical] w)
      else
        let '(d, w1) := gst_task_pool_get_default spawn w in
        if decide (p = d) then Some (false, gst_object_unref p w1)
        else
          match heap w1 !! p with
          | None => Some (false, w1)
          | Some o1 =>
              let n := need_schedule_thread (priv o1) in
              if needed then
                let w2 := if (n =? 0)%Z then start_schedule_thread p w1 else w1 in
                if (n =? G_MAXINT)%Z then None
                else
                  Some (true, store p (with_need (n + 1)) w2)
              else
                let w2 := store p (with_need (n - 1)) w1 in
                let w3 :=
                  if (n - 1 =? 0)%Z then stop_schedule_thread p o1 w2 else w2 in
                Some (false, w3)
          end
  end.

(** [gst_task_pool_get_schedule_context]. *)
Definition gst_task_pool_get_schedule_context (p : addr) (w : World)
  : option addr * World :=
  match heap w !! p with
  | None => (None, emit [EvCritical] w)
  | Some o =>
      if negb (0 <? need_schedule_thread (priv o))%Z then
        (None, emit [EvCritical] w)
      else
        match schedule_context (priv o) with
        | Some c => (Some c, emit [EvContextRef c] w)
        | None => (None, w)
        end
  end.

(** ** Executions *)

(** A worker thread of the backend of [p] makes one move. *)
Definition worker_event (p : addr) (e : WorkerEvent) (w : World) : World :=
  match heap w !! p with
  | Some o =>
      match pool o with
      | Some tp =>
          match worker_step e tp with
          | Some (tp', evs) => emit evs (store p (set_pool (Some tp')) w)
          | None => w
          end
      | None => w
      end
  | None => w
  end.

(** One call of a function of this file on objects that use the default
    implementation, or one move of a worker thread. *)
Inductive Op :=
  | OpNew
  | OpNewFull (max_threads_ : Z) (exclusive_ : bool)
  | OpPrepare (p : addr) (spawn : option GError) (error : GErrorOut)
  | OpCleanup (p : addr) (sched : list WorkerEvent)
  | OpPush (p : addr) (tdata : TaskData) (spawn : option GError) (error : GErrorOut)
  | OpJoin (p : addr) (id : option addr)
  | OpNeedScheduleThread (p : addr) (needed : bool) (spawn : option GError)
  | OpGetScheduleContext (p : addr)
  | OpGetDefault (spawn : option GError)
  | OpWorker (p : addr) (e : WorkerEvent).

Definition run_op (op : Op) (w : World) : option World :=
  match op with
  | OpNew => Some (snd (gst_task_pool_new w))
  | OpNewFull m x => Some (snd (gst_task_pool_new_full m x w))
  | OpPrepare p spawn error =>
      Some (fst (gst_task_pool_prepare gst_task_pool_class_init p spawn error w))
  | OpCleanup p sched => gst_task_pool_cleanup gst_task_pool_class_init p sched w
  | OpPush p td spawn error =>
      Some (snd (gst_task_pool_push gst_task_pool_class_init p td spawn error w))
  | OpJoin p id => Some (gst_task_pool_join gst_task_pool_class_init p id w)
  | OpNeedScheduleThread p needed spawn =>
      snd <$> gst_task_pool_need_schedule_thread p needed spawn w
  | OpGetScheduleContext p => Some (snd (gst_task_pool_get_schedule_context p w))
  | OpGetDefault spawn => Some (snd (gst_task_pool_get_default spawn w))
  | OpWorker p e => Some (worker_event p e w)
  end.

Fixpoint run_ops (ops : list Op) (w : World) : option World :=
  match ops with
  | [] => Some w
  | op :: ops' =>
      match run_op op w with
      | Some w' => run_ops ops' w'
      | None => None
      end
  end.

(** ** Projections, invariants and scenarios used in the statements *)

(** The schedule counter of [p]; an address without an object counts as 0. *)
Definition need_of (w : World) (p : addr) : Z :=
  match heap w !! p with
  | Some o => need_schedule_thread (priv o)
  | None => 0%Z
  end.

(** The backend of [p], [None] when there is no object or no backend. *)
Definition backend_of (w : World) (p : addr) : option GThreadPool :=
  match heap w !! p with
  | Some o => pool o
  | None => None
  end.

(** The jobs that workers of [p] called, in call order. *)
Definition invoked (p : addr) (evs : list Event) : list TaskData :=
  omap (fun ev => match ev with
                  | EvInvoke q td => if decide (q = p) then Some td else None
                  | _ => None
                  end) evs.

(** The jobs of [p] whose call has returned. *)
Definition completed (p : addr) (evs : list Event) : list TaskData :=
  omap (fun ev => match ev with
                  | EvDone q td => if decide (q = p) then Some td else None
                  | _ => None
                  end) evs.

(** The events that make or release a schedule thread, its context or its
    loop. *)
Definition is_sched_event (ev : Event) : bool :=
  match ev with
  | EvContextNew _ | EvLoopNew _ _ | EvThreadNew _ | EvCondWait
  | EvLoopQuit _ | EvThreadJoin _ | EvLoopUnref _ | EvContextUnref _ => true
  | _ => false
  end.

Definition sched_events (evs : list Event) : list Event :=
  filter (fun ev => is_sched_event ev = true) evs.

Definition reachable (w : World) : Prop :=
  exists ops, run_ops ops empty_world = Some w.

(** The object and backend [gst_task_pool_get_default] makes on first
    access. *)
Definition default_pool_object (d : addr) : GstTaskPool :=
  mkGstTaskPool 2 (Some (mkGThreadPool default_func d (-1) false [] []))
    (mkPriv (-1) false 0 None None None).

(** The body under [schedule_lock], for a pool that is not the default
    pool; [w1] is the world once the default pool was looked up. *)
Definition need_schedule_thread_locked (p : addr) (needed : bool)
    (o : GstTaskPool) (w1 : World) : option (bool * World) :=
  let n := need_schedule_thread (priv o) in
  if needed then
    if (n =? G_MAXINT)%Z then None
    else Some (true, store p (with_need (n + 1))
                       (if (n =? 0)%Z then start_schedule_thread p w1 else w1))
  else
    Some (false,
          let w2 := store p (with_need (n - 1)) w1 in
          if (n - 1 =? 0)%Z then stop_schedule_thread p o w2 else w2).

(** Counter and handles of one object agree: the handles are there exactly
    while the counter is positive. *)
Definition sched_ok (pr : GstTaskPoolPrivate) : Prop :=
  (0 <= need_schedule_thread pr <= G_MAXINT)%Z
  /\ (is_Some (schedule_thread pr) <-> (0 < need_schedule_thread pr)%Z)
  /\ (is_Some (schedule_context pr) <-> (0 < need_schedule_thread pr)%Z)
  /\ (is_Some (schedule_loop pr) <-> (0 < need_schedule_thread pr)%Z).

(** A backend was made by [default_prepare] of its own object. *)
Definition backend_ok (p : addr) (o : GstTaskPool) : Prop :=
  forall tp, pool o = Some tp ->
    tp_func tp = default_func /\ tp_user_data tp = p.

Definition obj_ok (p : addr) (o : GstTaskPool) : Prop :=
  (1 <= ref_count o)%Z /\ sched_ok (priv o) /\ backend_ok p o.

Definition wf (w : World) : Prop :=
  (forall p o, heap w !! p = Some o -> obj_ok p o)
  /\ (forall d, default_static w = Some d ->
        exists o, heap w !! d = Some o /\ need_schedule_thread (priv o) = 0%Z).

(** [g_thread_pool_new] refuses these configurations. *)
Definition config_refused (pr : GstTaskPoolPrivate) : Prop :=
  (exclusive pr = true /\ max_threads pr = (-1)%Z) \/ (max_threads pr < -1)%Z.

(** What the body under the lock does to the object it is called on. *)
Definition need_schedule_thread_post (needed : bool) (h : addr)
    (o : GstTaskPool) : GstTaskPool :=
  let n := need_schedule_thread (priv o) in
  if needed then
    if (n =? 0)%Z then
      with_need 1 (with_schedule (Some h) (Some (Pos.succ h))
                     (Some (Pos.succ (Pos.succ h))) o)
    else with_need (n + 1) o
  else
    if (n - 1 =? 0)%Z then with_schedule None None None (with_need 0 o)
    else with_need (n - 1) o.

(** ... and the calls it makes. *)
Definition need_schedule_thread_calls (needed : bool) (h : addr)
    (o : GstTaskPool) : list Event :=
  let n := need_schedule_thread (priv o) in
  if needed then
    if (n =? 0)%Z then
      [EvContextNew h; EvLoopNew (Pos.succ h) (Some h);
       EvThreadNew (Pos.succ (Pos.succ h)); EvCondWait]
    else []
  else
    if (n - 1 =? 0)%Z then
      [EvLoopQuit (schedule_loop (priv o));
       EvThreadJoin (schedule_thread (priv o));
       EvLoopUnref (schedule_loop (priv o));
       EvContextUnref (schedule_context (priv o))]
    else [].

(** No counter changes and no schedule-thread call is made. *)
Definition quiet (w w' : World) : Prop :=
  (forall q, need_of w' q = need_of w q)
  /\ exists evs, trace w' = trace w ++ evs /\ sched_events evs = [].

(** What the caller and the workers of one pool do between
    [gst_task_pool_prepare] and [gst_task_pool_cleanup]: a push that GLib
    accepts without error, or a move of a worker. *)
Inductive Activity :=
  | Push (tdata : TaskData) (error : GErrorOut)
  | Work (e : WorkerEvent).

Definition activity_op (p : addr) (a : Activity) : Op :=
  match a with
  | Push tdata error => OpPush p tdata None error
  | Work e => OpWorker p e
  end.

Definition pushed (acts : list Activity) : list TaskData :=
  omap (fun a => match a with Push tdata _ => Some tdata | Work _ => None end)
    acts.

(** The books of one backend: every job pushed so far is either still queued
    or was called once, and every job called is either still running or has
    returned. *)
Definition accounted (p : addr) (evs : list Event) (tp : GThreadPool)
    (jobs : list TaskData) : Prop :=
  invoked p evs ++ tp_queue tp ≡ₚ jobs
  /\ completed p evs ++ tp_running tp ≡ₚ invoked p evs.

(** A backend that is allowed at least one worker can always be drained. *)
Definition has_worker (tp : GThreadPool) : Prop :=
  tp_max_threads tp = (-1)%Z \/ (0 < tp_max_threads tp)%Z.

(** The pool [p] has a backend of its own with at least one worker, and the
    books of that backend are in order for the events since [w1] and the
    jobs [jobs]. *)
Definition serving (p : addr) (w1 w : World) (jobs : list TaskData) : Prop :=
  exists o tp evs,
    heap w !! p = Some o /\ pool o = Some tp
    /\ tp_func tp = default_func /\ tp_user_data tp = p /\ has_worker tp
    /\ trace w = trace w1 ++ evs
    /\ accounted p evs tp jobs.

(** The pool [p] has a backend of its own that is allowed no thread: the
    jobs [jobs] wait in its queue, none is running, and nothing has happened
    since [w1]. *)
Definition frozen (p : addr) (w1 w : World) (jobs : list TaskData) : Prop :=
  exists o tp,
    heap w !! p = Some o /\ pool o = Some tp
    /\ tp_max_threads tp = 0%Z
    /\ tp_queue tp = jobs /\ tp_running tp = []
    /\ trace w = trace w1.

(** ** The readiness handshake, thread by thread

    The 0-to-1 branch of [gst_task_pool_need_schedule_thread] and the new
    thread ([gst_task_pool_schedule_func], then [main_loop_running_cb] run by
    the main loop) as two interleaved sequences of steps over
    [schedule_lock] and [schedule_cond].  From GLib's contract for
    [g_cond_wait]: the lock is released while the caller sleeps and taken
    again before the call returns, and the call may return although
    [g_cond_signal] was not called (a spurious wakeup). *)
Module Handshake.

(** Where the caller of [gst_task_pool_need_schedule_thread (pool, TRUE)]
    is. *)
Inductive CallerPc :=
  | CLock        (* g_mutex_lock (&schedule_lock) *)
  | CTest        (* if (need_schedule_thread == 0) *)
  | CNewContext  (* schedule_context = g_main_context_new () *)
  | CNewLoop     (* schedule_loop = g_main_loop_new (...) *)
  | CNewThread   (* schedule_thread = g_thread_new (...) *)
  | CWait        (* g_cond_wait: about to release the lock and sleep *)
  | CSleeping    (* in g_cond_wait, lock released *)
  | CWoken       (* in g_cond_wait, woken, has to take the lock again *)
  | CIncrement   (* need_schedule_thread++ *)
  | CUnlock      (* g_mutex_unlock (&schedule_lock) *)
  | CReturned.   (* return ret *)

(** Where the schedule thread is. *)
Inductive ThreadPc :=
  | TNone        (* not created *)
  | TAttach      (* g_idle_source_new ... g_source_attach, g_source_unref *)
  | TRun         (* g_main_loop_run entered *)
  | TCbLock      (* main_loop_running_cb: g_mutex_lock *)
  | TCbSignal    (* g_cond_signal *)
  | TCbUnlock    (* g_mutex_unlock *)
  | TLooping.    (* G_SOURCE_REMOVE returned, the loop goes on *)

Inductive Owner := Caller | ScheduleThread.

Record State := mkState {
  caller : CallerPc;
  thread : ThreadPc;
  lock : option Owner;      (* schedule_lock *)
  need : Z;                 (* need_schedule_thread *)
  context : bool;           (* schedule_context != NULL *)
  loop : bool;              (* schedule_loop != NULL *)
  loop_running : bool;      (* g_main_loop_run is dispatching *)
  signalled : bool          (* g_cond_signal was called *)
}.

(** The scheduler's choice: the caller moves, the schedule thread moves, or
    the sleeping caller wakes up spuriously. *)
Inductive Move := MCaller | MThread | MSpurious.

Definition set_caller (c : CallerPc) (s : State) : State :=
  mkState c (thread s) (lock s) (need s) (context s) (loop s) (loop_running s)
    (signalled s).

Definition set_thread (t : ThreadPc) (s : State) : State :=
  mkState (caller s) t (lock s) (need s) (context s) (loop s) (loop_running s)
    (signalled s).

Definition set_lock (l : option Owner) (s : State) : State :=
  mkState (caller s) (thread s) l (need s) (context s) (loop s)
    (loop_running s) (signalled s).

Definition caller_step (s : State) : option State :=
  match caller s with
  | CLock =>
      match lock s with
      | None => Some (set_caller CTest (set_lock (Some Caller) s))
      | Some _ => None
      end
  | CTest =>
      if (need s =? 0)%Z then Some (set_caller CNewContext s)
      else Some (set_caller CIncrement s)
  | CNewContext =>
      Some (mkState CNewLoop (thread s) (lock s) (need s) true (loop s)
              (loop_running s) (signalled s))
  | CNewLoop =>
      Some (mkState CNewThread (thread s) (lock s) (need s) (context s) true
              (loop_running s) (signalled s))
  | CNewThread => Some (set_caller CWait (set_thread TAttach s))
  | CWait => Some (set_caller CSleeping (set_lock None s))
  | CSleeping => None
  | CWoken =>
      match lock s with
      | None => Some (set_caller CIncrement (set_lock (Some Caller) s))
      | Some _ => None
      end
  | CIncrement =>
      Some (mkState CUnlock (thread s) (lock s) (need s + 1) (context s) (loop s)
              (loop_running s) (signalled s))
  | CUnlock => Some (set_caller CReturned (set_lock None s))
  | CReturned => None
  end.

Definition thread_step (s : State) : option State :=
  match thread s with
  | TNone => None
  | TAttach => Some (set_thread TRun s)
  | TRun =>
      Some (mkState (caller s) TCbLock (lock s) (need s) (context s) (loop s)
              true (signalled s))
  | TCbLock =>
      match lock s with
      | None => Some (set_thread TCbSignal (set_lock (Some ScheduleThread) s))
      | Some _ => None
      end
  | TCbSignal =>
      Some (mkState
              (match caller s with CSleeping => CWoken | c => c end)
              TCbUnlock (lock s) (need s) (context s) (loop s)
              (loop_running s) true)
  | TCbUnlock => Some (set_thread TLooping (set_lock None s))
  | TLooping => None
  end.

(** [None]: the chosen move is not possible (the thread is blocked, asleep
    or done). *)
Definition step (m : Move) (s : State) : option State :=
  match m with
  | MCaller => caller_step s
  | MThread => thread_step s
  | MSpurious =>
      match caller s with
      | CSleeping => Some (set_caller CWoken s)
      | _ => None
      end
  end.

Fixpoint run (ms : list Move) (s : State) : option State :=
  match ms with
  | [] => Some s
  | m :: ms' =>
      match step m s with
      | Some s' => run ms' s'
      | None => None
      end
  end.

(** An idle pool, nobody inside the function. *)
Definition init : State :=
  mkState CLock TNone None 0 false false false false.

(** The caller's sleep in [g_cond_wait] is over. *)
Definition past_wait (c : CallerPc) : bool :=
  match c with
  | CWoken | CIncrement | CUnlock | CReturned => true
  | _ => false
  end.

(** The schedule thread is past the start of [g_main_loop_run]. *)
Definition in_loop (t : ThreadPc) : bool :=
  match t with
  | TCbLock | TCbSignal | TCbUnlock | TLooping => true
  | _ => false
  end.

Definition handshake_inv (s : State) : Prop :=
  (past_wait (caller s) = true -> signalled s = true)
  /\ (signalled s = true -> loop_running s = true)
  /\ (in_loop (thread s) = true -> loop_running s = true)
  /\ (past_wait (caller s) = false -> need s = 0%Z).

(** The schedule in which the sleeping caller is woken spuriously before the
    new thread has made a single step. *)
Definition early_return : list Move :=
  [MCaller; MCaller; MCaller; MCaller; MCaller; MCaller;
   MSpurious; MCaller; MCaller; MCaller].

End Handshake.

(** ** Two enable requests at the same time

    Two threads call [gst_task_pool_need_schedule_thread (pool, TRUE)] on the
    same pool, which is live and not the default pool, so that both are past
    the guards; each goes through the body under [schedule_lock] step by
    step.  The fields of [pool->priv] are shared.  What the new schedule
    threads do is seen by the callers only as the return of [g_cond_wait],
    which GLib allows after a [g_cond_signal] and also without one; the
    scheduler's move [Wake] stands for both. *)
Module Overlap.

Import Handshake.

Inductive Who := First | Second.

Record State := mkState {
  first : CallerPc;
  second : CallerPc;
  lock : option Who;             (* schedule_lock *)
  need : Z;                      (* need_schedule_thread *)
  context : option addr;         (* schedule_context *)
  loop : option addr;            (* schedule_loop *)
  thread : option addr;          (* schedule_thread *)
  calls : list Event;            (* the GLib calls so far *)
  next : addr                    (* the next fresh handle *)
}.

Inductive Move :=
  | Go (i : Who)      (* the caller makes its next step *)
  | Wake (i : Who).   (* its g_cond_wait is over *)

Definition pc (i : Who) (s : State) : CallerPc :=
  match i with
  | First => first s
  | Second => second s
  end.

Definition set_pc (i : Who) (c : CallerPc) (s : State) : State :=
  match i with
  | First =>
      mkState c (second s) (lock s) (need s) (context s) (loop s) (thread s)
        (calls s) (next s)
  | Second =>
      mkState (first s) c (lock s) (need s) (context s) (loop s) (thread s)
        (calls s) (next s)
  end.

Definition set_lock (l : option Who) (s : State) : State :=
  mkState (first s) (second s) l (need s) (context s) (loop s) (thread s)
    (calls s) (next s).

Definition caller_step (i : Who) (s : State) : option State :=
  match pc i s with
  | CLock =>
      match lock s with
      | None => Some (set_pc i CTest (set_lock (Some i) s))
      | Some _ => None
      end
  | CTest =>
      if (need s =? 0)%Z then Some (set_pc i CNewContext s)
      else Some (set_pc i CIncrement s)
  | CNewContext =>
      let c := next s in
      Some (set_pc i CNewLoop
              (mkState (first s) (second s) (lock s) (need s) (Some c) (loop s)
                 (thread s) (calls s ++ [EvContextNew c]) (Pos.succ c)))
  | CNewLoop =>
      let l := next s in
      Some (set_pc i CNewThread
              (mkState (first s) (second s) (lock s) (need s) (context s)
                 (Some l) (thread s) (calls s ++ [EvLoopNew l (context s)])
                 (Pos.succ l)))
  | CNewThread =>
      let t := next s in
      Some (set_pc i CWait
              (mkState (first s) (second s) (lock s) (need s) (context s)
                 (loop s) (Some t) (calls s ++ [EvThreadNew t]) (Pos.succ t)))
  | CWait =>
      Some (set_pc i CSleeping
              (mkState (first s) (second s) None (need s) (context s) (loop s)
                 (thread s) (calls s ++ [EvCondWait]) (next s)))
  | CSleeping => None
  | CWoken =>
      match lock s with
      | None => Some (set_pc i CIncrement (set_lock (Some i) s))
      | Some _ => None
      end
  | CIncrement =>
      if (need s =? G_MAXINT)%Z then None
      else
        Some (set_pc i CUnlock
                (mkState (first s) (second s) (lock s) (need s + 1) (context s)
                   (loop s) (thread s) (calls s) (next s)))
  | CUnlock => Some (set_pc i CReturned (set_lock None s))
  | CReturned => None
  end.

(** [None]: the chosen move is not possible. *)
Definition step (m : Move) (s : State) : option State :=
  match m with
  | Go i => caller_step i s
  | Wake i =>
      match pc i s with
      | CSleeping => Some (set_pc i CWoken s)
      | _ => None
      end
  end.

Fixpoint run (ms : list Move) (s : State) : option State :=
  match ms with
  | [] => Some s
  | m :: ms' =>
      match step m s with
      | Some s' => run ms' s'
      | None => None
      end
  end.

(** An idle pool, both callers about to take the lock; [h] is the next fresh
    handle. *)
Definition init (h : addr) : State :=
  mkState CLock CLock None 0 None None None [] h.

(** The whole call of [i], when nothing comes in between. *)
Definition alone (i : Who) : list Move :=
  [Go i; Go i; Go i; Go i; Go i; Go i; Wake i; Go i; Go i; Go i].

(** The first caller goes to sleep in [g_cond_wait]; the second one then
    gets the lock and goes to sleep too. *)
Definition both_asleep : list Move :=
  [Go First; Go First; Go First; Go First; Go First; Go First;
   Go Second; Go Second; Go Second; Go Second; Go Second; Go Second].

(** Then both are woken and return, one after the other. *)
Definition both_return : list Move :=
  [Wake First; Wake Second; Go First; Go First; Go First;
   Go Second; Go Second; Go Second].

End Overlap.

(** ** Cleaning up while a job pushes

    [default_cleanup] against one job of the pool whose function calls
    [gst_task_pool_push] on that same pool once and then returns, step by
    step over the object lock.  The pool was made by [gst_task_pool_new]
    (no bound on its threads, so that a queued job can be called at any
    time) and prepared, and the job is in its queue.  From GLib's contract:
    [g_thread_pool_free (pool, FALSE, TRUE)] returns when nothing is queued
    and nothing is running any more. *)
Module Teardown.

(** Where the caller of [gst_task_pool_cleanup] is in [default_cleanup]. *)
Inductive CleanerPc :=
  | KLock      (* GST_OBJECT_LOCK (pool) *)
  | KTest      (* if (pool->pool) *)
  | KFree      (* g_thread_pool_free (pool->pool, FALSE, TRUE) *)
  | KStore     (* pool->pool = NULL *)
  | KUnlock    (* GST_OBJECT_UNLOCK (pool) *)
  | KReturned.

(** Where the job is. *)
Inductive JobPc :=
  | JWaiting     (* in the queue of the backend *)
  | JPushLock    (* called by default_func; in default_push, before
                    GST_OBJECT_LOCK (pool) *)
  | JPushTest    (* if (pool->pool) *)
  | JPushUnlock  (* GST_OBJECT_UNLOCK (pool) *)
  | JReturn      (* return NULL, then the end of the function *)
  | JDone.       (* default_func has returned *)

(** What became of the job that the first one pushes. *)
Inductive PushedPc :=
  | PNone        (* not pushed yet *)
  | PQueued      (* g_thread_pool_push has put it in the queue *)
  | PRunning     (* called by default_func *)
  | PDone        (* returned *)
  | PDropped.    (* there was no backend: g_slice_free *)

Inductive Owner := Cleaner | Job.

Record State := mkState {
  cleaner : CleanerPc;
  job : JobPc;
  pushed_job : PushedPc;
  object_lock : option Owner;   (* GST_OBJECT_LOCK (pool) *)
  backend : bool                (* pool->pool != NULL *)
}.

(** The scheduler's choice: the caller of cleanup moves, the job moves, or a
    worker moves the pushed job on. *)
Inductive Move := MCleaner | MJob | MWorker.

(** Nothing is queued or running in the backend. *)
Definition idle (s : State) : bool :=
  match job s, pushed_job s with
  | JDone, (PNone | PDone | PDropped) => true
  | _, _ => false
  end.

Definition cleaner_step (s : State) : option State :=
  match cleaner s with
  | KLock =>
      match object_lock s with
      | None => Some (mkState KTest (job s) (pushed_job s) (Some Cleaner) (backend s))
      | Some _ => None
      end
  | KTest =>
      if backend s then
        Some (mkState KFree (job s) (pushed_job s) (object_lock s) (backend s))
      else
        Some (mkState KUnlock (job s) (pushed_job s) (object_lock s) (backend s))
  | KFree =>
      if idle s then
        Some (mkState KStore (job s) (pushed_job s) (object_lock s) (backend s))
      else None
  | KStore =>
      Some (mkState KUnlock (job s) (pushed_job s) (object_lock s) false)
  | KUnlock =>
      Some (mkState KReturned (job s) (pushed_job s) None (backend s))
  | KReturned => None
  end.

Definition job_step (s : State) : option State :=
  match job s with
  | JWaiting =>
      Some (mkState (cleaner s) JPushLock (pushed_job s) (object_lock s)
              (backend s))
  | JPushLock =>
      match object_lock s with
      | None =>
          Some (mkState (cleaner s) JPushTest (pushed_job s) (Some Job)
                  (backend s))
      | Some _ => None
      end
  | JPushTest =>
      Some (mkState (cleaner s) JPushUnlock
              (if backend s then PQueued else PDropped) (object_lock s)
              (backend s))
  | JPushUnlock =>
      Some (mkState (cleaner s) JReturn (pushed_job s) None (backend s))
  | JReturn =>
      Some (mkState (cleaner s) JDone (pushed_job s) (object_lock s)
              (backend s))
  | JDone => None
  end.

Definition worker_step (s : State) : option State :=
  match pushed_job s with
  | PQueued =>
      Some (mkState (cleaner s) (job s) PRunning (object_lock s) (backend s))
  | PRunning =>
      Some (mkState (cleaner s) (job s) PDone (object_lock s) (backend s))
  | _ => None
  end.

(** [None]: the chosen thread is blocked or done. *)
Definition step (m : Move) (s : State) : option State :=
  match m with
  | MCleaner => cleaner_step s
  | MJob => job_step s
  | MWorker => worker_step s
  end.

Fixpoint run (ms : list Move) (s : State) : option State :=
  match ms with
  | [] => Some s
  | m :: ms' =>
      match step m s with
      | Some s' => run ms' s'
      | None => None
      end
  end.

(** The pool is prepared, the job waits in the queue, and
    [gst_task_pool_cleanup] is called. *)
Definition init : State := mkState KLock JWaiting PNone None true.

(** The job has not got the object lock in [default_push] yet. *)
Definition before_push (j : JobPc) : bool :=
  match j with
  | JWaiting | JPushLock => true
  | _ => false
  end.

(** The caller of cleanup holds the object lock and has not released the
    backend. *)
Definition in_cleanup (c : CleanerPc) : bool :=
  match c with
  | KTest | KFree => true
  | _ => false
  end.

(** The caller of cleanup got the object lock before the job did. *)
Definition blocked (s : State) : bool :=
  in_cleanup (cleaner s) && before_push (job s).

(** No thread can move. *)
Definition stuck (s : State) : Prop := forall m, step m s = None.

(** Cleanup has returned; the job and the job it pushed are done. *)
Definition finished : State := mkState KReturned JDone PDone None false.

(** The caller of cleanup waits in [g_thread_pool_free] with the object lock,
    the job waits for the object lock in [default_push]. *)
Definition deadlock : State := mkState KFree JPushLock PNone (Some Cleaner) true.

(** The schedule from [s] in which the job goes on whenever it can, then the
    worker, and the caller of cleanup only when neither can; [n] bounds its
    length. *)
Fixpoint job_first (n : nat) (s : State) : list Move :=
  match n with
  | 0 => []
  | S n' =>
      match step MJob s, step MWorker s, step MCleaner s with
      | Some s', _, _ => MJob :: job_first n' s'
      | None, Some s', _ => MWorker :: job_first n' s'
      | None, None, Some s' => MCleaner :: job_first n' s'
      | None, None, None => []
      end
  end.

(** What holds in every state the three threads reach. *)
Definition teardown_inv (s : State) : Prop :=
  object_lock s
  = match cleaner s, job s with
    | (KTest | KFree | KStore | KUnlock), _ => Some Cleaner
    | _, (JPushTest | JPushUnlock) => Some Job
    | _, _ => None
    end
  /\ backend s
     = match cleaner s with
       | KUnlock | KReturned => false
       | _ => true
       end
  /\ match cleaner s with
     | KStore | KUnlock | KReturned => idle s = true
     | (KTest | KFree) =>
         match job s with
         | JPushTest | JPushUnlock => False
         | _ => True
         end
     | KLock => True
     end
  /\ match job s, pushed_job s with
     | (JWaiting | JPushLock | JPushTest), PNone => True
     | (JPushUnlock | JReturn | JDone), (PQueued | PRunning | PDone) => True
     | _, _ => False
     end.

End Teardown.

(** ** What a call may touch *)

(** The calls that reach the backend of [q]. *)
Definition touches_backend (op : Op) (q : addr) : bool :=
  match op with
  | OpPrepare p _ _ | OpCleanup p _ | OpPush p _ _ _ | OpWorker p _ =>
      bool_decide (p = q)
  | _ => false
  end.

(** The calls that reach the schedule counter and handles of [q]. *)
Definition touches_schedule (op : Op) (q : addr) : bool :=
  match op with
  | OpNeedScheduleThread p _ _ => bool_decide (p = q)
  | _ => false
  end.

(** The worlds an execution goes through, the first one included. *)
Fixpoint visited (ops : list Op) (w : World) : list World :=
  w :: match ops with
       | [] => []
       | op :: ops' =>
           match run_op op w with
           | Some w' => visited ops' w'
           | None => []
           end
       end.

(** [op] is a [gst_task_pool_prepare] on [p]. *)
Definition is_prepare_of (p : addr) (op : Op) : bool :=
  match op with
  | OpPrepare q _ _ => bool_decide (q = p)
  | _ => false
  end.

(** ** Jobs in flight *)

(** The jobs of [p] that were called and have not returned, after the events
    [evs]. *)
Definition in_flight (p : addr) (evs : list Event) : Z :=
  Z.of_nat (length (invoked p evs)) - Z.of_nat (length (completed p evs)).

(** At no point of [evs] are there more than [k] jobs of [p] in flight. *)
Definition at_most_in_flight (p : addr) (k : Z) (evs : list Event) : Prop :=
  forall pre, pre `prefix_of` evs -> (0 <= in_flight p pre <= k)%Z.

(** The pool [p] has a backend of its own with the bound [k]; since [w1] its
    workers took the jobs [jobs] in the order of the queue, and never had
    more than [k] of them in flight. *)
Definition serving_in_order (p : addr) (k : Z) (w1 w : World)
    (jobs : list TaskData) : Prop :=
  exists o tp evs,
    heap w !! p = Some o /\ pool o = Some tp
    /\ tp_func tp = default_func /\ tp_user_data tp = p
    /\ tp_max_threads tp = k
    /\ trace w = trace w1 ++ evs
    /\ invoked p evs ++ tp_queue tp = jobs
    /\ in_flight p evs = Z.of_nat (length (tp_running tp))
    /\ (Z.of_nat (length (tp_running tp)) <= k)%Z
    /\ at_most_in_flight p k evs.

(** ** The handshake: the states the two threads can be in together *)
Module Progress.

Import Handshake.

(** The caller holds [schedule_lock] from after [g_mutex_lock] until it
    sleeps in [g_cond_wait], and again from its wakeup to [g_mutex_unlock]. *)
Definition holds_lock (c : CallerPc) : bool :=
  match c with
  | CTest | CNewContext | CNewLoop | CNewThread | CWait | CIncrement
  | CUnlock => true
  | _ => false
  end.

Definition lock_at (c : CallerPc) (t : ThreadPc) : option Owner :=
  if holds_lock c then Some Caller
  else match t with
       | TCbSignal | TCbUnlock => Some ScheduleThread
       | _ => None
       end.

Definition need_at (c : CallerPc) : Z :=
  match c with
  | CUnlock | CReturned => 1
  | _ => 0
  end.

Definition context_at (c : CallerPc) : bool :=
  match c with
  | CLock | CTest | CNewContext => false
  | _ => true
  end.

Definition loop_at (c : CallerPc) : bool :=
  match c with
  | CLock | CTest | CNewContext | CNewLoop => false
  | _ => true
  end.

Definition signalled_at (t : ThreadPc) : bool :=
  match t with
  | TCbUnlock | TLooping => true
  | _ => false
  end.

(** The whole state, given where the two threads are. *)
Definition state_at (c : CallerPc) (t : ThreadPc) : State :=
  mkState c t (lock_at c t) (need_at c) (context_at c) (loop_at c)
    (in_loop t) (signalled_at t).

(** The pairs of positions that occur. *)
Definition positions_ok (c : CallerPc) (t : ThreadPc) : bool :=
  match c, t with
  | (CLock | CTest | CNewContext | CNewLoop | CNewThread), TNone => true
  | CWait, (TAttach | TRun | TCbLock) => true
  | CSleeping, (TAttach | TRun | TCbLock | TCbSignal) => true
  | CWoken, (TAttach | TRun | TCbLock | TCbSignal | TCbUnlock | TLooping) => true
  | (CIncrement | CUnlock), (TAttach | TRun | TCbLock | TLooping) => true
  | CReturned, (TAttach | TRun | TCbLock | TCbSignal | TCbUnlock | TLooping) =>
      true
  | _, _ => false
  end.

Definition caller_rank (c : CallerPc) : nat :=
  match c with
  | CLock => 0 | CTest => 1 | CNewContext => 2 | CNewLoop => 3
  | CNewThread => 4 | CWait => 5 | CSleeping => 6 | CWoken => 7
  | CIncrement => 8 | CUnlock => 9 | CReturned => 10
  end.

Definition thread_rank (t : ThreadPc) : nat :=
  match t with
  | TNone => 0 | TAttach => 1 | TRun => 2 | TCbLock => 3 | TCbSignal => 4
  | TCbUnlock => 5 | TLooping => 6
  end.

(** How far the two threads have got. *)
Definition rank (s : State) : nat :=
  caller_rank (caller s) + thread_rank (thread s).

(** The caller has returned and the schedule thread runs its loop. *)
Definition finished : State := state_at CReturned TLooping.

End Progress.

(** ** Basic facts *)

Lemma heap_store p f w : heap (store p f w) = alter f p (heap w).
Proof. reflexivity. Qed.

Lemma store_lookup p f w :
  heap (store p f w) !! p = f <$> heap w !! p.
Proof. rewrite heap_store. apply lookup_alter_eq. Qed.

Lemma store_lookup_ne p q f w :
  p <> q -> heap (store p f w) !! q = heap w !! q.
Proof. intros. rewrite heap_store. by apply lookup_alter_ne. Qed.

Lemma emitted_emit w evs : emitted w (emit evs w) = evs.
Proof. unfold emitted, emit; simpl. by rewrite drop_app_length. Qed.

Lemma emitted_refl w : emitted w w = [].
Proof. unfold emitted. by rewrite drop_all. Qed.

Lemma emitted_app w w' evs :
  trace w' = trace w ++ evs -> emitted w w' = evs.
Proof. intros H. unfold emitted. rewrite H. by rewrite drop_app_length. Qed.

Lemma fresh_not_live (w : World) : heap w !! fresh (dom (heap w)) = None.
Proof. apply not_elem_of_dom, is_fresh. Qed.

Lemma get_default_first spawn w :
  default_static w = None ->
  let d := fresh (dom (heap w)) in
  gst_task_pool_get_default spawn w =
    (d, mkWorld (<[d := default_pool_object d]> (heap w)) (Some d)
          (trace w ++ [EvObjectNew d; EvThreadPoolNew d]) (next_handle w)).
Proof.
  intros Hs d. unfold gst_task_pool_get_default. rewrite Hs.
  unfold gst_task_pool_new, g_object_newv, gst_task_pool_prepare. fold d.
  cbn [heap emit set_heap]. rewrite lookup_insert_eq.
  cbn [prepare gst_task_pool_class_init]. unfold default_prepare.
  cbn [heap emit set_heap]. rewrite lookup_insert_eq.
  cbn. f_equal. unfold gst_object_ref, store, set_heap, emit, set_default_static.
  destruct spawn; cbn; f_equal; f_equal;
    solve [ by rewrite <- app_assoc
          | rewrite !alter_insert_eq; by rewrite ?insert_insert_eq ].
Qed.

Lemma get_default_again spawn w d :
  default_static w = Some d ->
  gst_task_pool_get_default spawn w = (d, gst_object_ref d w).
Proof. intros Hs. unfold gst_task_pool_get_default. by rewrite Hs. Qed.

(** What every call of [gst_task_pool_get_default] guarantees. *)
Lemma get_default_spec spawn w d w1 :
  gst_task_pool_get_default spawn w = (d, w1) ->
  default_static w1 = Some d
  /\ next_handle w1 = next_handle w
  /\ (forall q, q <> d -> heap w1 !! q = heap w !! q)
  /\ (default_static w <> Some d -> heap w !! d = None)
  /\ (exists evs, trace w1 = trace w ++ evs /\ sched_events evs = []).
Proof.
  destruct (default_static w) as [d0|] eqn:Hs.
  - rewrite (get_default_again _ _ _ Hs). intros [= <- <-].
    repeat split; try done.
    + intros q Hq. unfold gst_object_ref. by rewrite store_lookup_ne.
    + exists []. by rewrite app_nil_r.
  - rewrite (get_default_first _ _ Hs). intros [= <- <-]. cbn.
    repeat split; try done.
    + intros q Hq. by rewrite lookup_insert_ne.
    + intros _. apply fresh_not_live.
    + eexists. split; [reflexivity|]. reflexivity.
Qed.

(** ** [gst_task_pool_need_schedule_thread], case by case *)

(** The first guard: no live object at [p]. *)
Lemma need_schedule_thread_not_live p needed spawn w :
  heap w !! p = None ->
  gst_task_pool_need_schedule_thread p needed spawn w
  = Some (false, emit [EvCritical] w).
Proof. intros H. unfold gst_task_pool_need_schedule_thread. by rewrite H. Qed.

(** The second guard: a disable request while the counter is not positive. *)
Lemma need_schedule_thread_underflow p spawn w o :
  heap w !! p = Some o ->
  (need_schedule_thread (priv o) <= 0)%Z ->
  gst_task_pool_need_schedule_thread p false spawn w
  = Some (false, emit [EvCritical] w).
Proof.
  intros H Hn. unfold gst_task_pool_need_schedule_thread. rewrite H.
  cbn [orb]. destruct (Z.ltb_spec 0 (need_schedule_thread (priv o))); [lia|done].
Qed.

(** The default pool: the reference taken for the comparison is given back. *)
Lemma need_schedule_thread_default p needed spawn w o :
  heap w !! p = Some o ->
  default_static w = Some p ->
  needed = true \/ (0 < need_schedule_thread (priv o))%Z ->
  gst_task_pool_need_schedule_thread p needed spawn w
  = Some (false, gst_object_unref p (gst_object_ref p w)).
Proof.
  intros H Hd Hg. unfold gst_task_pool_need_schedule_thread. rewrite H.
  assert (needed || (0 <? need_schedule_thread (priv o))%Z = true) as ->.
  { destruct Hg as [->|Hg]; [done|]. apply orb_true_iff. right. by apply Z.ltb_lt. }
  cbn [negb]. rewrite (get_default_again _ _ _ Hd).
  by rewrite decide_True.
Qed.

Lemma need_schedule_thread_other p needed spawn w o :
  heap w !! p = Some o ->
  default_static w <> Some p ->
  needed = true \/ (0 < need_schedule_thread (priv o))%Z ->
  let '(d, w1) := gst_task_pool_get_default spawn w in
  p <> d /\ heap w1 !! p = Some o
  /\ gst_task_pool_need_schedule_thread p needed spawn w
     = need_schedule_thread_locked p needed o w1.
Proof.
  intros H Hd Hg.
  destruct (gst_task_pool_get_default spawn w) as [d w1] eqn:Hgd.
  destruct (get_default_spec _ _ _ _ Hgd) as (Hs1 & _ & Hfr & Hnew & _).
  assert (p <> d) as Hne.
  { intros ->. destruct (decide (default_static w = Some d)) as [e|ne]; [done|].
    specialize (Hnew ne). congruence. }
  assert (heap w1 !! p = Some o) as H1 by (rewrite Hfr; done).
  repeat split; try done.
  unfold gst_task_pool_need_schedule_thread. rewrite H.
  assert (needed || (0 <? need_schedule_thread (priv o))%Z = true) as ->.
  { destruct Hg as [->|Hg]; [done|]. apply orb_true_iff. right. by apply Z.ltb_lt. }
  cbn [negb]. rewrite Hgd. rewrite decide_False by done. rewrite H1.
  unfold need_schedule_thread_locked.
  destruct needed; [|done].
  destruct (_ =? G_MAXINT)%Z; done.
Qed.

(** World after [start_schedule_thread]. *)
Lemma start_schedule_thread_spec p w :
  let c := next_handle w in
  let l := Pos.succ c in
  let t := Pos.succ l in
  start_schedule_thread p w =
    mkWorld (alter (with_schedule (Some c) (Some l) (Some t)) p (heap w))
      (default_static w)
      (trace w ++ [EvContextNew c; EvLoopNew l (Some c); EvThreadNew t; EvCondWait])
      (Pos.succ t).
Proof.
  unfold start_schedule_thread, new_handle, emit, store, set_heap,
    set_next_handle; cbn.
  f_equal. by rewrite <- !app_assoc.
Qed.

Lemma stop_schedule_thread_spec p o w :
  stop_schedule_thread p o w =
    mkWorld (alter (with_schedule None None None) p (heap w))
      (default_static w)
      (trace w ++ [EvLoopQuit (schedule_loop (priv o));
                   EvThreadJoin (schedule_thread (priv o));
                   EvLoopUnref (schedule_loop (priv o));
                   EvContextUnref (schedule_context (priv o))])
      (next_handle w).
Proof. reflexivity. Qed.

(** ** The invariant of reachable worlds *)

Ltac obj_ok_tac :=
  unfold obj_ok, sched_ok, backend_ok, with_need, with_schedule, G_MAXINT in *;
  cbn in *; intuition (simplify_eq; cbn in *; try lia; try congruence; eauto).

Ltac sched_ok_tac :=
  unfold obj_ok, sched_ok, backend_ok, with_need, with_schedule, G_MAXINT in *;
  cbn;
  intuition (try lia; eauto;
             try solve [ match goal with
                         | H : is_Some None |- _ => by destruct H
                         | H : _ -> ?G |- ?G => apply H; lia
                         end ]).

Lemma wf_same w w' :
  heap w' = heap w -> default_static w' = default_static w -> wf w -> wf w'.
Proof. intros Hh Hs [H1 H2]. split; rewrite ?Hh, ?Hs; done. Qed.

Lemma wf_emit evs w : wf w -> wf (emit evs w).
Proof. by apply wf_same. Qed.

Lemma wf_store p f w :
  wf w ->
  (forall o, heap w !! p = Some o -> obj_ok p o -> obj_ok p (f o)) ->
  (forall o, heap w !! p = Some o -> default_static w = Some p ->
     need_schedule_thread (priv (f o)) = need_schedule_thread (priv o)) ->
  wf (store p f w).
Proof.
  intros [H1 H2] Hf Hd. split.
  - intros q o. destruct (decide (p = q)) as [<-|Hne].
    + rewrite store_lookup. destruct (heap w !! p) as [o0|] eqn:E; [|done].
      intros [= <-]. eauto.
    + rewrite store_lookup_ne by done. eauto.
  - intros d Hs. cbn in Hs. destruct (H2 d Hs) as (o & Ho & Hn).
    destruct (decide (p = d)) as [<-|Hne].
    + exists (f o). rewrite store_lookup, Ho. split; [done|].
      rewrite Hd; done.
    + exists o. by rewrite store_lookup_ne.
Qed.

Lemma wf_insert_fresh o w :
  wf w -> obj_ok (fresh (dom (heap w))) o ->
  wf (set_heap (<[fresh (dom (heap w)) := o]> (heap w)) w).
Proof.
  intros [H1 H2] Ho. pose proof (fresh_not_live w) as Hfr. split.
  - intros q o'. cbn. destruct (decide (fresh (dom (heap w)) = q)) as [<-|Hne].
    + rewrite lookup_insert_eq. by intros [= <-].
    + rewrite lookup_insert_ne by done. eauto.
  - intros d Hs. cbn in *. destruct (H2 d Hs) as (o' & Ho' & Hn).
    exists o'. rewrite lookup_insert_ne; [done|]. congruence.
Qed.

Lemma wf_empty : wf empty_world.
Proof. split; [intros p o; cbn; by rewrite lookup_empty | done]. Qed.

Lemma worker_step_keeps e tp tp' evs :
  worker_step e tp = Some (tp', evs) ->
  tp_func tp' = tp_func tp /\ tp_user_data tp' = tp_user_data tp
  /\ tp_max_threads tp' = tp_max_threads tp.
Proof.
  destruct e as [|i]; cbn.
  - destruct (tp_queue tp); [done|]. destruct (can_start tp); [|done].
    by intros [= <- <-].
  - destruct (tp_running tp !! i); [|done]. by intros [= <- <-].
Qed.

Lemma wf_new w : wf w -> wf (snd (gst_task_pool_new w)).
Proof.
  intros H. cbn. apply wf_emit, wf_insert_fresh; [done|].
  unfold gst_task_pool_init. obj_ok_tac; by destruct H0.
Qed.

Lemma wf_new_full m x w : wf w -> wf (snd (gst_task_pool_new_full m x w)).
Proof.
  intros H. unfold gst_task_pool_new_full. cbn.
  apply wf_store; [by apply (wf_new w)| |done].
  intros o _ ?. obj_ok_tac.
Qed.

Lemma wf_prepare p spawn error w :
  wf w -> wf (fst (gst_task_pool_prepare gst_task_pool_class_init p spawn error w)).
Proof.
  intros H. unfold gst_task_pool_prepare.
  destruct (heap w !! p) as [o|] eqn:E; [|by apply wf_emit].
  cbn [prepare gst_task_pool_class_init]. unfold default_prepare. rewrite E.
  destruct (g_thread_pool_new _ _ _ _ _ _) as [[tp e'] evs] eqn:En. cbn.
  apply wf_emit, wf_store; [done| |done].
  intros o' _ ?. unfold g_thread_pool_new in En.
  destruct (_ || _); [injection En as <- <- <-; obj_ok_tac|].
  destruct spawn; [destruct (exclusive _)|]; injection En as <- <- <-;
    obj_ok_tac.
Qed.

Lemma wf_cleanup p sched w w' :
  wf w -> gst_task_pool_cleanup gst_task_pool_class_init p sched w = Some w' ->
  wf w'.
Proof.
  intros H. unfold gst_task_pool_cleanup.
  destruct (heap w !! p) as [o|] eqn:E; [|intros [= <-]; by apply wf_emit].
  cbn [cleanup gst_task_pool_class_init]. unfold default_cleanup. rewrite E.
  destruct (pool o) as [tp|]; [|by intros [= <-]].
  destruct (g_thread_pool_free _ _ _ _); [|done]. intros [= <-].
  apply wf_store; [by apply wf_emit| |done].
  intros o' _ ?. obj_ok_tac.
Qed.

Lemma wf_push p td spawn error w :
  wf w -> wf (snd (gst_task_pool_push gst_task_pool_class_init p td spawn error w)).
Proof.
  intros H. unfold gst_task_pool_push.
  destruct (heap w !! p) as [o|] eqn:E; [|by apply wf_emit].
  cbn [push gst_task_pool_class_init]. unfold default_push. rewrite E.
  destruct (pool o) as [tp|] eqn:Ep; [|done].
  destruct (g_thread_pool_push _ _ _ _) as [tp' e'] eqn:En. cbn.
  apply wf_store; [done| |done].
  intros o' Ho' ?. assert (o' = o) as -> by congruence.
  unfold g_thread_pool_push in En.
  assert (tp' = tp_set_queue (tp_queue tp ++ [td]) tp) as ->
    by (destruct spawn; congruence).
  destruct H0 as (? & ? & Hb). destruct (Hb _ Ep).
  obj_ok_tac.
Qed.

Lemma wf_worker p e w : wf w -> wf (worker_event p e w).
Proof.
  intros H. unfold worker_event.
  destruct (heap w !! p) as [o|] eqn:E; [|done].
  destruct (pool o) as [tp|] eqn:Ep; [|done].
  destruct (worker_step e tp) as [[tp' evs]|] eqn:Es; [|done].
  apply wf_emit, wf_store; [done| |done].
  intros o' Ho' ?. assert (o' = o) as -> by congruence.
  destruct (worker_step_keeps _ _ _ _ Es) as (? & ? & _).
  destruct H0 as (? & ? & Hb). destruct (Hb _ Ep).
  obj_ok_tac.
Qed.

Lemma wf_get_schedule_context p w :
  wf w -> wf (snd (gst_task_pool_get_schedule_context p w)).
Proof.
  intros H. unfold gst_task_pool_get_schedule_context.
  destruct (heap w !! p) as [o|]; [|by apply wf_emit].
  destruct (negb _); [by apply wf_emit|].
  destruct (schedule_context _); [by apply wf_emit|done].
Qed.

Lemma wf_ref p w : wf w -> wf (gst_object_ref p w).
Proof.
  intros H. apply wf_store; [done| |done]. intros o _ ?. obj_ok_tac.
Qed.

Lemma wf_get_default spawn w : wf w -> wf (snd (gst_task_pool_get_default spawn w)).
Proof.
  intros H. destruct (default_static w) as [d|] eqn:Hs.
  - rewrite (get_default_again _ _ _ Hs). by apply wf_ref.
  - rewrite (get_default_first _ _ Hs). cbn.
    pose proof (wf_insert_fresh (default_pool_object (fresh (dom (heap w)))) w H)
      as [H1 H2].
    { unfold default_pool_object. obj_ok_tac; by destruct H0. }
    split; [exact H1|]. cbn. intros d [= <-].
    eexists. rewrite lookup_insert_eq. done.
Qed.

Lemma wf_alter p f w w' :
  heap w' = alter f p (heap w) ->
  default_static w' = default_static w ->
  wf w ->
  (forall o, heap w !! p = Some o -> obj_ok p o -> obj_ok p (f o)) ->
  (forall o, heap w !! p = Some o -> default_static w = Some p ->
     need_schedule_thread (priv (f o)) = need_schedule_thread (priv o)) ->
  wf w'.
Proof.
  intros Hh Hs H Hf Hd. apply (wf_same (store p f w)); [done|done|].
  by apply wf_store.
Qed.

Lemma wf_unref p w :
  wf w ->
  (forall o, heap w !! p = Some o -> (2 <= ref_count o)%Z) ->
  wf (gst_object_unref p w).
Proof.
  intros H Hrc. unfold gst_object_unref.
  destruct (heap w !! p) as [o|] eqn:E; [|by apply wf_emit].
  specialize (Hrc o eq_refl).
  destruct (Z.eqb_spec (ref_count o) 1); [lia|].
  apply wf_store; [done| |done]. intros o' ? ?. simplify_eq. obj_ok_tac.
Qed.

Lemma need_schedule_thread_locked_heap p needed o w1 r w' :
  need_schedule_thread_locked p needed o w1 = Some (r, w') ->
  default_static w' = default_static w1 /\
  exists f, heap w' = alter f p (heap w1) /\
    f o = (let n := need_schedule_thread (priv o) in
           if needed then
             if (n =? 0)%Z then
               with_need 1 (with_schedule (Some (next_handle w1))
                              (Some (Pos.succ (next_handle w1)))
                              (Some (Pos.succ (Pos.succ (next_handle w1)))) o)
             else with_need (n + 1) o
           else
             if (n - 1 =? 0)%Z then with_schedule None None None (with_need 0 o)
             else with_need (n - 1) o).
Proof.
  unfold need_schedule_thread_locked. destruct needed.
  - destruct (_ =? G_MAXINT)%Z; [done|]. intros [= <- <-].
    destruct (Z.eqb_spec (need_schedule_thread (priv o)) 0) as [e|ne].
    + rewrite start_schedule_thread_spec. unfold store, set_heap. cbn.
      split; [done|]. eexists. rewrite alter_alter_eq.
      split; [reflexivity|]. cbn. by rewrite e.
    + split; [done|]. eexists. split; [apply heap_store|done].
  - intros [= <- <-].
    destruct (Z.eqb_spec (need_schedule_thread (priv o) - 1) 0) as [e|ne].
    + rewrite stop_schedule_thread_spec. unfold store, set_heap. cbn.
      split; [done|]. eexists. rewrite alter_alter_eq.
      split; [reflexivity|]. cbn. unfold with_need, with_schedule. cbn.
      by rewrite <- e.
    + split; [done|]. eexists. split; [apply heap_store|done].
Qed.

Lemma wf_need_schedule_thread p needed spawn w r w' :
  wf w ->
  gst_task_pool_need_schedule_thread p needed spawn w = Some (r, w') ->
  wf w'.
Proof.
  intros H Hc.
  destruct (heap w !! p) as [o|] eqn:E.
  2:{ rewrite need_schedule_thread_not_live in Hc by done.
      injection Hc as <- <-. by apply wf_emit. }
  destruct (decide (needed = true \/ (0 < need_schedule_thread (priv o))%Z))
    as [Hg|Hg].
  2:{ assert (needed = false) as -> by (destruct needed; tauto).
      rewrite (need_schedule_thread_underflow _ _ _ _ E) in Hc by lia.
      injection Hc as <- <-. by apply wf_emit. }
  destruct (decide (default_static w = Some p)) as [Hd|Hd].
  { rewrite (need_schedule_thread_default _ _ _ _ _ E Hd Hg) in Hc.
    injection Hc as <- <-. apply wf_unref; [by apply wf_ref|].
    intros o'. unfold gst_object_ref. rewrite store_lookup, E.
    intros [= <-]. destruct H as [H _]. specialize (H _ _ E). obj_ok_tac. }
  pose proof (need_schedule_thread_other p needed spawn w o E Hd Hg) as Ho.
  pose proof (wf_get_default spawn w H) as Hw1.
  destruct (gst_task_pool_get_default spawn w) as [d w1] eqn:Hgd.
  destruct Ho as (Hne & E1 & Heq). rewrite Heq in Hc. cbn in Hw1.
  destruct (get_default_spec _ _ _ _ Hgd) as (Hs1 & _).
  destruct (need_schedule_thread_locked_heap _ _ _ _ _ _ Hc)
    as (Hs' & f & Hh & Hf).
  apply (wf_alter p f w1); [done|done|done| |congruence].
  intros o' Ho'. assert (o' = o) as -> by congruence. intros Hok.
  rewrite Hf. cbn zeta.
  assert (needed = true -> need_schedule_thread (priv o) <> G_MAXINT) as Hmax.
  { intros ->. unfold need_schedule_thread_locked in Hc.
    destruct (Z.eqb_spec (need_schedule_thread (priv o)) G_MAXINT); done. }
  clear Hc Heq Hh Hf Hgd E E1 Ho'.
  destruct needed.
  - specialize (Hmax eq_refl).
    destruct (Z.eqb_spec (need_schedule_thread (priv o)) 0) as [e|ne];
      sched_ok_tac.
  - destruct Hg as [?|Hg]; [done|].
    destruct (Z.eqb_spec (need_schedule_thread (priv o) - 1) 0) as [e|ne];
      sched_ok_tac.
Qed.

Lemma wf_run_op op w w' : wf w -> run_op op w = Some w' -> wf w'.
Proof.
  intros H. destruct op; cbn [run_op].
  - intros [= <-]. by apply wf_new.
  - intros [= <-]. by apply wf_new_full.
  - intros [= <-]. by apply wf_prepare.
  - by apply wf_cleanup.
  - intros [= <-]. by apply wf_push.
  - intros [= <-].
    unfold gst_task_pool_join. destruct (heap w !! p); [done|by apply wf_emit].
  - destruct (gst_task_pool_need_schedule_thread _ _ _ _) as [[r w1]|] eqn:E;
      [|done].
    intros [= <-]. by eapply wf_need_schedule_thread.
  - intros [= <-]. by apply wf_get_schedule_context.
  - intros [= <-]. by apply wf_get_default.
  - intros [= <-]. by apply wf_worker.
Qed.

Lemma wf_run_ops ops : forall w w', wf w -> run_ops ops w = Some w' -> wf w'.
Proof.
  induction ops as [|op ops IH]; intros w w' H; cbn.
  - by intros [= <-].
  - destruct (run_op op w) as [w1|] eqn:E; [|done].
    intros Hr. eapply IH; [|done]. by eapply wf_run_op.
Qed.

Lemma reachable_wf w : reachable w -> wf w.
Proof. intros [ops H]. eapply wf_run_ops; [apply wf_empty|done]. Qed.

(** ** Pushing, joining, preparing *)

Lemma push_no_backend w p tdata spawn error :
  is_Some (heap w !! p) -> backend_of w p = None ->
  gst_task_pool_push gst_task_pool_class_init p tdata spawn error w
  = (None, error, w).
Proof.
  unfold backend_of, gst_task_pool_push. intros [o Ho]. rewrite Ho. intros Hb.
  cbn [push gst_task_pool_class_init]. unfold default_push. by rewrite Ho, Hb.
Qed.

Lemma new_has_no_backend w :
  is_Some (heap (snd (gst_task_pool_new w)) !! fst (gst_task_pool_new w))
  /\ backend_of (snd (gst_task_pool_new w)) (fst (gst_task_pool_new w)) = None.
Proof.
  unfold backend_of. cbn. rewrite lookup_insert_eq. split; [by eexists|done].
Qed.

Lemma new_full_has_no_backend m x w :
  is_Some (heap (snd (gst_task_pool_new_full m x w))
             !! fst (gst_task_pool_new_full m x w))
  /\ backend_of (snd (gst_task_pool_new_full m x w))
       (fst (gst_task_pool_new_full m x w)) = None.
Proof.
  unfold backend_of, gst_task_pool_new_full. cbn.
  rewrite lookup_alter_eq, lookup_insert_eq. split; [by eexists|done].
Qed.

Lemma cleanup_leaves_no_backend p sched w w' :
  gst_task_pool_cleanup gst_task_pool_class_init p sched w = Some w' ->
  backend_of w' p = None
  /\ (is_Some (heap w !! p) -> is_Some (heap w' !! p)).
Proof.
  unfold gst_task_pool_cleanup, backend_of.
  destruct (heap w !! p) as [o|] eqn:E.
  - cbn [cleanup gst_task_pool_class_init]. unfold default_cleanup. rewrite E.
    destruct (pool o) as [tp|] eqn:Ep.
    + destruct (g_thread_pool_free _ _ _ _); [|done]. intros [= <-].
      rewrite store_lookup. cbn. rewrite E. cbn. split; [done|by eexists].
    + intros [= <-]. rewrite E. split; [done|by eexists].
  - intros [= <-]. cbn. rewrite E. split; [done|]. by intros [? ?].
Qed.

Lemma refused_prepare_leaves_no_backend w p o spawn error :
  heap w !! p = Some o -> config_refused (priv o) ->
  backend_of (fst (gst_task_pool_prepare gst_task_pool_class_init p spawn error w)) p
  = None.
Proof.
  intros Ho Hc. unfold gst_task_pool_prepare, backend_of. rewrite Ho.
  cbn [prepare gst_task_pool_class_init]. unfold default_prepare. rewrite Ho.
  unfold g_thread_pool_new.
  assert ((exclusive (priv o) && (max_threads (priv o) =? -1)%Z)
          || (max_threads (priv o) <? -1)%Z = true) as ->.
  { apply orb_true_iff. destruct Hc as [[-> ->]|Hc]; [by left|].
    right. by apply Z.ltb_lt. }
  cbn. by rewrite lookup_alter_eq, Ho.
Qed.

Lemma push_reports_backend_failure w p tp tdata e :
  backend_of w p = Some tp ->
  exists w',
    gst_task_pool_push gst_task_pool_class_init p tdata (Some e) (Some None) w
    = (None, Some (Some e), w').
Proof.
  unfold backend_of, gst_task_pool_push.
  destruct (heap w !! p) as [o|] eqn:E; [|done]. intros Hb.
  cbn [push gst_task_pool_class_init]. unfold default_push. rewrite E, Hb.
  cbn. by eexists.
Qed.

(** C2.  On a pool that has no backend -- a pool that was never prepared,
    one that was cleaned up, or one whose preparation GLib refused --
    [gst_task_pool_push] returns [NULL], leaves the caller's error location
    as it was, and leaves the whole world as it was: the job is stored
    nowhere and nothing is called.  With a backend, a failure reported by
    [g_thread_pool_push] does reach an empty error location. *)
Theorem push_without_backend_is_silent_drop :
  (forall w p tdata spawn error,
      is_Some (heap w !! p) -> backend_of w p = None ->
      gst_task_pool_push gst_task_pool_class_init p tdata spawn error w
      = (None, error, w))
  /\ (forall w,
        is_Some (heap (snd (gst_task_pool_new w)) !! fst (gst_task_pool_new w))
        /\ backend_of (snd (gst_task_pool_new w)) (fst (gst_task_pool_new w))
           = None)
  /\ (forall m x w,
        is_Some (heap (snd (gst_task_pool_new_full m x w))
                   !! fst (gst_task_pool_new_full m x w))
        /\ backend_of (snd (gst_task_pool_new_full m x w))
             (fst (gst_task_pool_new_full m x w)) = None)
  /\ (forall p sched w w',
        gst_task_pool_cleanup gst_task_pool_class_init p sched w = Some w' ->
        backend_of w' p = None
        /\ (is_Some (heap w !! p) -> is_Some (heap w' !! p)))
  /\ (forall w p o spawn error,
        heap w !! p = Some o -> config_refused (priv o) ->
        backend_of
          (fst (gst_task_pool_prepare gst_task_pool_class_init p spawn error w)) p
        = None)
  /\ (forall w p tp tdata e,
        backend_of w p = Some tp ->
        exists w',
          gst_task_pool_push gst_task_pool_class_init p tdata (Some e)
            (Some None) w
          = (None, Some (Some e), w')).
Proof.
  split; [exact push_no_backend|].
  split; [exact new_has_no_backend|].
  split; [exact new_full_has_no_backend|].
  split; [exact cleanup_leaves_no_backend|].
  split; [exact refused_prepare_leaves_no_backend|].
  exact push_reports_backend_failure.
Qed.

(** A pool made by [gst_task_pool_new] in the empty world, pushed to before
    it is prepared. *)
Lemma push_without_backend_is_silent_drop_witness :
  let w := snd (gst_task_pool_new empty_world) in
  is_Some (heap w !! 1%positive) /\ backend_of w 1%positive = None
  /\ gst_task_pool_push gst_task_pool_class_init 1%positive
       (mkTaskData 7 None) None (Some None) w
     = (None, Some None, w).
Proof.
  cbv zeta.
  assert (is_Some (heap (snd (gst_task_pool_new empty_world)) !! 1%positive))
    as H1 by (vm_compute; eauto).
  assert (backend_of (snd (gst_task_pool_new empty_world)) 1%positive = None)
    as H2 by (vm_compute; reflexivity).
  split; [exact H1|]. split; [exact H2|].
  exact (proj1 push_without_backend_is_silent_drop _ _ _ _ _ H1 H2).
Defined.

(** C8.  [gst_task_pool_push] on the default implementation returns [NULL]
    whatever the state of the pool and whatever GLib answered, and
    [gst_task_pool_join] changes nothing and reports nothing for any handle. *)
Theorem default_push_returns_null_and_join_is_noop :
  (forall w p tdata spawn error,
      fst (fst (gst_task_pool_push gst_task_pool_class_init p tdata spawn error w))
      = None)
  /\ (forall w p id, default_join p id w = w)
  /\ (forall w p id,
        is_Some (heap w !! p) ->
        gst_task_pool_join gst_task_pool_class_init p id w = w).
Proof.
  split; [|split].
  - intros. unfold gst_task_pool_push.
    destruct (heap w !! p) as [o|] eqn:E; [|done].
    cbn [push gst_task_pool_class_init]. unfold default_push. rewrite E.
    destruct (pool o); [|done]. by destruct (g_thread_pool_push _ _ _ _).
  - done.
  - intros w p id [o Ho]. unfold gst_task_pool_join. by rewrite Ho.
Qed.

Lemma default_push_returns_null_and_join_is_noop_witness :
  let w := snd (gst_task_pool_new empty_world) in
  is_Some (heap w !! 1%positive)
  /\ gst_task_pool_join gst_task_pool_class_init 1%positive (Some 5%positive) w
     = w.
Proof.
  cbv zeta.
  assert (is_Some (heap (snd (gst_task_pool_new empty_world)) !! 1%positive))
    as H1 by (vm_compute; eauto).
  split; [exact H1|].
  exact (proj2 (proj2 default_push_returns_null_and_join_is_noop) _ _ _ H1).
Defined.

(** C7.  [gst_task_pool_prepare] never stores anything in the caller's error
    location: [default_prepare] hands [NULL] to [g_thread_pool_new] in place
    of it.  Two runs show it: an exclusive pool without a bound, which GLib
    refuses (no backend, and no error comes back), and an exclusive pool of
    two threads for which GLib reports a thread that could not be created
    (the error is lost). *)
Theorem prepare_failure_is_not_reported :
  (forall p spawn error w,
      snd (gst_task_pool_prepare gst_task_pool_class_init p spawn error w)
      = error)
  /\ (let '(p, w1) := gst_task_pool_new_full (-1) true empty_world in
      let '(w2, err) :=
        gst_task_pool_prepare gst_task_pool_class_init p None (Some None) w1 in
      backend_of w2 p = None /\ err = Some None)
  /\ (let '(p, w1) := gst_task_pool_new_full 2 true empty_world in
      let '(w2, err) :=
        gst_task_pool_prepare gst_task_pool_class_init p
          (Some (mkGError 1 0)) (Some None) w1 in
      err = Some None
      /\ fst (fst (g_thread_pool_new default_func p 2 true
                     (Some (mkGError 1 0)) (Some None)))
         = backend_of w2 p
      /\ snd (fst (g_thread_pool_new default_func p 2 true
                     (Some (mkGError 1 0)) (Some None)))
         = Some (Some (mkGError 1 0))).
Proof.
  split; [|split].
  - intros. unfold gst_task_pool_prepare.
    destruct (heap w !! p) as [o|] eqn:E; [|done].
    cbn [prepare gst_task_pool_class_init]. unfold default_prepare. rewrite E.
    by destruct (g_thread_pool_new _ _ _ _ _ _) as [[? ?] ?].
  - vm_compute. done.
  - vm_compute. done.
Qed.

(** ** The schedule thread *)

Lemma need_schedule_thread_locked_spec p needed o w1 r w' :
  heap w1 !! p = Some o ->
  need_schedule_thread_locked p needed o w1 = Some (r, w') ->
  r = needed
  /\ default_static w' = default_static w1
  /\ heap w' !! p = Some (need_schedule_thread_post needed (next_handle w1) o)
  /\ (forall q, q <> p -> heap w' !! q = heap w1 !! q)
  /\ trace w' = trace w1 ++ need_schedule_thread_calls needed (next_handle w1) o.
Proof.
  intros Ho Hc.
  destruct (need_schedule_thread_locked_heap _ _ _ _ _ _ Hc)
    as (Hs & f & Hh & Hf).
  assert (r = needed /\
          trace w' = trace w1
                     ++ need_schedule_thread_calls needed (next_handle w1) o)
    as [Hr Ht].
  { unfold need_schedule_thread_locked, need_schedule_thread_calls in *.
    destruct needed.
    - destruct (_ =? G_MAXINT)%Z; [done|]. injection Hc as <- <-.
      split; [done|]. destruct (_ =? 0)%Z.
      + by rewrite start_schedule_thread_spec.
      + cbn. by rewrite app_nil_r.
    - injection Hc as <- <-. split; [done|]. destruct (_ =? 0)%Z.
      + by rewrite stop_schedule_thread_spec.
      + cbn. by rewrite app_nil_r. }
  repeat split; try done.
  - rewrite Hh, lookup_alter_eq, Ho. cbn. by rewrite Hf.
  - intros q Hq. rewrite Hh. by apply lookup_alter_ne.
Qed.

Lemma sched_events_app evs1 evs2 :
  sched_events (evs1 ++ evs2) = sched_events evs1 ++ sched_events evs2.
Proof. apply filter_app. Qed.

Lemma sched_events_calls needed h o :
  sched_events (need_schedule_thread_calls needed h o)
  = need_schedule_thread_calls needed h o.
Proof.
  unfold need_schedule_thread_calls.
  destruct needed; destruct (_ =? 0)%Z; reflexivity.
Qed.

(** A call that passes the guards on a pool that is not the default pool. *)
Lemma need_schedule_thread_step p needed spawn w o r w' :
  heap w !! p = Some o ->
  default_static w <> Some p ->
  needed = true \/ (0 < need_schedule_thread (priv o))%Z ->
  gst_task_pool_need_schedule_thread p needed spawn w = Some (r, w') ->
  r = needed
  /\ default_static w' <> Some p
  /\ heap w' !! p = Some (need_schedule_thread_post needed (next_handle w) o)
  /\ (forall q, q <> p -> need_of w' q = need_of w q)
  /\ (exists evs, trace w' = trace w ++ evs
        /\ sched_events evs
           = need_schedule_thread_calls needed (next_handle w) o).
Proof.
  intros Ho Hd Hg Hc.
  pose proof (need_schedule_thread_other p needed spawn w o Ho Hd Hg) as H.
  destruct (gst_task_pool_get_default spawn w) as [d w1] eqn:Hgd.
  destruct H as (Hne & Ho1 & Heq). rewrite Heq in Hc.
  destruct (get_default_spec _ _ _ _ Hgd) as (Hs1 & Hh1 & Hfr & Hnew & evs0 & Ht0 & Hse0).
  destruct (need_schedule_thread_locked_spec _ _ _ _ _ _ Ho1 Hc)
    as (Hr & Hs & Hp & Hq & Ht).
  rewrite Hh1 in *.
  repeat split; try done.
  - rewrite Hs, Hs1. congruence.
  - intros q Hqp. unfold need_of. rewrite (Hq q Hqp).
    destruct (decide (q = d)) as [->|Hqd]; [|by rewrite Hfr].
    destruct (default_static w) as [d0|] eqn:Hs0.
    + rewrite (get_default_again _ _ _ Hs0) in Hgd. injection Hgd as <- <-.
      unfold gst_object_ref. rewrite store_lookup.
      by destruct (heap w !! d0).
    + rewrite (get_default_first _ _ Hs0) in Hgd. injection Hgd as <- <-.
      cbn. rewrite lookup_insert_eq, fresh_not_live. done.
  - exists (evs0 ++ need_schedule_thread_calls needed (next_handle w) o).
    split; [by rewrite Ht, Ht0, app_assoc|].
    by rewrite sched_events_app, Hse0, sched_events_calls.
Qed.

(** A call that passes the guards on a pool that is not the default pool
    returns, unless it is an enable request at [G_MAXINT]. *)
Lemma need_schedule_thread_returns p needed spawn w o :
  heap w !! p = Some o ->
  default_static w <> Some p ->
  needed = true \/ (0 < need_schedule_thread (priv o))%Z ->
  (needed = true -> need_schedule_thread (priv o) <> G_MAXINT) ->
  exists w', gst_task_pool_need_schedule_thread p needed spawn w
             = Some (needed, w').
Proof.
  intros Ho Hd Hg Hmax.
  pose proof (need_schedule_thread_other p needed spawn w o Ho Hd Hg) as H.
  destruct (gst_task_pool_get_default spawn w) as [d w1] eqn:Hgd.
  destruct H as (Hne & Ho1 & ->). unfold need_schedule_thread_locked.
  destruct needed; [|by eexists].
  destruct (Z.eqb_spec (need_schedule_thread (priv o)) G_MAXINT);
    [by destruct Hmax|by eexists].
Qed.

Lemma unref_ref p o w :
  heap w !! p = Some o -> (1 <= ref_count o)%Z ->
  gst_object_unref p (gst_object_ref p w) = w.
Proof.
  intros Ho Hrc. unfold gst_object_unref, gst_object_ref.
  rewrite store_lookup, Ho. cbn.
  destruct (Z.eqb_spec (ref_count o + 1) 1); [lia|].
  unfold store, set_heap. cbn. rewrite alter_alter_eq.
  rewrite alter_id; [by destruct w|].
  intros o' Ho'. assert (o' = o) as -> by congruence.
  destruct o; cbn. unfold set_ref_count; cbn. f_equal. lia.
Qed.

Lemma get_schedule_context_live p w o :
  heap w !! p = Some o ->
  (0 < need_schedule_thread (priv o))%Z ->
  fst (gst_task_pool_get_schedule_context p w) = schedule_context (priv o).
Proof.
  intros Ho Hn. unfold gst_task_pool_get_schedule_context. rewrite Ho.
  destruct (Z.ltb_spec 0 (need_schedule_thread (priv o))); [|lia]. cbn.
  by destruct (schedule_context (priv o)).
Qed.

Lemma get_schedule_context_idle p w o :
  heap w !! p = Some o ->
  need_schedule_thread (priv o) = 0%Z ->
  gst_task_pool_get_schedule_context p w = (None, emit [EvCritical] w).
Proof.
  intros Ho Hn. unfold gst_task_pool_get_schedule_context. by rewrite Ho, Hn.
Qed.

(** C6.  In every reachable world, a call of
    [gst_task_pool_need_schedule_thread] on the default pool, enabling or
    disabling, returns [FALSE] and leaves every object, the default pool
    included, exactly as it was; no context, loop or thread is made, and the
    default pool has no context to hand out afterwards. *)
Theorem default_pool_rejects_schedule_thread w p needed spawn :
  reachable w ->
  default_static w = Some p ->
  exists w',
    gst_task_pool_need_schedule_thread p needed spawn w = Some (false, w')
    /\ heap w' = heap w
    /\ default_static w' = Some p
    /\ sched_events (emitted w w') = []
    /\ need_of w' p = 0%Z
    /\ fst (gst_task_pool_get_schedule_context p w') = None.
Proof.
  intros Hr Hd. destruct (reachable_wf _ Hr) as [Hobj Hdef].
  destruct (Hdef _ Hd) as (o & Ho & Hn).
  destruct (Hobj _ _ Ho) as (Hrc & _).
  assert (forall w', heap w' = heap w ->
            need_of w' p = 0%Z
            /\ fst (gst_task_pool_get_schedule_context p w') = None) as Hidle.
  { intros w' Hh. rewrite <- Hh in Ho. unfold need_of. rewrite Ho.
    split; [done|]. by rewrite (get_schedule_context_idle _ _ _ Ho Hn). }
  destruct needed.
  - rewrite (need_schedule_thread_default _ _ _ _ _ Ho Hd) by (by left).
    rewrite (unref_ref _ _ _ Ho Hrc). exists w.
    split; [done|]. split; [done|]. split; [done|].
    split; [by rewrite emitted_refl|]. by apply Hidle.
  - rewrite (need_schedule_thread_underflow _ _ _ _ Ho) by lia.
    exists (emit [EvCritical] w).
    split; [done|]. split; [done|]. split; [done|].
    split; [by rewrite emitted_emit|]. by apply Hidle.
Qed.

Lemma default_pool_rejects_schedule_thread_witness :
  let w := snd (gst_task_pool_get_default None empty_world) in
  reachable w /\ default_static w = Some 1%positive
  /\ exists w',
       gst_task_pool_need_schedule_thread 1%positive true None w
       = Some (false, w')
       /\ heap w' = heap w
       /\ default_static w' = Some 1%positive
       /\ sched_events (emitted w w') = []
       /\ need_of w' 1%positive = 0%Z
       /\ fst (gst_task_pool_get_schedule_context 1%positive w') = None.
Proof.
  cbv zeta.
  assert (reachable (snd (gst_task_pool_get_default None empty_world))) as H1
    by (exists [OpGetDefault None]; reflexivity).
  assert (default_static (snd (gst_task_pool_get_default None empty_world))
          = Some 1%positive) as H2 by (vm_compute; reflexivity).
  split; [exact H1|]. split; [exact H2|].
  exact (default_pool_rejects_schedule_thread _ _ true None H1 H2).
Defined.

(** C10.  A disable request always returns [FALSE]: when a guard rejects it,
    when the pool is the default pool, and when it goes through and the
    counter is lowered.  Hence a call that returns [TRUE] was an enable
    request. *)
Theorem disable_always_returns_false p spawn w :
  (exists w',
      gst_task_pool_need_schedule_thread p false spawn w = Some (false, w'))
  /\ (forall needed r w',
        gst_task_pool_need_schedule_thread p needed spawn w = Some (r, w') ->
        r = true -> needed = true)
  /\ (forall o,
        heap w !! p = Some o ->
        (0 < need_schedule_thread (priv o))%Z ->
        default_static w <> Some p ->
        exists w',
          gst_task_pool_need_schedule_thread p false spawn w = Some (false, w')
          /\ need_of w' p = (need_schedule_thread (priv o) - 1)%Z).
Proof.
  assert (exists w',
      gst_task_pool_need_schedule_thread p false spawn w = Some (false, w'))
    as Hfalse.
  { destruct (heap w !! p) as [o|] eqn:Ho.
    2:{ rewrite need_schedule_thread_not_live by done. by eexists. }
    destruct (Z.lt_ge_cases 0 (need_schedule_thread (priv o))) as [Hn|Hn].
    2:{ rewrite (need_schedule_thread_underflow _ _ _ _ Ho) by lia.
        by eexists. }
    destruct (decide (default_static w = Some p)) as [Hd|Hd].
    { rewrite (need_schedule_thread_default _ _ _ _ _ Ho Hd) by (by right).
      by eexists. }
    apply (need_schedule_thread_returns _ _ _ _ _ Ho Hd); [by right|done]. }
  split; [exact Hfalse|]. split.
  - intros needed r w' Hc ->. destruct needed; [done|].
    destruct Hfalse as [w'' Hw'']. congruence.
  - intros o Ho Hn Hd.
    destruct (need_schedule_thread_returns p false spawn w o Ho Hd) as [w' Hc];
      [by right|done|].
    exists w'. split; [done|].
    destruct (need_schedule_thread_step _ _ _ _ _ _ _ Ho Hd (or_intror Hn) Hc)
      as (_ & _ & Hp & _).
    unfold need_of. rewrite Hp. unfold need_schedule_thread_post.
    destruct (Z.eqb_spec (need_schedule_thread (priv o) - 1) 0) as [e|ne];
      cbn; lia.
Qed.

(** A pool enabled once and disabled again: the disable goes through and
    still returns [FALSE]. *)
Lemma disable_always_returns_false_witness :
  let w :=
    match run_ops [OpNew; OpNeedScheduleThread 1%positive true None] empty_world with
    | Some w => w
    | None => empty_world
    end in
  let o := with_need 1 (with_schedule (Some 1%positive) (Some 2%positive)
                          (Some 3%positive) gst_task_pool_init) in
  heap w !! 1%positive = Some o
  /\ (0 < need_schedule_thread (priv o))%Z
  /\ default_static w <> Some 1%positive
  /\ exists w',
       gst_task_pool_need_schedule_thread 1%positive false None w
       = Some (false, w')
       /\ need_of w' 1%positive = (need_schedule_thread (priv o) - 1)%Z.
Proof.
  cbv zeta.
  set (w := match run_ops [OpNew; OpNeedScheduleThread 1%positive true None]
                    empty_world with Some w => w | None => empty_world end).
  set (o := with_need 1 (with_schedule (Some 1%positive) (Some 2%positive)
                           (Some 3%positive) gst_task_pool_init)).
  assert (heap w !! 1%positive = Some o) as H1 by (vm_compute; reflexivity).
  assert (0 < need_schedule_thread (priv o))%Z as H2 by (vm_compute; reflexivity).
  assert (default_static w <> Some 1%positive) as H3 by (vm_compute; congruence).
  split; [exact H1|]. split; [exact H2|]. split; [exact H3|].
  exact (proj2 (proj2 (disable_always_returns_false 1%positive None w)) o H1 H2 H3).
Defined.

(** C4.  On an idle pool that is not the default pool: two enable requests
    return [TRUE] and bring the counter to 2, with the context made by the
    first one in place; a disable request leaves counter 1 and the same
    context, and releases nothing; the next one joins the thread, releases
    loop and context and leaves the pool idle (the three handles [NULL]),
    with no context to hand out;
    one more fails the guard, returns [FALSE] and leaves the counter at 0. *)
Theorem enable_twice_disable_thrice w p o s1 s2 s3 s4 s5 :
  heap w !! p = Some o ->
  need_schedule_thread (priv o) = 0%Z ->
  default_static w <> Some p ->
  exists w1 w2 w3 w4 c l t,
    gst_task_pool_need_schedule_thread p true s1 w = Some (true, w1)
    /\ need_of w1 p = 1%Z
    /\ sched_events (emitted w w1)
       = [EvContextNew c; EvLoopNew l (Some c); EvThreadNew t; EvCondWait]
    /\ gst_task_pool_need_schedule_thread p true s2 w1 = Some (true, w2)
    /\ need_of w2 p = 2%Z
    /\ sched_events (emitted w1 w2) = []
    /\ fst (gst_task_pool_get_schedule_context p w2) = Some c
    /\ gst_task_pool_need_schedule_thread p false s3 w2 = Some (false, w3)
    /\ need_of w3 p = 1%Z
    /\ sched_events (emitted w2 w3) = []
    /\ fst (gst_task_pool_get_schedule_context p w3) = Some c
    /\ gst_task_pool_need_schedule_thread p false s4 w3 = Some (false, w4)
    /\ need_of w4 p = 0%Z
    /\ sched_events (emitted w3 w4)
       = [EvLoopQuit (Some l); EvThreadJoin (Some t); EvLoopUnref (Some l);
          EvContextUnref (Some c)]
    /\ heap w4 !! p = Some (with_schedule None None None o)
    /\ fst (gst_task_pool_get_schedule_context p w4) = None
    /\ gst_task_pool_need_schedule_thread p false s5 w4
       = Some (false, emit [EvCritical] w4)
    /\ need_of (emit [EvCritical] w4) p = 0%Z.
Proof.
  intros Ho Hn Hd.
  (* first enable *)
  destruct (need_schedule_thread_returns p true s1 w o Ho Hd) as [w1 Hc1];
    [by left|intros _; rewrite Hn; done|].
  destruct (need_schedule_thread_step _ _ _ _ _ _ _ Ho Hd (or_introl eq_refl) Hc1)
    as (_ & Hd1 & Ho1 & _ & evs1 & Ht1 & He1).
  unfold need_schedule_thread_post, need_schedule_thread_calls in Ho1, He1.
  rewrite Hn in Ho1, He1. cbn in Ho1, He1.
  set (c := next_handle w) in *. set (l := Pos.succ c) in *.
  set (t := Pos.succ l) in *.
  set (o1 := with_need 1 (with_schedule (Some c) (Some l) (Some t) o)) in *.
  (* second enable *)
  destruct (need_schedule_thread_returns p true s2 w1 o1 Ho1 Hd1) as [w2 Hc2];
    [by left|done|].
  destruct (need_schedule_thread_step _ _ _ _ _ _ _ Ho1 Hd1 (or_introl eq_refl) Hc2)
    as (_ & Hd2 & Ho2 & _ & evs2 & Ht2 & He2).
  unfold need_schedule_thread_post, need_schedule_thread_calls in Ho2, He2.
  cbn in Ho2, He2.
  set (o2 := with_need 2 o1) in *.
  (* first disable *)
  assert (0 < need_schedule_thread (priv o2))%Z as Hp2 by done.
  destruct (need_schedule_thread_returns p false s3 w2 o2 Ho2 Hd2) as [w3 Hc3];
    [by right|done|].
  destruct (need_schedule_thread_step _ _ _ _ _ _ _ Ho2 Hd2 (or_intror Hp2) Hc3)
    as (_ & Hd3 & Ho3 & _ & evs3 & Ht3 & He3).
  unfold need_schedule_thread_post, need_schedule_thread_calls in Ho3, He3.
  cbn in Ho3, He3.
  set (o3 := with_need 1 o2) in *.
  (* second disable *)
  assert (0 < need_schedule_thread (priv o3))%Z as Hp3 by done.
  destruct (need_schedule_thread_returns p false s4 w3 o3 Ho3 Hd3) as [w4 Hc4];
    [by right|done|].
  destruct (need_schedule_thread_step _ _ _ _ _ _ _ Ho3 Hd3 (or_intror Hp3) Hc4)
    as (_ & Hd4 & Ho4 & _ & evs4 & Ht4 & He4).
  unfold need_schedule_thread_post, need_schedule_thread_calls in Ho4, He4.
  cbn in Ho4, He4.
  assert (heap w4 !! p = Some (with_schedule None None None o)) as Ho4'.
  { rewrite Ho4. unfold o3, o2, o1, with_schedule, with_need, set_priv,
      set_schedule, set_need. cbn. by rewrite Hn. }
  clear Ho4. rename Ho4' into Ho4.
  exists w1, w2, w3, w4, c, l, t.
  repeat split.
  - exact Hc1.
  - unfold need_of. by rewrite Ho1.
  - by rewrite (emitted_app _ _ _ Ht1).
  - exact Hc2.
  - unfold need_of. by rewrite Ho2.
  - by rewrite (emitted_app _ _ _ Ht2).
  - by rewrite (get_schedule_context_live _ _ _ Ho2).
  - exact Hc3.
  - unfold need_of. by rewrite Ho3.
  - by rewrite (emitted_app _ _ _ Ht3).
  - by rewrite (get_schedule_context_live _ _ _ Ho3).
  - exact Hc4.
  - unfold need_of. by rewrite Ho4.
  - by rewrite (emitted_app _ _ _ Ht4).
  - exact Ho4.
  - by rewrite (get_schedule_context_idle _ _ _ Ho4 Hn).
  - apply (need_schedule_thread_underflow _ _ _ _ Ho4). cbn. lia.
  - unfold need_of. cbn. by rewrite Ho4.
Qed.

Lemma enable_twice_disable_thrice_witness :
  let w := snd (gst_task_pool_new empty_world) in
  heap w !! 1%positive = Some gst_task_pool_init
  /\ need_schedule_thread (priv gst_task_pool_init) = 0%Z
  /\ default_static w <> Some 1%positive
  /\ exists w1 w2,
       gst_task_pool_need_schedule_thread 1%positive true None w = Some (true, w1)
       /\ gst_task_pool_need_schedule_thread 1%positive true None w1
          = Some (true, w2)
       /\ need_of w2 1%positive = 2%Z.
Proof.
  cbv zeta.
  assert (heap (snd (gst_task_pool_new empty_world)) !! 1%positive
          = Some gst_task_pool_init) as H1 by (vm_compute; reflexivity).
  assert (need_schedule_thread (priv gst_task_pool_init) = 0%Z) as H2
    by reflexivity.
  assert (default_static (snd (gst_task_pool_new empty_world)) <> Some 1%positive)
    as H3 by (vm_compute; congruence).
  split; [exact H1|]. split; [exact H2|]. split; [exact H3|].
  destruct (enable_twice_disable_thrice _ _ _ None None None None None H1 H2 H3)
    as (w1 & w2 & _ & _ & _ & _ & _ & Hc1 & _ & _ & Hc2 & Hn2 & _).
  exists w1, w2. split; [exact Hc1|]. split; [exact Hc2|exact Hn2].
Defined.

(** ** Calls that leave the schedule threads alone *)

Lemma quiet_refl w : quiet w w.
Proof. split; [done|]. exists []. by rewrite app_nil_r. Qed.

Lemma quiet_trans w1 w2 w3 : quiet w1 w2 -> quiet w2 w3 -> quiet w1 w3.
Proof.
  intros [Hn1 (e1 & Ht1 & Hs1)] [Hn2 (e2 & Ht2 & Hs2)]. split.
  - intros q. by rewrite Hn2.
  - exists (e1 ++ e2). rewrite Ht2, Ht1, app_assoc. split; [done|].
    by rewrite sched_events_app, Hs1, Hs2.
Qed.

Lemma quiet_emit evs w : sched_events evs = [] -> quiet w (emit evs w).
Proof. intros H. split; [done|]. by exists evs. Qed.

Lemma quiet_store p f w :
  (forall o, need_schedule_thread (priv (f o)) = need_schedule_thread (priv o)) ->
  quiet w (store p f w).
Proof.
  intros Hf. split.
  - intros q. unfold need_of. destruct (decide (p = q)) as [<-|Hne].
    + rewrite store_lookup. destruct (heap w !! p); cbn; [apply Hf|done].
    + by rewrite store_lookup_ne.
  - exists []. cbn. by rewrite app_nil_r.
Qed.

Lemma quiet_new w : quiet w (snd (g_object_newv w)).
Proof.
  split.
  - intros q. unfold need_of. cbn.
    destruct (decide (fresh (dom (heap w)) = q)) as [<-|Hne].
    + by rewrite lookup_insert_eq, fresh_not_live.
    + by rewrite lookup_insert_ne.
  - by eexists.
Qed.

Lemma worker_step_quiet e tp tp' evs :
  tp_func tp = default_func ->
  worker_step e tp = Some (tp', evs) -> sched_events evs = [].
Proof.
  intros Hf. destruct e as [|i]; cbn.
  - destruct (tp_queue tp); [done|]. destruct (can_start tp); [|done].
    intros [= <- <-]. by rewrite Hf.
  - destruct (tp_running tp !! i); [|done]. by intros [= <- <-].
Qed.

Lemma wait_quiet sched : forall tp tp' evs,
  tp_func tp = default_func ->
  g_thread_pool_wait sched tp = Some (tp', evs) -> sched_events evs = [].
Proof.
  induction sched as [|e sched IH]; intros tp tp' evs Hf; cbn.
  - destruct (drained tp); [|done]. by intros [= <- <-].
  - destruct (drained tp); [by intros [= <- <-]|].
    destruct (worker_step e tp) as [[tp1 evs1]|] eqn:Es; [|by apply IH].
    destruct (g_thread_pool_wait sched tp1) as [[tp2 evs2]|] eqn:Ew; [|done].
    intros [= <- <-]. rewrite sched_events_app.
    rewrite (worker_step_quiet _ _ _ _ Hf Es).
    destruct (worker_step_keeps _ _ _ _ Es) as (Hf1 & _).
    rewrite (IH _ _ _ (eq_trans Hf1 Hf) Ew). done.
Qed.

Lemma free_quiet tp immediate wait_ sched evs :
  tp_func tp = default_func ->
  g_thread_pool_free tp immediate wait_ sched = Some evs ->
  sched_events evs = [].
Proof.
  intros Hf. unfold g_thread_pool_free.
  destruct (negb _); [by intros [= <-]|].
  destruct wait_; [|by intros [= <-]].
  destruct (g_thread_pool_wait _ _) as [[tp' evs']|] eqn:Ew; [|done].
  cbn. intros [= <-]. eapply wait_quiet; [|done].
  by destruct immediate.
Qed.

Lemma quiet_get_default spawn w : quiet w (snd (gst_task_pool_get_default spawn w)).
Proof.
  destruct (default_static w) as [d|] eqn:Hs.
  - rewrite (get_default_again _ _ _ Hs). by apply quiet_store.
  - rewrite (get_default_first _ _ Hs). split.
    + intros q. unfold need_of. cbn.
      destruct (decide (fresh (dom (heap w)) = q)) as [<-|Hne].
      * by rewrite lookup_insert_eq, fresh_not_live.
      * by rewrite lookup_insert_ne.
    + by eexists.
Qed.

(** Every call other than a [gst_task_pool_need_schedule_thread] that
    passes its guards on a pool that is not the default pool is quiet. *)
Lemma run_op_quiet op w w' :
  wf w -> run_op op w = Some w' ->
  match op with
  | OpNeedScheduleThread p needed _ =>
      match heap w !! p with
      | Some o =>
          default_static w = Some p
          \/ (needed = false /\ (need_schedule_thread (priv o) <= 0)%Z)
      | None => True
      end
  | _ => True
  end ->
  quiet w w'.
Proof.
  intros Hwf. destruct op; cbn [run_op].
  - intros [= <-] _. apply quiet_new.
  - intros [= <-] _.
    apply (quiet_trans _ (snd (g_object_newv w))); [apply quiet_new|].
    by apply quiet_store.
  - intros [= <-] _. unfold gst_task_pool_prepare.
    destruct (heap w !! p) as [o|] eqn:E; [|by apply quiet_emit].
    cbn [prepare gst_task_pool_class_init]. unfold default_prepare. rewrite E.
    destruct (g_thread_pool_new _ _ _ _ _ _) as [[tp e'] evs] eqn:En. cbn.
    eapply quiet_trans; [by apply (quiet_store p (set_pool tp))|].
    apply quiet_emit. unfold g_thread_pool_new in En.
    destruct (_ || _); [by injection En as <- <- <-|].
    destruct spawn; [destruct (exclusive _)|]; by injection En as <- <- <-.
  - intros Hc _. unfold gst_task_pool_cleanup in Hc.
    destruct (heap w !! p) as [o|] eqn:E;
      [|injection Hc as <-; by apply quiet_emit].
    cbn [cleanup gst_task_pool_class_init] in Hc. unfold default_cleanup in Hc.
    rewrite E in Hc.
    destruct (pool o) as [tp|] eqn:Ep;
      [|injection Hc as <-; apply quiet_refl].
    destruct (g_thread_pool_free _ _ _ _) as [evs|] eqn:Ef; [|done].
    injection Hc as <-.
    eapply quiet_trans; [|by apply quiet_store].
    apply quiet_emit. eapply free_quiet; [|done].
    destruct Hwf as [Hobj _]. destruct (Hobj _ _ E) as (_ & _ & Hb).
    by destruct (Hb _ Ep).
  - intros [= <-] _. unfold gst_task_pool_push.
    destruct (heap w !! p) as [o|] eqn:E; [|by apply quiet_emit].
    cbn [push gst_task_pool_class_init]. unfold default_push. rewrite E.
    destruct (pool o) as [tp|] eqn:Ep; [|apply quiet_refl].
    destruct (g_thread_pool_push _ _ _ _) as [tp' e'] eqn:En. cbn.
    by apply quiet_store.
  - intros [= <-] _. unfold gst_task_pool_join.
    destruct (heap w !! p); [apply quiet_refl|by apply quiet_emit].
  - destruct (gst_task_pool_need_schedule_thread _ _ _ _) as [[r w1]|] eqn:Ec;
      [|done].
    cbn. intros [= <-].
    destruct (heap w !! p) as [o|] eqn:E.
    2:{ intros _. rewrite need_schedule_thread_not_live in Ec by done.
        injection Ec as <- <-. by apply quiet_emit. }
    destruct (decide (needed = false /\ (need_schedule_thread (priv o) <= 0)%Z))
      as [[-> Hn]|Hg].
    { intros _. rewrite (need_schedule_thread_underflow _ _ _ _ E Hn) in Ec.
      injection Ec as <- <-. by apply quiet_emit. }
    intros [Hd|?]; [|done].
    rewrite (need_schedule_thread_default _ _ _ _ _ E Hd) in Ec.
    2:{ destruct needed; [by left|right]. lia. }
    destruct Hwf as [Hobj _]. destruct (Hobj _ _ E) as (Hrc & _).
    rewrite (unref_ref _ _ _ E Hrc) in Ec. injection Ec as <- <-.
    apply quiet_refl.
  - intros [= <-] _. unfold gst_task_pool_get_schedule_context.
    destruct (heap w !! p) as [o|]; [|by apply quiet_emit].
    destruct (negb _); [by apply quiet_emit|].
    destruct (schedule_context _); [by apply quiet_emit|apply quiet_refl].
  - intros [= <-] _. apply quiet_get_default.
  - intros [= <-] _. unfold worker_event.
    destruct (heap w !! p) as [o|] eqn:E; [|apply quiet_refl].
    destruct (pool o) as [tp|] eqn:Ep; [|apply quiet_refl].
    destruct (worker_step e tp) as [[tp' evs]|] eqn:Es; [|apply quiet_refl].
    eapply quiet_trans; [by apply (quiet_store p (set_pool (Some tp')))|].
    apply quiet_emit. eapply worker_step_quiet; [|done].
    destruct Hwf as [Hobj _]. destruct (Hobj _ _ E) as (_ & _ & Hb).
    by destruct (Hb _ Ep).
Qed.

(** A call either leaves the schedule threads alone, or it is the body of
    [gst_task_pool_need_schedule_thread] run on one object. *)
Lemma run_op_cases op w w' :
  wf w -> run_op op w = Some w' ->
  quiet w w'
  \/ exists p needed o,
       heap w !! p = Some o
       /\ (needed = true \/ (0 < need_schedule_thread (priv o))%Z)
       /\ heap w' !! p = Some (need_schedule_thread_post needed (next_handle w) o)
       /\ (forall q, q <> p -> need_of w' q = need_of w q)
       /\ exists evs, trace w' = trace w ++ evs
            /\ sched_events evs
               = need_schedule_thread_calls needed (next_handle w) o.
Proof.
  intros Hwf Hr.
  destruct op as [| | | | | |p needed spawn| | |];
    try (left; by apply (run_op_quiet _ _ _ Hwf Hr)).
  destruct (heap w !! p) as [o|] eqn:E.
  2:{ left. apply (run_op_quiet _ _ _ Hwf Hr). by rewrite E. }
  destruct (decide (default_static w = Some p)) as [Hd|Hd].
  { left. apply (run_op_quiet _ _ _ Hwf Hr). rewrite E. by left. }
  destruct (decide (needed = false /\ (need_schedule_thread (priv o) <= 0)%Z))
    as [Hg|Hg].
  { left. apply (run_op_quiet _ _ _ Hwf Hr). rewrite E. by right. }
  assert (needed = true \/ (0 < need_schedule_thread (priv o))%Z) as Hg'.
  { destruct needed; [by left|right]. lia. }
  right. exists p, needed, o. cbn in Hr.
  destruct (gst_task_pool_need_schedule_thread p needed spawn w)
    as [[r w1]|] eqn:Ec; [|done].
  injection Hr as <-.
  destruct (need_schedule_thread_step _ _ _ _ _ _ _ E Hd Hg' Ec)
    as (_ & _ & Hp & Hq & Hev).
  done.
Qed.

(** X18.  Calls made one after the other, each returning before the next
    one begins.  In every world they reach, each pool has its schedule thread,
    its context and its loop exactly when its counter is positive.  For every
    call made from such a world: if the counter of a pool goes from 0 to 1,
    the call made one context, one loop on it and one thread, waited for the
    thread, and stored the three handles; if the counter of a pool goes from
    1 to 0, the call quit the loop, joined the thread and released loop and
    context of that pool; and a call during which no counter makes one of
    these two moves makes none of these calls.  Calls that overlap are in
    [Overlap]. *)
Theorem schedule_thread_exists_iff_needed ops w :
  run_ops ops empty_world = Some w ->
  (forall p o, heap w !! p = Some o ->
     (is_Some (schedule_thread (priv o)) <-> (0 < need_schedule_thread (priv o))%Z)
     /\ (is_Some (schedule_context (priv o))
         <-> (0 < need_schedule_thread (priv o))%Z)
     /\ (is_Some (schedule_loop (priv o))
         <-> (0 < need_schedule_thread (priv o))%Z))
  /\ (forall op w', run_op op w = Some w' ->
      (forall p, need_of w p = 0%Z -> need_of w' p = 1%Z ->
         exists c l t o',
           sched_events (emitted w w')
           = [EvContextNew c; EvLoopNew l (Some c); EvThreadNew t; EvCondWait]
           /\ heap w' !! p = Some o'
           /\ schedule_context (priv o') = Some c
           /\ schedule_loop (priv o') = Some l
           /\ schedule_thread (priv o') = Some t)
      /\ (forall p o, heap w !! p = Some o ->
            need_schedule_thread (priv o) = 1%Z -> need_of w' p = 0%Z ->
            sched_events (emitted w w')
            = [EvLoopQuit (schedule_loop (priv o));
               EvThreadJoin (schedule_thread (priv o));
               EvLoopUnref (schedule_loop (priv o));
               EvContextUnref (schedule_context (priv o))])
      /\ (sched_events (emitted w w') <> [] ->
            exists p, (need_of w p = 0%Z /\ need_of w' p = 1%Z)
                      \/ (need_of w p = 1%Z /\ need_of w' p = 0%Z))).
Proof.
  intros Hr. assert (wf w) as Hwf by (apply reachable_wf; by exists ops).
  split.
  { intros p o Ho. destruct Hwf as [Hobj _].
    destruct (Hobj _ _ Ho) as (_ & (_ & ? & ? & ?) & _). done. }
  intros op w' Hop.
  destruct (run_op_cases _ _ _ Hwf Hop)
    as [[Hn (evs & Ht & Hs)]
       |(p & needed & o & Ho & Hg & Hp & Hq & evs & Ht & Hs)];
    rewrite (emitted_app _ _ _ Ht), Hs.
  { split; [|split].
    - intros p H0 H1. rewrite Hn in H1. lia.
    - intros p o Ho H1 H0. rewrite Hn in H0. unfold need_of in H0.
      rewrite Ho in H0. lia.
    - done. }
  assert (need_of w p = need_schedule_thread (priv o)) as Hnp
    by (unfold need_of; by rewrite Ho).
  assert (need_of w' p
          = need_schedule_thread
              (priv (need_schedule_thread_post needed (next_handle w) o)))
    as Hnp' by (unfold need_of; by rewrite Hp).
  unfold need_schedule_thread_post, need_schedule_thread_calls in *.
  split; [|split].
  - intros q H0 H1. destruct (decide (q = p)) as [->|Hne].
    2:{ rewrite (Hq q Hne) in H1. lia. }
    rewrite Hnp in H0. rewrite Hnp' in H1. rewrite H0 in *.
    destruct needed; [|destruct Hg; [done|lia]].
    cbn in *. do 3 eexists. exists (with_need 1
        (with_schedule (Some (next_handle w)) (Some (Pos.succ (next_handle w)))
           (Some (Pos.succ (Pos.succ (next_handle w)))) o)).
    done.
  - intros q o' Ho' H1 H0. destruct (decide (q = p)) as [->|Hne].
    2:{ rewrite (Hq q Hne) in H0. unfold need_of in H0. rewrite Ho' in H0. lia. }
    assert (o' = o) as -> by congruence.
    rewrite Hnp' in H0. rewrite H1 in *.
    destruct needed; [cbn in H0; lia|]. done.
  - intros Hne. exists p. rewrite Hnp, Hnp'.
    destruct needed.
    + destruct (Z.eqb_spec (need_schedule_thread (priv o)) 0) as [e|ne];
        [left; by rewrite e|done].
    + destruct (Z.eqb_spec (need_schedule_thread (priv o) - 1) 0) as [e|ne];
        [right; cbn; lia|done].
Qed.

Lemma schedule_thread_exists_iff_needed_witness :
  let ops := [OpNew; OpNeedScheduleThread 1%positive true None] in
  exists w,
    run_ops ops empty_world = Some w
    /\ need_of w 1%positive = 1%Z
    /\ (forall p o, heap w !! p = Some o ->
          is_Some (schedule_thread (priv o))
          <-> (0 < need_schedule_thread (priv o))%Z).
Proof.
  cbv zeta.
  destruct (run_ops [OpNew; OpNeedScheduleThread 1%positive true None] empty_world)
    as [w|] eqn:E; [|vm_compute in E; discriminate].
  exists w. split; [reflexivity|]. split.
  - vm_compute in E. injection E as <-. vm_compute. reflexivity.
  - intros p o Ho.
    exact (proj1 (proj1 (schedule_thread_exists_iff_needed _ _ E) p o Ho)).
Defined.

(** ** The default pool *)

Lemma need_schedule_thread_static p needed spawn w r w' d :
  default_static w = Some d ->
  gst_task_pool_need_schedule_thread p needed spawn w = Some (r, w') ->
  default_static w' = Some d.
Proof.
  intros Hs. unfold gst_task_pool_need_schedule_thread.
  destruct (heap w !! p) as [o|]; [|by intros [= <- <-]].
  destruct (negb _); [by intros [= <- <-]|].
  rewrite (get_default_again _ _ _ Hs).
  destruct (decide (p = d)) as [->|Hne].
  - intros [= <- <-]. unfold gst_object_unref.
    destruct (heap _ !! d) as [o'|]; [|done].
    by destruct (_ =? 1)%Z.
  - destruct (heap (gst_object_ref d w) !! p) as [o1|]; [|by intros [= <- <-]].
    destruct needed.
    + destruct (_ =? G_MAXINT)%Z; [done|]. intros [= <- <-].
      destruct (_ =? 0)%Z; [|done]. by rewrite start_schedule_thread_spec.
    + intros [= <- <-]. by destruct (_ =? 0)%Z.
Qed.

(** Once set, the static of [gst_task_pool_get_default] never changes. *)
Lemma run_op_static op w w' d :
  default_static w = Some d -> run_op op w = Some w' ->
  default_static w' = Some d.
Proof.
  intros Hs. destruct op; cbn [run_op].
  - by intros [= <-].
  - by intros [= <-].
  - intros [= <-]. unfold gst_task_pool_prepare.
    destruct (heap w !! p) as [o|] eqn:E; [|done].
    cbn [prepare gst_task_pool_class_init]. unfold default_prepare. rewrite E.
    by destruct (g_thread_pool_new _ _ _ _ _ _) as [[? ?] ?].
  - unfold gst_task_pool_cleanup.
    destruct (heap w !! p) as [o|] eqn:E; [|by intros [= <-]].
    cbn [cleanup gst_task_pool_class_init]. unfold default_cleanup. rewrite E.
    destruct (pool o); [|by intros [= <-]].
    destruct (g_thread_pool_free _ _ _ _); [|done]. by intros [= <-].
  - intros [= <-]. unfold gst_task_pool_push.
    destruct (heap w !! p) as [o|] eqn:E; [|done].
    cbn [push gst_task_pool_class_init]. unfold default_push. rewrite E.
    destruct (pool o); [|done]. by destruct (g_thread_pool_push _ _ _ _).
  - intros [= <-]. unfold gst_task_pool_join. by destruct (heap w !! p).
  - destruct (gst_task_pool_need_schedule_thread _ _ _ _) as [[r w1]|] eqn:E;
      [|done].
    intros [= <-]. by eapply need_schedule_thread_static.
  - intros [= <-]. unfold gst_task_pool_get_schedule_context.
    destruct (heap w !! p) as [o|]; [|done]. destruct (negb _); [done|].
    by destruct (schedule_context _).
  - intros [= <-]. by rewrite (get_default_again _ _ _ Hs).
  - intros [= <-]. unfold worker_event.
    destruct (heap w !! p) as [o|]; [|done]. destruct (pool o); [|done].
    by destruct (worker_step _ _) as [[? ?]|].
Qed.

Lemma run_ops_static ops : forall w w' d,
  default_static w = Some d -> run_ops ops w = Some w' ->
  default_static w' = Some d.
Proof.
  induction ops as [|op ops IH]; intros w w' d Hs; cbn.
  - by intros [= <-].
  - destruct (run_op op w) as [w1|] eqn:E; [|done].
    apply IH. by eapply run_op_static.
Qed.

(** C9.  From any reachable world: the first access makes one object and
    prepares it once, any later access makes nothing; and whatever calls are
    made in between, a second access returns the address the first one
    returned, of an object that is still live, with one more reference on
    it. *)
Theorem get_default_returns_the_same_pool ops0 ops spawn1 spawn2 w p1 w1 w2 :
  run_ops ops0 empty_world = Some w ->
  gst_task_pool_get_default spawn1 w = (p1, w1) ->
  run_ops ops w1 = Some w2 ->
  fst (gst_task_pool_get_default spawn2 w2) = p1
  /\ emitted w2 (snd (gst_task_pool_get_default spawn2 w2)) = []
  /\ (exists o,
        heap w2 !! p1 = Some o
        /\ heap (snd (gst_task_pool_get_default spawn2 w2)) !! p1
           = Some (set_ref_count (ref_count o + 1) o))
  /\ (default_static w = None ->
        heap w !! p1 = None
        /\ emitted w w1 = [EvObjectNew p1; EvThreadPoolNew p1]
        /\ is_Some (backend_of w1 p1))
  /\ (is_Some (default_static w) ->
        default_static w = Some p1 /\ emitted w w1 = []).
Proof.
  intros Hr0 Hg Hr.
  destruct (get_default_spec _ _ _ _ Hg) as (Hs1 & _).
  pose proof (run_ops_static _ _ _ _ Hs1 Hr) as Hs2.
  rewrite (get_default_again _ _ _ Hs2). cbn [fst snd].
  assert (wf w2) as Hwf2.
  { eapply wf_run_ops; [|exact Hr].
    replace w1 with (snd (gst_task_pool_get_default spawn1 w)) by (by rewrite Hg).
    apply wf_get_default, reachable_wf. by exists ops0. }
  destruct Hwf2 as [_ Hdef]. destruct (Hdef _ Hs2) as (o & Ho & _).
  split; [done|]. split; [apply emitted_app; cbn; by rewrite app_nil_r|].
  split.
  { exists o. split; [done|]. unfold gst_object_ref.
    by rewrite store_lookup, Ho. }
  split.
  - intros Hs. rewrite (get_default_first _ _ Hs) in Hg.
    injection Hg as <- <-. split; [apply fresh_not_live|].
    split; [by apply emitted_app|].
    unfold backend_of. cbn. rewrite lookup_insert_eq. by eexists.
  - intros [d Hs]. rewrite (get_default_again _ _ _ Hs) in Hg.
    injection Hg as <- <-. split; [done|].
    apply emitted_app; cbn; by rewrite app_nil_r.
Qed.

Lemma get_default_returns_the_same_pool_witness :
  let ops0 := [OpNew] in
  let ops := [OpNewFull 2 false; OpNeedScheduleThread 1%positive true None] in
  exists w w1 w2,
    run_ops ops0 empty_world = Some w
    /\ gst_task_pool_get_default None w = (2%positive, w1)
    /\ run_ops ops w1 = Some w2
    /\ fst (gst_task_pool_get_default None w2) = 2%positive.
Proof.
  cbv zeta.
  destruct (run_ops [OpNew] empty_world) as [w|] eqn:E0;
    [|vm_compute in E0; discriminate].
  destruct (gst_task_pool_get_default None w) as [p1 w1] eqn:E1.
  assert (p1 = 2%positive) as Hp.
  { vm_compute in E0. injection E0 as <-. vm_compute in E1. congruence. }
  destruct (run_ops [OpNewFull 2 false; OpNeedScheduleThread 1%positive true None]
              w1) as [w2|] eqn:E2.
  2:{ vm_compute in E0. injection E0 as <-. vm_compute in E1.
      injection E1 as <- <-. vm_compute in E2. discriminate. }
  exists w, w1, w2. split; [reflexivity|]. split; [by rewrite <- Hp|].
  split; [exact E2|].
  rewrite <- Hp.
  exact (proj1 (get_default_returns_the_same_pool _ _ None None _ _ _ _ E0 E1 E2)).
Defined.

(** ** Draining the backend *)

Lemma invoked_app p evs1 evs2 :
  invoked p (evs1 ++ evs2) = invoked p evs1 ++ invoked p evs2.
Proof. apply omap_app. Qed.

Lemma completed_app p evs1 evs2 :
  completed p (evs1 ++ evs2) = completed p evs1 ++ completed p evs2.
Proof. apply omap_app. Qed.

Lemma worker_step_accounted p e tp tp' evs evs' jobs :
  tp_func tp = default_func -> tp_user_data tp = p ->
  worker_step e tp = Some (tp', evs') ->
  accounted p evs tp jobs -> accounted p (evs ++ evs') tp' jobs.
Proof.
  intros Hf Hu Hs [Hq Hr]. unfold accounted.
  rewrite invoked_app, completed_app. destruct e as [|i]; cbn in Hs.
  - destruct (tp_queue tp) as [|td q] eqn:Eq; [done|].
    destruct (can_start tp); [|done]. injection Hs as <- <-.
    rewrite Hf, Hu. cbn. rewrite decide_True by done. cbn. split.
    + rewrite <- Hq. rewrite <- app_assoc. done.
    + rewrite app_nil_r, app_assoc, Hr. done.
  - destruct (tp_running tp !! i) as [td|] eqn:Ei; [|done].
    injection Hs as <- <-. rewrite Hu. cbn. rewrite decide_True by done.
    cbn. rewrite app_nil_r. split; [done|].
    rewrite <- Hr. rewrite <- app_assoc. cbn.
    apply Permutation_app_head. symmetry. by apply delete_Permutation.
Qed.

Lemma wait_accounted p sched : forall tp tp' evs evs' jobs,
  tp_func tp = default_func -> tp_user_data tp = p ->
  g_thread_pool_wait sched tp = Some (tp', evs') ->
  accounted p evs tp jobs ->
  accounted p (evs ++ evs') tp' jobs /\ drained tp' = true.
Proof.
  induction sched as [|e sched IH]; intros tp tp' evs evs' jobs Hf Hu; cbn.
  - destruct (drained tp) eqn:Ed; [|done]. intros [= <- <-] Ha.
    by rewrite app_nil_r.
  - destruct (drained tp) eqn:Ed.
    { intros [= <- <-] Ha. by rewrite app_nil_r. }
    destruct (worker_step e tp) as [[tp1 evs1]|] eqn:Es; [|by apply IH].
    destruct (g_thread_pool_wait sched tp1) as [[tp2 evs2]|] eqn:Ew; [|done].
    intros [= <- <-] Ha. rewrite app_assoc.
    destruct (worker_step_keeps _ _ _ _ Es) as (Hf1 & Hu1 & _).
    eapply IH; [by rewrite Hf1|by rewrite Hu1|exact Ew|].
    by eapply worker_step_accounted.
Qed.

Lemma wait_can_end_aux n : forall tp,
  has_worker tp ->
  2 * length (tp_queue tp) + length (tp_running tp) <= n ->
  exists sched r, g_thread_pool_wait sched tp = Some r.
Proof.
  induction n as [|n IH]; intros tp Hw Hn.
  - exists [], (tp, []). cbn. unfold drained.
    destruct (tp_queue tp), (tp_running tp); cbn in *; done || lia.
  - destruct (tp_running tp) as [|r rs] eqn:Er.
    + destruct (tp_queue tp) as [|td q] eqn:Eq.
      { exists [], (tp, []). cbn. unfold drained. by rewrite Er, Eq. }
      assert (can_start tp = true) as Hc.
      { unfold can_start. rewrite Er. cbn. apply orb_true_iff.
        destruct Hw as [->|Hw]; [by left|right]. by apply Z.ltb_lt. }
      assert (drained tp = false) as Hd by (unfold drained; by rewrite Eq).
      assert (worker_step WStart tp
              = Some (tp_set_running (tp_running tp ++ [td]) (tp_set_queue q tp),
                      tp_func tp td (tp_user_data tp))) as Hs.
      { cbn. by rewrite Eq, Hc. }
      destruct (IH (tp_set_running (tp_running tp ++ [td]) (tp_set_queue q tp)))
        as (sched & [tp2 evs2] & Hres); [done|rewrite Er; cbn in *; lia|].
      exists (WStart :: sched). cbn [g_thread_pool_wait].
      rewrite Hd, Hs, Hres. by eexists.
    + assert (drained tp = false) as Hd.
      { unfold drained. rewrite Er. by destruct (tp_queue tp). }
      assert (worker_step (WFinish 0) tp
              = Some (tp_set_running (delete 0 (tp_running tp)) tp,
                      [EvDone (tp_user_data tp) r])) as Hs.
      { cbn. by rewrite Er. }
      destruct (IH (tp_set_running (delete 0 (tp_running tp)) tp))
        as (sched & [tp2 evs2] & Hres); [done|rewrite Er; cbn in *; lia|].
      exists (WFinish 0 :: sched). cbn [g_thread_pool_wait].
      rewrite Hd, Hs, Hres. by eexists.
Qed.

Lemma wait_can_end sched0 : forall tp,
  has_worker tp ->
  exists sched1 r, g_thread_pool_wait (sched0 ++ sched1) tp = Some r.
Proof.
  induction sched0 as [|e sched0 IH]; intros tp Hw.
  - by eapply wait_can_end_aux.
  - cbn. destruct (drained tp); [by exists [], (tp, [])|].
    destruct (worker_step e tp) as [[tp1 evs1]|] eqn:Es; [|by apply IH].
    destruct (IH tp1) as (sched1 & [tp2 evs2] & Hres).
    { destruct (worker_step_keeps _ _ _ _ Es) as (_ & _ & Hm).
      unfold has_worker. by rewrite Hm. }
    exists sched1. rewrite Hres. by eexists.
Qed.

Lemma serving_step p w1 w w' jobs a :
  serving p w1 w jobs ->
  run_op (activity_op p a) w = Some w' ->
  serving p w1 w' (jobs ++ pushed [a]).
Proof.
  intros (o & tp & evs & Ho & Hp & Hf & Hu & Hw & Ht & Hq & Hr).
  destruct a as [tdata error|e]; cbn [activity_op run_op pushed omap].
  - intros [= <-]. unfold gst_task_pool_push. rewrite Ho.
    cbn [push gst_task_pool_class_init]. unfold default_push. rewrite Ho, Hp.
    cbn [g_thread_pool_push snd].
    exists (set_pool (Some (tp_set_queue (tp_queue tp ++ [tdata]) tp)) o),
      (tp_set_queue (tp_queue tp ++ [tdata]) tp), evs.
    rewrite store_lookup, Ho.
    repeat split; try done. cbn.
    by rewrite app_assoc, Hq.
  - intros [= <-]. unfold worker_event. rewrite Ho, Hp. rewrite app_nil_r.
    destruct (worker_step e tp) as [[tp' evs']|] eqn:Es.
    + destruct (worker_step_keeps _ _ _ _ Es) as (Hf' & Hu' & Hm').
      exists (set_pool (Some tp') o), tp', (evs ++ evs').
      assert (heap (emit evs' (store p (set_pool (Some tp')) w)) !! p
              = Some (set_pool (Some tp') o)) as ->.
      { change (heap (store p (set_pool (Some tp')) w) !! p = Some (set_pool (Some tp') o)).
        by rewrite store_lookup, Ho. }
      destruct (worker_step_accounted p e tp tp' evs evs' jobs Hf Hu Es
                  (conj Hq Hr)) as [Hq' Hr'].
      repeat split; try congruence.
      * unfold has_worker. by rewrite Hm'.
      * cbn. by rewrite Ht, <- app_assoc.
    + by exists o, tp, evs.
Qed.

Lemma serving_run p w1 acts : forall w w' jobs,
  serving p w1 w jobs ->
  run_ops (map (activity_op p) acts) w = Some w' ->
  serving p w1 w' (jobs ++ pushed acts).
Proof.
  induction acts as [|a acts IH]; intros w w' jobs Hs; cbn [map run_ops].
  - intros [= <-]. by rewrite app_nil_r.
  - destruct (run_op (activity_op p a) w) as [wa|] eqn:Ea; [|done].
    intros Hr. pose proof (serving_step _ _ _ _ _ _ Hs Ea) as Hs'.
    pose proof (IH _ _ _ Hs' Hr) as Hs''.
    replace (pushed (a :: acts)) with (pushed [a] ++ pushed acts)
      by (by destruct a).
    by rewrite app_assoc.
Qed.

Lemma serving_after_prepare p o error w :
  heap w !! p = Some o ->
  (max_threads (priv o) = (-1)%Z /\ exclusive (priv o) = false)
  \/ (0 < max_threads (priv o))%Z ->
  let w1 := fst (gst_task_pool_prepare gst_task_pool_class_init p None error w) in
  serving p w1 w1 [].
Proof.
  intros Ho Hc w1. subst w1. unfold gst_task_pool_prepare. rewrite Ho.
  cbn [prepare gst_task_pool_class_init]. unfold default_prepare. rewrite Ho.
  unfold g_thread_pool_new.
  assert ((exclusive (priv o) && (max_threads (priv o) =? -1)%Z)
          || (max_threads (priv o) <? -1)%Z = false) as ->.
  { apply orb_false_iff. split.
    - destruct Hc as [[_ ->]|Hc]; [done|]. apply andb_false_iff. right.
      apply Z.eqb_neq. lia.
    - apply Z.ltb_ge. lia. }
  cbn [fst].
  set (tp := mkGThreadPool default_func p (max_threads (priv o))
               (exclusive (priv o)) [] []).
  exists (set_pool (Some tp) o), tp, [].
  split.
  { change (heap (store p (set_pool (Some tp)) w) !! p
            = Some (set_pool (Some tp) o)).
    by rewrite store_lookup, Ho. }
  repeat split; try done.
  - unfold has_worker. cbn. tauto.
  - by rewrite app_nil_r.
Qed.

Lemma serving_cleanup p w1 w2 jobs :
  serving p w1 w2 jobs ->
  (forall sched w3,
      gst_task_pool_cleanup gst_task_pool_class_init p sched w2 = Some w3 ->
      invoked p (emitted w1 w3) ≡ₚ jobs
      /\ completed p (emitted w1 w3) ≡ₚ jobs
      /\ backend_of w3 p = None)
  /\ (forall sched0, exists sched1 w3,
        gst_task_pool_cleanup gst_task_pool_class_init p (sched0 ++ sched1) w2
        = Some w3).
Proof.
  intros (o & tp & evs & Ho & Hp & Hf & Hu & Hw & Ht & Ha).
  assert (forall sched,
    gst_task_pool_cleanup gst_task_pool_class_init p sched w2
    = match g_thread_pool_wait sched tp with
      | Some (_, evs') => Some (store p (set_pool None) (emit evs' w2))
      | None => None
      end) as Hcl.
  { intros sched. unfold gst_task_pool_cleanup. rewrite Ho.
    cbn [cleanup gst_task_pool_class_init]. unfold default_cleanup.
    rewrite Ho, Hp. unfold g_thread_pool_free.
    assert ((tp_max_threads tp =? 0)%Z = false) as ->.
    { apply Z.eqb_neq. destruct Hw; lia. }
    cbn. by destruct (g_thread_pool_wait sched tp) as [[? ?]|]. }
  split.
  - intros sched w3. rewrite Hcl.
    destruct (g_thread_pool_wait sched tp) as [[tp' evs']|] eqn:Ew; [|done].
    intros [= <-].
    destruct (wait_accounted _ _ _ _ _ _ _ Hf Hu Ew Ha) as [[Hq Hr] Hd].
    unfold drained in Hd.
    destruct (tp_queue tp'); [|done]. destruct (tp_running tp'); [|done].
    rewrite !app_nil_r in *.
    rewrite (emitted_app w1 _ (evs ++ evs'))
      by (cbn; by rewrite Ht, app_assoc).
    split; [done|]. split; [by rewrite Hr|].
    unfold backend_of. rewrite store_lookup. cbn. by rewrite Ho.
  - intros sched0. destruct (wait_can_end sched0 tp Hw) as (sched1 & [tp' evs'] & Hres).
    exists sched1. rewrite Hcl, Hres. by eexists.
Qed.

(** X17.  A pool whose configuration allows a worker ([max_threads] is -1,
    or positive) is prepared; then jobs are pushed, all accepted by GLib,
    while the workers take and finish jobs in any order.  A job is a call
    that returns without calling into its own pool (for one that does, see
    [Teardown]).  Whenever
    [gst_task_pool_cleanup] returns after that, the jobs called since the
    preparation are the pushed jobs, each as often as it was pushed, all of
    these calls have returned, and the backend is gone.  And the call does
    return: whatever the workers have done while it waits, they can go on to
    a state in which it returns. *)
Theorem cleanup_runs_every_pushed_job w p o error acts w2 :
  heap w !! p = Some o ->
  (max_threads (priv o) = (-1)%Z /\ exclusive (priv o) = false)
  \/ (0 < max_threads (priv o))%Z ->
  let w1 := fst (gst_task_pool_prepare gst_task_pool_class_init p None error w) in
  run_ops (map (activity_op p) acts) w1 = Some w2 ->
  (forall sched w3,
      gst_task_pool_cleanup gst_task_pool_class_init p sched w2 = Some w3 ->
      invoked p (emitted w1 w3) ≡ₚ pushed acts
      /\ completed p (emitted w1 w3) ≡ₚ pushed acts
      /\ backend_of w3 p = None)
  /\ (forall sched0, exists sched1 w3,
        gst_task_pool_cleanup gst_task_pool_class_init p (sched0 ++ sched1) w2
        = Some w3).
Proof.
  intros Ho Hc w1 Hr.
  pose proof (serving_after_prepare p o error w Ho Hc) as Hs.
  pose proof (serving_run _ _ _ _ _ _ Hs Hr) as Hs2.
  apply (serving_cleanup _ _ _ _ Hs2).
Qed.

Lemma cleanup_runs_every_pushed_job_witness :
  let w := snd (gst_task_pool_new_full 2 false empty_world) in
  let o := set_priv (set_config 2 false (priv gst_task_pool_init))
             gst_task_pool_init in
  let j1 := mkTaskData 7 None in
  let j2 := mkTaskData 8 (Some 5%positive) in
  let acts := [Push j1 None; Push j2 (Some None); Work WStart] in
  let w1 := fst (gst_task_pool_prepare gst_task_pool_class_init 1%positive
                   None None w) in
  heap w !! 1%positive = Some o
  /\ ((max_threads (priv o) = (-1)%Z /\ exclusive (priv o) = false)
      \/ (0 < max_threads (priv o))%Z)
  /\ exists w2 w3,
       run_ops (map (activity_op 1%positive) acts) w1 = Some w2
       /\ gst_task_pool_cleanup gst_task_pool_class_init 1%positive
            [WStart; WFinish 1; WFinish 0] w2 = Some w3
       /\ invoked 1%positive (emitted w1 w3) ≡ₚ [j1; j2]
       /\ completed 1%positive (emitted w1 w3) ≡ₚ [j1; j2].
Proof.
  cbv zeta.
  set (w := snd (gst_task_pool_new_full 2 false empty_world)).
  set (o := set_priv (set_config 2 false (priv gst_task_pool_init))
              gst_task_pool_init).
  set (acts := [Push (mkTaskData 7 None) None;
                Push (mkTaskData 8 (Some 5%positive)) (Some None); Work WStart]).
  assert (heap w !! 1%positive = Some o) as H1 by (vm_compute; reflexivity).
  assert ((max_threads (priv o) = (-1)%Z /\ exclusive (priv o) = false)
          \/ (0 < max_threads (priv o))%Z) as H2 by (right; reflexivity).
  split; [exact H1|]. split; [exact H2|].
  destruct (run_ops (map (activity_op 1%positive) acts)
              (fst (gst_task_pool_prepare gst_task_pool_class_init 1%positive
                      None None w))) as [w2|] eqn:E2;
    [|vm_compute in E2; discriminate].
  destruct (gst_task_pool_cleanup gst_task_pool_class_init 1%positive
              [WStart; WFinish 1; WFinish 0] w2) as [w3|] eqn:E3.
  2:{ vm_compute in E2. injection E2 as <-. vm_compute in E3. discriminate. }
  exists w2, w3. split; [reflexivity|]. split; [exact E3|].
  destruct (proj1 (cleanup_runs_every_pushed_job w 1%positive o None acts w2
                     H1 H2 E2) _ _ E3) as (Hi & Hc & _).
  split; [exact Hi|exact Hc].
Defined.

Lemma frozen_after_prepare p o error w :
  heap w !! p = Some o ->
  max_threads (priv o) = 0%Z ->
  let w1 := fst (gst_task_pool_prepare gst_task_pool_class_init p None error w) in
  frozen p w1 w1 [].
Proof.
  intros Ho Hm w1. subst w1. unfold gst_task_pool_prepare. rewrite Ho.
  cbn [prepare gst_task_pool_class_init]. unfold default_prepare. rewrite Ho.
  unfold g_thread_pool_new. rewrite Hm.
  replace ((exclusive (priv o) && (0 =? -1)%Z) || (0 <? -1)%Z) with false
    by (by destruct (exclusive (priv o))).
  cbn [fst].
  set (tp := mkGThreadPool default_func p 0 (exclusive (priv o)) [] []).
  exists (set_pool (Some tp) o), tp.
  split; [|done].
  change (heap (store p (set_pool (Some tp)) w) !! p
          = Some (set_pool (Some tp) o)).
  by rewrite store_lookup, Ho.
Qed.

Lemma frozen_step p w1 w w' jobs a :
  frozen p w1 w jobs ->
  run_op (activity_op p a) w = Some w' ->
  frozen p w1 w' (jobs ++ pushed [a]).
Proof.
  intros (o & tp & Ho & Hp & Hm & Hq & Hr & Ht).
  destruct a as [tdata error|e]; cbn [activity_op run_op pushed omap].
  - intros [= <-]. unfold gst_task_pool_push. rewrite Ho.
    cbn [push gst_task_pool_class_init]. unfold default_push. rewrite Ho, Hp.
    cbn [g_thread_pool_push snd].
    exists (set_pool (Some (tp_set_queue (tp_queue tp ++ [tdata]) tp)) o),
      (tp_set_queue (tp_queue tp ++ [tdata]) tp).
    rewrite store_lookup, Ho.
    split_and!; try done. cbn. by rewrite Hq.
  - intros [= <-]. unfold worker_event. rewrite Ho, Hp. rewrite app_nil_r.
    assert (worker_step e tp = None) as ->.
    { destruct e as [|i]; cbn.
      - unfold can_start. rewrite Hm, Hr. cbn. by destruct (tp_queue tp).
      - by rewrite Hr. }
    by exists o, tp.
Qed.

Lemma frozen_run p w1 acts : forall w w' jobs,
  frozen p w1 w jobs ->
  run_ops (map (activity_op p) acts) w = Some w' ->
  frozen p w1 w' (jobs ++ pushed acts).
Proof.
  induction acts as [|a acts IH]; intros w w' jobs Hs; cbn [map run_ops].
  - intros [= <-]. by rewrite app_nil_r.
  - destruct (run_op (activity_op p a) w) as [wa|] eqn:Ea; [|done].
    intros Hr. pose proof (frozen_step _ _ _ _ _ _ Hs Ea) as Hs'.
    pose proof (IH _ _ _ Hs' Hr) as Hs''.
    replace (pushed (a :: acts)) with (pushed [a] ++ pushed acts)
      by (by destruct a).
    by rewrite app_assoc.
Qed.

(** C1.  [gst_task_pool_new_full] takes [max_threads = 0] as it is given, and
    GLib allows a pool with that bound no thread.  Such a pool is prepared;
    then jobs are pushed, all accepted by GLib without error, while the
    scheduler does what it likes.  The pushed jobs are all in the queue of
    the backend, and [gst_task_pool_cleanup] returns for every schedule with
    the backend gone and without a single job called since the preparation:
    GLib refuses to release a pool without threads whose queue is not empty,
    which [default_cleanup] does not notice. *)
Theorem zero_bound_cleanup_drops_the_queue w p o error acts w2 sched :
  heap w !! p = Some o ->
  max_threads (priv o) = 0%Z ->
  let w1 := fst (gst_task_pool_prepare gst_task_pool_class_init p None error w) in
  run_ops (map (activity_op p) acts) w1 = Some w2 ->
  exists tp w3,
    backend_of w2 p = Some tp /\ tp_queue tp = pushed acts
    /\ gst_task_pool_cleanup gst_task_pool_class_init p sched w2 = Some w3
    /\ emitted w1 w3 = (if bool_decide (pushed acts = []) then [] else [EvCritical])
    /\ invoked p (emitted w1 w3) = []
    /\ backend_of w3 p = None.
Proof.
  intros Ho Hm w1 Hr.
  pose proof (frozen_after_prepare p o error w Ho Hm) as Hs.
  destruct (frozen_run _ _ _ _ _ _ Hs Hr) as (o2 & tp & Ho2 & Hp & Hm2 & Hq & Hrn & Ht).
  cbn [app] in Hq. fold w1 in Ht.
  assert (exists evs,
    gst_task_pool_cleanup gst_task_pool_class_init p sched w2
    = Some (store p (set_pool None) (emit evs w2))
    /\ evs = if bool_decide (pushed acts = []) then [] else [EvCritical])
    as (evs & Hc & Hevs).
  { unfold gst_task_pool_cleanup. rewrite Ho2.
    cbn [cleanup gst_task_pool_class_init]. unfold default_cleanup.
    rewrite Ho2, Hp. unfold g_thread_pool_free. rewrite Hm2, Hq. cbn.
    case_bool_decide as Hd; cbn.
    - assert (g_thread_pool_wait sched tp = Some (tp, [])) as ->.
      { destruct sched; cbn; unfold drained; by rewrite Hq, Hrn, Hd. }
      cbn. by eexists.
    - by eexists. }
  exists tp, (store p (set_pool None) (emit evs w2)).
  assert (emitted w1 (store p (set_pool None) (emit evs w2)) = evs) as He.
  { apply emitted_app. cbn. by rewrite Ht. }
  split_and!.
  - unfold backend_of. by rewrite Ho2.
  - done.
  - done.
  - by rewrite He.
  - rewrite He, Hevs. by case_bool_decide.
  - unfold backend_of. rewrite store_lookup. cbn. by rewrite Ho2.
Qed.

Lemma zero_bound_cleanup_drops_the_queue_witness :
  let w := snd (gst_task_pool_new_full 0 false empty_world) in
  let o := set_priv (set_config 0 false (priv gst_task_pool_init))
             gst_task_pool_init in
  let j := mkTaskData 7 None in
  let acts := [Push j (Some None); Work WStart] in
  let w1 := fst (gst_task_pool_prepare gst_task_pool_class_init 1%positive
                   None None w) in
  heap w !! 1%positive = Some o
  /\ max_threads (priv o) = 0%Z
  /\ exists w2 w3,
       run_ops (map (activity_op 1%positive) acts) w1 = Some w2
       /\ gst_task_pool_cleanup gst_task_pool_class_init 1%positive
            [WStart; WFinish 0] w2 = Some w3
       /\ pushed acts = [j]
       /\ invoked 1%positive (emitted w1 w3) = []
       /\ backend_of w3 1%positive = None.
Proof.
  cbv zeta.
  set (w := snd (gst_task_pool_new_full 0 false empty_world)).
  set (o := set_priv (set_config 0 false (priv gst_task_pool_init))
              gst_task_pool_init).
  set (acts := [Push (mkTaskData 7 None) (Some None); Work WStart]).
  assert (heap w !! 1%positive = Some o) as H1 by (vm_compute; reflexivity).
  assert (max_threads (priv o) = 0%Z) as H2 by reflexivity.
  split; [exact H1|]. split; [exact H2|].
  destruct (run_ops (map (activity_op 1%positive) acts)
              (fst (gst_task_pool_prepare gst_task_pool_class_init 1%positive
                      None None w))) as [w2|] eqn:E2;
    [|vm_compute in E2; discriminate].
  destruct (zero_bound_cleanup_drops_the_queue w 1%positive o None acts w2
              [WStart; WFinish 0] H1 H2 E2)
    as (tp & w3 & _ & _ & Hc & _ & Hi & Hb).
  exists w2, w3. split; [reflexivity|]. split; [exact Hc|].
  split; [reflexivity|]. split; [exact Hi|exact Hb].
Defined.

(** ** What a call leaves alone *)

Lemma get_default_object spawn w d w1 q o :
  gst_task_pool_get_default spawn w = (d, w1) ->
  heap w !! q = Some o ->
  exists o',
    heap w1 !! q = Some o'
    /\ pool o' = pool o /\ priv o' = priv o
    /\ (ref_count o' = ref_count o
        \/ (q = d /\ ref_count o' = (ref_count o + 1)%Z)).
Proof.
  intros Hg Ho. destruct (default_static w) as [d0|] eqn:Hs.
  - rewrite (get_default_again _ _ _ Hs) in Hg. injection Hg as <- <-.
    unfold gst_object_ref. destruct (decide (d0 = q)) as [->|Hne].
    + rewrite store_lookup, Ho. eexists. split; [done|]. cbn. auto.
    + rewrite store_lookup_ne by done. exists o. auto.
  - rewrite (get_default_first _ _ Hs) in Hg. injection Hg as <- <-. cbn.
    rewrite lookup_insert_ne.
    + exists o. auto.
    + intros E. rewrite <- E, fresh_not_live in Ho. done.
Qed.

(** One call, seen from one live object. *)
Lemma run_op_object op w w' q o :
  wf w -> run_op op w = Some w' -> heap w !! q = Some o ->
  exists o',
    heap w' !! q = Some o'
    /\ (ref_count o <= ref_count o')%Z
    /\ (ref_count o' = ref_count o \/ default_static w' = Some q)
    /\ max_threads (priv o') = max_threads (priv o)
    /\ exclusive (priv o') = exclusive (priv o)
    /\ (touches_backend op q = false -> pool o' = pool o)
    /\ (touches_schedule op q = false -> priv o' = priv o).
Proof.
  intros Hwf Hr Ho.
  assert (forall p b w0,
    heap w0 !! q = Some o ->
    (p = q -> touches_backend op q = true) ->
    exists o',
      heap (store p (set_pool b) w0) !! q = Some o'
      /\ ref_count o' = ref_count o
      /\ priv o' = priv o
      /\ (touches_backend op q = false -> pool o' = pool o)) as Hstore.
  { intros p b w0 Ho0 Hf. destruct (decide (p = q)) as [->|Hne].
    - rewrite store_lookup, Ho0. exists (set_pool b o).
      rewrite (Hf eq_refl). done.
    - rewrite store_lookup_ne by done. by exists o. }
  pose (same := fun h : gmap addr GstTaskPool => h !! q = Some o).
  assert (forall w0, same (heap w0) ->
    exists o',
      heap w0 !! q = Some o'
      /\ (ref_count o <= ref_count o')%Z
      /\ (ref_count o' = ref_count o \/ default_static w0 = Some q)
      /\ max_threads (priv o') = max_threads (priv o)
      /\ exclusive (priv o') = exclusive (priv o)
      /\ (touches_backend op q = false -> pool o' = pool o)
      /\ (touches_schedule op q = false -> priv o' = priv o)) as Hsame.
  { intros w0 H0. exists o. repeat split; auto; lia. }
  assert (forall w0,
    (exists o',
      heap w0 !! q = Some o'
      /\ ref_count o' = ref_count o
      /\ priv o' = priv o
      /\ (touches_backend op q = false -> pool o' = pool o)) ->
    exists o',
      heap w0 !! q = Some o'
      /\ (ref_count o <= ref_count o')%Z
      /\ (ref_count o' = ref_count o \/ default_static w0 = Some q)
      /\ max_threads (priv o') = max_threads (priv o)
      /\ exclusive (priv o') = exclusive (priv o)
      /\ (touches_backend op q = false -> pool o' = pool o)
      /\ (touches_schedule op q = false -> priv o' = priv o)) as Hback.
  { intros w0 (o' & Ho' & Hrc & Hpr & Hpo). exists o'. rewrite Hrc, Hpr.
    repeat split; auto; lia. }
  assert (fresh (dom (heap w)) <> q) as Hfresh.
  { intros E. rewrite <- E, fresh_not_live in Ho. done. }
  destruct op; cbn [run_op] in Hr.
  - injection Hr as <-. apply Hsame. unfold same. cbn.
    by rewrite lookup_insert_ne.
  - injection Hr as <-. apply Hsame. unfold same, gst_task_pool_new_full.
    cbn. by rewrite lookup_alter_ne, lookup_insert_ne.
  - injection Hr as <-. unfold gst_task_pool_prepare.
    destruct (heap w !! p) as [op'|] eqn:E; [|by apply Hsame].
    cbn [prepare gst_task_pool_class_init]. unfold default_prepare. rewrite E.
    destruct (g_thread_pool_new _ _ _ _ _ _) as [[tp e'] evs]. cbn [fst].
    apply Hback. apply (Hstore p tp w Ho). intros ->. cbn.
    by rewrite bool_decide_eq_true_2.
  - unfold gst_task_pool_cleanup in Hr.
    destruct (heap w !! p) as [op'|] eqn:E;
      [|injection Hr as <-; by apply Hsame].
    cbn [cleanup gst_task_pool_class_init] in Hr. unfold default_cleanup in Hr.
    rewrite E in Hr.
    destruct (pool op'); [|injection Hr as <-; by apply Hsame].
    destruct (g_thread_pool_free _ _ _ _) as [evs|]; [|done].
    injection Hr as <-.
    apply Hback. apply (Hstore p None (emit evs w) Ho). intros ->. cbn.
    by rewrite bool_decide_eq_true_2.
  - injection Hr as <-. unfold gst_task_pool_push.
    destruct (heap w !! p) as [op'|] eqn:E; [|by apply Hsame].
    cbn [push gst_task_pool_class_init]. unfold default_push. rewrite E.
    destruct (pool op'); [|by apply Hsame].
    destruct (g_thread_pool_push _ _ _ _) as [tp' e']. cbn [snd].
    apply Hback. apply (Hstore p (Some tp') w Ho). intros ->. cbn.
    by rewrite bool_decide_eq_true_2.
  - injection Hr as <-. unfold gst_task_pool_join.
    destruct (heap w !! p); by apply Hsame.
  - destruct (gst_task_pool_need_schedule_thread p needed spawn w)
      as [[r w1]|] eqn:Ec; [|done].
    injection Hr as <-.
    destruct (heap w !! p) as [op'|] eqn:E.
    2:{ rewrite need_schedule_thread_not_live in Ec by done.
        injection Ec as <- <-. by apply Hsame. }
    destruct (decide (needed = false
                      /\ (need_schedule_thread (priv op') <= 0)%Z))
      as [[-> Hn]|Hg].
    { rewrite (need_schedule_thread_underflow _ _ _ _ E Hn) in Ec.
      injection Ec as <- <-. by apply Hsame. }
    assert (needed = true \/ (0 < need_schedule_thread (priv op'))%Z) as Hg'.
    { destruct needed; [by left|right]. lia. }
    destruct (decide (default_static w = Some p)) as [Hd|Hd].
    { rewrite (need_schedule_thread_default _ _ _ _ _ E Hd Hg') in Ec.
      destruct Hwf as [Hobj _]. destruct (Hobj _ _ E) as (Hrc & _).
      rewrite (unref_ref _ _ _ E Hrc) in Ec. injection Ec as <- <-.
      by apply Hsame. }
    pose proof (need_schedule_thread_other p needed spawn w op' E Hd Hg') as H.
    destruct (gst_task_pool_get_default spawn w) as [d w0] eqn:Hgd.
    destruct H as (Hne & E0 & Heq). rewrite Heq in Ec.
    destruct (need_schedule_thread_locked_spec _ _ _ _ _ _ E0 Ec)
      as (_ & Hs & Hp & Hq & _).
    destruct (get_default_spec _ _ _ _ Hgd) as (Hs0 & _).
    cbn [snd].
    destruct (decide (q = p)) as [->|Hqp].
    + assert (op' = o) as -> by congruence. rewrite Hp. eexists.
      split; [done|]. unfold need_schedule_thread_post.
      cbn. rewrite bool_decide_eq_true_2 by done.
      destruct needed;
        [destruct (_ =? 0)%Z|destruct (_ - 1 =? 0)%Z]; cbn;
        repeat split; auto; try lia; done.
    + rewrite (Hq q Hqp).
      destruct (get_default_object _ _ _ _ _ _ Hgd Ho)
        as (o' & Ho' & Hpo & Hpr & Hrc).
      exists o'. split; [done|]. rewrite Hpo, Hpr.
      destruct Hrc as [->|[-> ->]]; repeat split; auto; try lia.
      right. congruence.
  - injection Hr as <-. unfold gst_task_pool_get_schedule_context.
    destruct (heap w !! p) as [op'|]; [|by apply Hsame].
    destruct (negb _); [by apply Hsame|].
    destruct (schedule_context _); by apply Hsame.
  - injection Hr as <-.
    destruct (gst_task_pool_get_default spawn w) as [d w0] eqn:Hgd.
    destruct (get_default_object _ _ _ _ _ _ Hgd Ho)
      as (o' & Ho' & Hpo & Hpr & Hrc).
    destruct (get_default_spec _ _ _ _ Hgd) as (Hs0 & _).
    exists o'. cbn. split; [done|]. rewrite Hpo, Hpr.
    destruct Hrc as [->|[-> ->]]; repeat split; auto; lia.
  - injection Hr as <-. unfold worker_event.
    destruct (heap w !! p) as [op'|] eqn:E; [|by apply Hsame].
    destruct (pool op'); [|by apply Hsame].
    destruct (worker_step e g) as [[tp' evs]|]; [|by apply Hsame].
    apply Hback. apply (Hstore p (Some tp') w Ho). intros ->. cbn.
    by rewrite bool_decide_eq_true_2.
Qed.

Lemma run_ops_object ops : forall w w' q o,
  wf w -> run_ops ops w = Some w' -> heap w !! q = Some o ->
  exists o',
    heap w' !! q = Some o'
    /\ (ref_count o <= ref_count o')%Z
    /\ (ref_count o' = ref_count o \/ default_static w' = Some q)
    /\ max_threads (priv o') = max_threads (priv o)
    /\ exclusive (priv o') = exclusive (priv o).
Proof.
  induction ops as [|op ops IH]; intros w w' q o Hwf; cbn.
  - intros [= <-] Ho. exists o. repeat split; auto; lia.
  - destruct (run_op op w) as [w1|] eqn:E; [|done]. intros Hr Ho.
    destruct (run_op_object _ _ _ _ _ Hwf E Ho)
      as (o1 & Ho1 & Hrc1 & Hd1 & Hm1 & Hx1 & _).
    destruct (IH _ _ _ _ (wf_run_op _ _ _ Hwf E) Hr Ho1)
      as (o' & Ho' & Hrc & Hd & Hm & Hx).
    exists o'. split; [done|]. split; [lia|].
    split; [|split; congruence].
    destruct Hd as [Hd|Hd]; [|by right].
    destruct Hd1 as [Hd1|Hd1]; [left; congruence|right].
    by apply (run_ops_static _ _ _ _ Hd1 Hr).
Qed.

(** X1.  From a reachable world, no sequence of calls finalizes a pool or
    lowers its reference count, and only the default pool's count can grow;
    [max_threads] and [exclusive] stay what they were. *)
Theorem pools_stay_live_and_keep_their_configuration ops0 ops w w' q o :
  run_ops ops0 empty_world = Some w ->
  run_ops ops w = Some w' ->
  heap w !! q = Some o ->
  exists o',
    heap w' !! q = Some o'
    /\ (ref_count o <= ref_count o')%Z
    /\ (ref_count o' = ref_count o \/ default_static w' = Some q)
    /\ max_threads (priv o') = max_threads (priv o)
    /\ exclusive (priv o') = exclusive (priv o).
Proof.
  intros Hr0. apply run_ops_object. apply reachable_wf. by exists ops0.
Qed.

Lemma pools_stay_live_and_keep_their_configuration_witness :
  let ops0 := [OpNewFull 2 true] in
  let ops := [OpNeedScheduleThread 1%positive true None;
              OpPrepare 1%positive None None;
              OpCleanup 1%positive []] in
  exists w w' o o',
    run_ops ops0 empty_world = Some w
    /\ run_ops ops w = Some w'
    /\ heap w !! 1%positive = Some o
    /\ heap w' !! 1%positive = Some o'
    /\ max_threads (priv o') = max_threads (priv o).
Proof.
  cbv zeta.
  destruct (run_ops [OpNewFull 2 true] empty_world) as [w|] eqn:E0;
    [|vm_compute in E0; discriminate].
  destruct (run_ops [OpNeedScheduleThread 1%positive true None;
                     OpPrepare 1%positive None None;
                     OpCleanup 1%positive []] w) as [w'|] eqn:E1.
  2:{ vm_compute in E0. injection E0 as <-. vm_compute in E1. discriminate. }
  destruct (heap w !! 1%positive) as [o|] eqn:Eo.
  2:{ vm_compute in E0. injection E0 as <-. vm_compute in Eo. discriminate. }
  destruct (pools_stay_live_and_keep_their_configuration _ _ _ _ _ _ E0 E1 Eo)
    as (o' & Ho' & _ & _ & Hm & _).
  exists w, w', o, o'. repeat split; done.
Defined.

(** X2.  From a reachable world, one call changes the backend of a pool only
    if it is a prepare, cleanup or push on that pool or a move of one of its
    workers, and changes its private structure (counter, handles,
    configuration) only if it is [gst_task_pool_need_schedule_thread] on
    that pool. *)
Theorem calls_touch_only_their_own_pool ops0 op w w' q o :
  run_ops ops0 empty_world = Some w ->
  run_op op w = Some w' ->
  heap w !! q = Some o ->
  exists o',
    heap w' !! q = Some o'
    /\ (touches_backend op q = false -> pool o' = pool o)
    /\ (touches_schedule op q = false -> priv o' = priv o).
Proof.
  intros Hr0 Hr Ho.
  assert (wf w) as Hwf by (apply reachable_wf; by exists ops0).
  destruct (run_op_object _ _ _ _ _ Hwf Hr Ho)
    as (o' & Ho' & _ & _ & _ & _ & Hb & Hs).
  by exists o'.
Qed.

Lemma calls_touch_only_their_own_pool_witness :
  let ops0 := [OpNew; OpPrepare 1%positive None None;
               OpPush 1%positive (mkTaskData 7 None) None None; OpNew] in
  let op := OpNeedScheduleThread 2%positive true None in
  exists w w' o o',
    run_ops ops0 empty_world = Some w
    /\ run_op op w = Some w'
    /\ heap w !! 1%positive = Some o
    /\ heap w' !! 1%positive = Some o'
    /\ pool o' = pool o /\ priv o' = priv o.
Proof.
  cbv zeta.
  destruct (run_ops [OpNew; OpPrepare 1%positive None None;
                     OpPush 1%positive (mkTaskData 7 None) None None; OpNew]
              empty_world) as [w|] eqn:E0;
    [|vm_compute in E0; discriminate].
  destruct (run_op (OpNeedScheduleThread 2%positive true None) w)
    as [w'|] eqn:E1.
  2:{ vm_compute in E0. injection E0 as <-. vm_compute in E1. discriminate. }
  destruct (heap w !! 1%positive) as [o|] eqn:Eo.
  2:{ vm_compute in E0. injection E0 as <-. vm_compute in Eo. discriminate. }
  destruct (calls_touch_only_their_own_pool _ _ _ _ 1%positive _ E0 E1 Eo)
    as (o' & Ho' & Hb & Hs).
  exists w, w', o, o'. repeat split; try done.
  - by apply Hb.
  - by apply Hs.
Defined.



(** ** Handing out the context *)



(** A call either leaves the private structure of [p] alone, or it is the
    body of [gst_task_pool_need_schedule_thread] run on [p]. *)
Lemma run_op_priv op w w' p o :
  wf w -> run_op op w = Some w' -> heap w !! p = Some o ->
  exists o',
    heap w' !! p = Some o'
    /\ (priv o' = priv o
        \/ exists needed,
             (needed = true \/ (0 < need_schedule_thread (priv o))%Z)
             /\ o' = need_schedule_thread_post needed (next_handle w) o).
Proof.
  intros Hwf Hr Ho.
  destruct (run_op_object _ _ _ _ _ Hwf Hr Ho)
    as (o' & Ho' & _ & _ & _ & _ & _ & Hs).
  destruct (touches_schedule op p) eqn:Et.
  2:{ exists o'. split; [done|]. left. by apply Hs. }
  destruct op; try discriminate. cbn in Et.
  apply bool_decide_eq_true_1 in Et. subst p0.
  cbn in Hr.
  destruct (gst_task_pool_need_schedule_thread p needed spawn w)
    as [[r w1]|] eqn:Ec; [|done].
  injection Hr as <-.
  destruct (decide (needed = false
                    /\ (need_schedule_thread (priv o) <= 0)%Z))
    as [[-> Hn]|Hg].
  { rewrite (need_schedule_thread_underflow _ _ _ _ Ho Hn) in Ec.
    injection Ec as <- <-. exists o. split; [done|by left]. }
  assert (needed = true \/ (0 < need_schedule_thread (priv o))%Z) as Hg'.
  { destruct needed; [by left|right]. lia. }
  destruct (decide (default_static w = Some p)) as [Hd|Hd].
  { rewrite (need_schedule_thread_default _ _ _ _ _ Ho Hd Hg') in Ec.
    destruct Hwf as [Hobj _]. destruct (Hobj _ _ Ho) as (Hrc & _).
    rewrite (unref_ref _ _ _ Ho Hrc) in Ec. injection Ec as <- <-.
    exists o. split; [done|by left]. }
  destruct (need_schedule_thread_step _ _ _ _ _ _ _ Ho Hd Hg' Ec)
    as (_ & _ & Hp & _).
  eexists. split; [exact Hp|]. right. by exists needed.
Qed.

Lemma run_op_handles op w w' p o :
  wf w -> run_op op w = Some w' -> heap w !! p = Some o ->
  (0 < need_schedule_thread (priv o))%Z -> (0 < need_of w' p)%Z ->
  exists o',
    heap w' !! p = Some o'
    /\ schedule_context (priv o') = schedule_context (priv o)
    /\ schedule_loop (priv o') = schedule_loop (priv o)
    /\ schedule_thread (priv o') = schedule_thread (priv o).
Proof.
  intros Hwf Hr Ho Hn Hn'.
  destruct (run_op_priv _ _ _ _ _ Hwf Hr Ho) as (o' & Ho' & Hp).
  exists o'. split; [done|].
  destruct Hp as [->|(needed & _ & ->)]; [done|].
  unfold need_of in Hn'. rewrite Ho' in Hn'.
  unfold need_schedule_thread_post in *.
  destruct needed.
  - destruct (Z.eqb_spec (need_schedule_thread (priv o)) 0); [lia|done].
  - destruct (Z.eqb_spec (need_schedule_thread (priv o) - 1) 0);
      [cbn in Hn'; lia|done].
Qed.

(** X5.  From a reachable world, along any sequence of calls during which
    the counter of a pool stays positive, the pool keeps its context, its
    loop and its thread: [gst_task_pool_get_schedule_context] returns at the
    end the context it returned at the start. *)
Theorem context_is_stable_while_enabled ops0 ops w w' p :
  run_ops ops0 empty_world = Some w ->
  run_ops ops w = Some w' ->
  (forall v, v ∈ visited ops w -> (0 < need_of v p)%Z) ->
  (exists o o',
     heap w !! p = Some o /\ heap w' !! p = Some o'
     /\ schedule_context (priv o') = schedule_context (priv o)
     /\ schedule_loop (priv o') = schedule_loop (priv o)
     /\ schedule_thread (priv o') = schedule_thread (priv o))
  /\ fst (gst_task_pool_get_schedule_context p w')
     = fst (gst_task_pool_get_schedule_context p w)
  /\ is_Some (fst (gst_task_pool_get_schedule_context p w)).
Proof.
  intros Hr0 Hr Hv.
  assert (wf w) as Hwf by (apply reachable_wf; by exists ops0).
  assert (exists o o',
     heap w !! p = Some o /\ heap w' !! p = Some o'
     /\ (0 < need_schedule_thread (priv o'))%Z
     /\ schedule_context (priv o') = schedule_context (priv o)
     /\ schedule_loop (priv o') = schedule_loop (priv o)
     /\ schedule_thread (priv o') = schedule_thread (priv o))
    as (o & o' & Ho & Ho' & Hn' & Hc & Hl & Ht).
  { clear Hr0. revert w w' Hwf Hr Hv.
    induction ops as [|op ops IH]; intros w w' Hwf Hr Hv.
    - cbn in Hr. injection Hr as <-.
      assert (0 < need_of w p)%Z as Hn by (apply Hv; cbn; by left).
      unfold need_of in Hn. destruct (heap w !! p) as [o|] eqn:Ho; [|lia].
      by exists o, o.
    - cbn in Hr, Hv. destruct (run_op op w) as [w1|] eqn:E; [|done].
      assert (0 < need_of w p)%Z as Hn by (apply Hv; by left).
      assert (forall v, v ∈ visited ops w1 -> (0 < need_of v p)%Z) as Hv1.
      { intros v Hin. apply Hv. by right. }
      destruct (IH _ _ (wf_run_op _ _ _ Hwf E) Hr Hv1)
        as (o1 & o' & Ho1 & Ho' & Hn' & Hc & Hl & Ht).
      unfold need_of in Hn. destruct (heap w !! p) as [o|] eqn:Ho; [|lia].
      assert (0 < need_of w1 p)%Z as Hn1.
      { apply Hv1. destruct ops; cbn; [by left|].
        destruct (run_op _ _); by left. }
      destruct (run_op_handles _ _ _ _ _ Hwf E Ho Hn Hn1)
        as (o1' & Ho1' & Hc1 & Hl1 & Ht1).
      assert (o1' = o1) as -> by congruence.
      exists o, o'. repeat split; try done; congruence. }
  assert (0 < need_schedule_thread (priv o))%Z as Hn.
  { assert (0 < need_of w p)%Z as H.
    { apply Hv. destruct ops; cbn; [by left|]. destruct (run_op _ _); by left. }
    unfold need_of in H. by rewrite Ho in H. }
  split; [by exists o, o'|].
  rewrite (get_schedule_context_live _ _ _ Ho' Hn').
  rewrite (get_schedule_context_live _ _ _ Ho Hn).
  split; [done|].
  destruct Hwf as [Hobj _]. destruct (Hobj _ _ Ho) as (_ & (_ & _ & Hcx & _) & _).
  by apply Hcx.
Qed.

Lemma context_is_stable_while_enabled_witness :
  let ops0 := [OpNew; OpNeedScheduleThread 1%positive true None] in
  let ops := [OpNeedScheduleThread 1%positive true None;
              OpPrepare 1%positive None None;
              OpNeedScheduleThread 1%positive false None] in
  exists w w',
    run_ops ops0 empty_world = Some w
    /\ run_ops ops w = Some w'
    /\ (forall v, v ∈ visited ops w -> (0 < need_of v 1%positive)%Z)
    /\ fst (gst_task_pool_get_schedule_context 1%positive w')
       = fst (gst_task_pool_get_schedule_context 1%positive w).
Proof.
  cbv zeta.
  destruct (run_ops [OpNew; OpNeedScheduleThread 1%positive true None]
              empty_world) as [w|] eqn:E0; [|vm_compute in E0; discriminate].
  destruct (run_ops [OpNeedScheduleThread 1%positive true None;
                     OpPrepare 1%positive None None;
                     OpNeedScheduleThread 1%positive false None] w)
    as [w'|] eqn:E1.
  2:{ vm_compute in E0. injection E0 as <-. vm_compute in E1. discriminate. }
  assert (forall v,
    v ∈ visited [OpNeedScheduleThread 1%positive true None;
                 OpPrepare 1%positive None None;
                 OpNeedScheduleThread 1%positive false None] w ->
    (0 < need_of v 1%positive)%Z) as Hv.
  { vm_compute in E0. injection E0 as <-. intros v Hin.
    vm_compute in Hin.
    repeat (apply elem_of_cons in Hin as [->|Hin]; [vm_compute; reflexivity|]).
    by apply elem_of_nil in Hin. }
  exists w, w'. split; [done|]. split; [done|]. split; [exact Hv|].
  exact (proj1 (proj2 (context_is_stable_while_enabled _ _ _ _ _ E0 E1 Hv))).
Defined.

(** ** The reference taken for the comparison with the default pool *)

(** X6.  A call of [gst_task_pool_need_schedule_thread] that passes the two
    guards on a pool other than the default pool leaves one more reference
    on the default pool: the one [gst_task_pool_get_default] returned for the
    comparison is not given back.  When there was no default pool yet, the
    call has made and prepared it. *)
Theorem need_schedule_thread_keeps_a_reference ops p needed spawn w o r w' :
  run_ops ops empty_world = Some w ->
  heap w !! p = Some o ->
  default_static w <> Some p ->
  needed = true \/ (0 < need_schedule_thread (priv o))%Z ->
  gst_task_pool_need_schedule_thread p needed spawn w = Some (r, w') ->
  match default_static w with
  | Some d =>
      default_static w' = Some d
      /\ exists od,
           heap w !! d = Some od
           /\ heap w' !! d = Some (set_ref_count (ref_count od + 1) od)
  | None =>
      exists d,
        default_static w' = Some d
        /\ heap w !! d = None
        /\ heap w' !! d = Some (default_pool_object d)
  end.
Proof.
  intros Hr Ho Hd Hg Hc.
  assert (wf w) as Hwf by (apply reachable_wf; by exists ops).
  pose proof (need_schedule_thread_other p needed spawn w o Ho Hd Hg) as H.
  destruct (gst_task_pool_get_default spawn w) as [d w1] eqn:Hgd.
  destruct H as (Hne & Ho1 & Heq). rewrite Heq in Hc.
  destruct (need_schedule_thread_locked_spec _ _ _ _ _ _ Ho1 Hc)
    as (_ & Hs & _ & Hq & _).
  assert (d <> p) as Hne' by congruence.
  destruct (default_static w) as [d0|] eqn:Hs0.
  - rewrite (get_default_again _ _ _ Hs0) in Hgd. injection Hgd as <- <-.
    split; [rewrite Hs; exact Hs0|].
    destruct Hwf as [_ Hdef]. destruct (Hdef _ Hs0) as (od & Hod & _).
    exists od. split; [done|]. rewrite (Hq _ Hne').
    unfold gst_object_ref. by rewrite store_lookup, Hod.
  - rewrite (get_default_first _ _ Hs0) in Hgd. injection Hgd as <- <-.
    eexists. split; [by rewrite Hs|]. split; [apply fresh_not_live|].
    rewrite (Hq _ Hne'). cbn. by rewrite lookup_insert_eq.
Qed.

Lemma need_schedule_thread_keeps_a_reference_witness :
  let ops := [OpNew] in
  exists w o w',
    run_ops ops empty_world = Some w
    /\ heap w !! 1%positive = Some o
    /\ default_static w <> Some 1%positive
    /\ gst_task_pool_need_schedule_thread 1%positive true None w
       = Some (true, w')
    /\ default_static w' = Some 2%positive.
Proof.
  cbv zeta.
  destruct (run_ops [OpNew] empty_world) as [w|] eqn:E0;
    [|vm_compute in E0; discriminate].
  destruct (heap w !! 1%positive) as [o|] eqn:Eo.
  2:{ vm_compute in E0. injection E0 as <-. vm_compute in Eo. discriminate. }
  destruct (gst_task_pool_need_schedule_thread 1%positive true None w)
    as [[r w']|] eqn:Ec.
  2:{ vm_compute in E0. injection E0 as <-. vm_compute in Ec. discriminate. }
  assert (default_static w = None) as Hs.
  { vm_compute in E0. by injection E0 as <-. }
  assert (default_static w <> Some 1%positive) as Hd by (by rewrite Hs).
  assert (r = true) as Hrt.
  { vm_compute in E0. injection E0 as <-. vm_compute in Ec. congruence. }
  pose proof (need_schedule_thread_keeps_a_reference _ _ true None _ _ _ _
                E0 Eo Hd (or_introl eq_refl) Ec) as H.
  rewrite Hs in H. destruct H as (d & Hd' & Hfresh & _).
  assert (d = 2%positive) as Hd2.
  { vm_compute in E0. injection E0 as <-. vm_compute in Ec.
    injection Ec as _ <-. vm_compute in Hd'. congruence. }
  exists w, o, w'. split; [done|]. split; [done|]. split; [done|].
  split; [rewrite Hrt in Ec; exact Ec|]. rewrite <- Hd2. exact Hd'.
Defined.

(** ** Preparing and cleaning up *)

(** X8.  Preparing a pool that has no backend and cleaning it up again with
    nothing pushed in between brings every object back to what it was, for
    every configuration and whatever the workers do: the cleanup returns at
    once and no job is called. *)
Theorem prepare_then_cleanup_restores w p o spawn error sched :
  heap w !! p = Some o ->
  pool o = None ->
  let w1 := fst (gst_task_pool_prepare gst_task_pool_class_init p spawn error w) in
  exists w2,
    gst_task_pool_cleanup gst_task_pool_class_init p sched w1 = Some w2
    /\ heap w2 = heap w
    /\ default_static w2 = default_static w
    /\ invoked p (emitted w w2) = []
    /\ completed p (emitted w w2) = [].
Proof.
  intros Ho Hp w1. subst w1.
  unfold gst_task_pool_prepare. rewrite Ho.
  cbn [prepare gst_task_pool_class_init]. unfold default_prepare. rewrite Ho.
  assert (alter (set_pool None) p (heap w) = heap w) as Hid.
  { apply alter_id. intros o' Ho'. assert (o' = o) as -> by congruence.
    destruct o; cbn in *. by subst. }
  unfold g_thread_pool_new.
  destruct (_ || _) eqn:Eg; cbn [fst].
  - unfold gst_task_pool_cleanup, emit, store, set_heap. cbn.
    rewrite lookup_alter_eq, Ho. cbn.
    cbn [cleanup gst_task_pool_class_init]. unfold default_cleanup. cbn.
    rewrite lookup_alter_eq, Ho. cbn. eexists. split; [done|]. cbn.
    split; [done|]. split; [done|].
    rewrite (emitted_app w _ [EvCritical]) by done. done.
  - set (tp := mkGThreadPool default_func p (max_threads (priv o))
                 (exclusive (priv o)) [] []).
    assert (forall e,
      (let '(b, _, evs) :=
         match spawn with
         | Some e0 =>
             if exclusive (priv o)
             then (Some tp, g_propagate_error None e0, [EvThreadPoolNew p])
             else (Some tp, None, [EvThreadPoolNew p])
         | None => (Some tp, None, [EvThreadPoolNew p])
         end in (emit evs (store p (set_pool b) w), e))
      = (emit [EvThreadPoolNew p] (store p (set_pool (Some tp)) w), e)) as ->.
    { intros e. destruct spawn; [destruct (exclusive _)|]; done. }
    cbn [fst].
    unfold gst_task_pool_cleanup, emit, store, set_heap. cbn.
    rewrite lookup_alter_eq, Ho. cbn.
    cbn [cleanup gst_task_pool_class_init]. unfold default_cleanup. cbn.
    rewrite lookup_alter_eq, Ho. cbn.
    unfold g_thread_pool_free. cbn.
    rewrite orb_true_r. cbn.
    destruct sched; cbn; (eexists; split; [done|]); cbn;
      rewrite alter_alter_eq;
      (split; [apply alter_id; intros o' Ho';
               assert (o' = o) as -> by congruence;
               destruct o; cbn in *; by subst|]);
      (split; [done|]);
      rewrite (emitted_app w _ [EvThreadPoolNew p])
        by (cbn; by rewrite app_nil_r); done.
Qed.

Lemma prepare_then_cleanup_restores_witness :
  let w := snd (gst_task_pool_new_full 0 false empty_world) in
  let o := set_priv (set_config 0 false (priv gst_task_pool_init))
             gst_task_pool_init in
  heap w !! 1%positive = Some o
  /\ pool o = None
  /\ exists w2,
       gst_task_pool_cleanup gst_task_pool_class_init 1%positive [WStart]
         (fst (gst_task_pool_prepare gst_task_pool_class_init 1%positive None
                 None w))
       = Some w2
       /\ heap w2 = heap w.
Proof.
  cbv zeta.
  set (w := snd (gst_task_pool_new_full 0 false empty_world)).
  set (o := set_priv (set_config 0 false (priv gst_task_pool_init))
              gst_task_pool_init).
  assert (heap w !! 1%positive = Some o) as H1 by (vm_compute; reflexivity).
  assert (pool o = None) as H2 by reflexivity.
  split; [exact H1|]. split; [exact H2|].
  destruct (prepare_then_cleanup_restores w 1%positive o None None [WStart]
              H1 H2) as (w2 & Hc & Hh & _).
  exists w2. split; [exact Hc|exact Hh].
Defined.

(** X9.  Once [gst_task_pool_cleanup] has returned, a further cleanup of the
    same pool returns at once, for every schedule, and changes nothing. *)
Theorem cleanup_twice_is_cleanup_once p sched sched' w w1 :
  gst_task_pool_cleanup gst_task_pool_class_init p sched w = Some w1 ->
  is_Some (heap w !! p) ->
  gst_task_pool_cleanup gst_task_pool_class_init p sched' w1 = Some w1.
Proof.
  intros Hc Hl. destruct (cleanup_leaves_no_backend _ _ _ _ Hc) as [Hb Hlive].
  destruct (Hlive Hl) as [o1 Ho1].
  unfold backend_of in Hb. rewrite Ho1 in Hb.
  unfold gst_task_pool_cleanup. rewrite Ho1.
  cbn [cleanup gst_task_pool_class_init]. unfold default_cleanup.
  by rewrite Ho1, Hb.
Qed.

Lemma cleanup_twice_is_cleanup_once_witness :
  let w := snd (gst_task_pool_new empty_world) in
  gst_task_pool_cleanup gst_task_pool_class_init 1%positive [] w = Some w
  /\ is_Some (heap w !! 1%positive)
  /\ gst_task_pool_cleanup gst_task_pool_class_init 1%positive [WStart] w
     = Some w.
Proof.
  cbv zeta.
  assert (gst_task_pool_cleanup gst_task_pool_class_init 1%positive []
            (snd (gst_task_pool_new empty_world))
          = Some (snd (gst_task_pool_new empty_world))) as H1
    by (vm_compute; reflexivity).
  assert (is_Some (heap (snd (gst_task_pool_new empty_world)) !! 1%positive))
    as H2 by (vm_compute; eauto).
  split; [exact H1|]. split; [exact H2|].
  exact (cleanup_twice_is_cleanup_once _ _ [WStart] _ _ H1 H2).
Defined.

(** X10.  The bound and the exclusive flag given to
    [gst_task_pool_new_full] are what a later [gst_task_pool_prepare] hands
    to GLib, whatever calls are made in between: the backend is refused when
    GLib refuses that configuration, and otherwise it is an empty backend
    with that bound and that flag. *)
Theorem configuration_reaches_the_backend ops0 ops m x w0 w2 spawn error :
  run_ops ops0 empty_world = Some w0 ->
  run_ops ops (snd (gst_task_pool_new_full m x w0)) = Some w2 ->
  backend_of
    (fst (gst_task_pool_prepare gst_task_pool_class_init
            (fst (gst_task_pool_new_full m x w0)) spawn error w2))
    (fst (gst_task_pool_new_full m x w0))
  = if (x && (m =? -1)%Z) || (m <? -1)%Z then None
    else Some (mkGThreadPool default_func (fst (gst_task_pool_new_full m x w0))
                 m x [] []).
Proof.
  intros Hr0 Hr.
  assert (wf w0) as Hwf0 by (apply reachable_wf; by exists ops0).
  pose proof (wf_new_full m x w0 Hwf0) as Hwf1.
  assert (exists o1,
            heap (snd (gst_task_pool_new_full m x w0))
              !! fst (gst_task_pool_new_full m x w0) = Some o1
            /\ max_threads (priv o1) = m /\ exclusive (priv o1) = x)
    as (o1 & Ho1 & Hm1 & Hx1).
  { unfold gst_task_pool_new_full. cbn.
    rewrite lookup_alter_eq, lookup_insert_eq. cbn. by eexists. }
  destruct (gst_task_pool_new_full m x w0) as [p w1]. cbn [fst snd] in *.
  destruct (run_ops_object _ _ _ _ _ Hwf1 Hr Ho1)
    as (o2 & Ho2 & _ & _ & Hm2 & Hx2).
  unfold gst_task_pool_prepare. rewrite Ho2.
  cbn [prepare gst_task_pool_class_init]. unfold default_prepare. rewrite Ho2.
  rewrite Hm2, Hx2, Hm1, Hx1. unfold g_thread_pool_new.
  destruct (_ || _).
  - unfold backend_of. cbn. by rewrite lookup_alter_eq, Ho2.
  - assert (forall e : GErrorOut,
      backend_of
        (fst (let '(tp, _, evs) :=
            match spawn with
            | Some e0 =>
                if x
                then (Some (mkGThreadPool default_func p m x [] []),
                      g_propagate_error None e0, [EvThreadPoolNew p])
                else (Some (mkGThreadPool default_func p m x [] []), None,
                      [EvThreadPoolNew p])
            | None => (Some (mkGThreadPool default_func p m x [] []), None,
                       [EvThreadPoolNew p])
            end in (emit evs (store p (set_pool tp) w2), e))) p
      = Some (mkGThreadPool default_func p m x [] [])) as H.
    { intros e. destruct spawn; [destruct x|]; unfold backend_of; cbn;
        by rewrite lookup_alter_eq, Ho2. }
    apply H.
Qed.

Lemma configuration_reaches_the_backend_witness :
  let ops0 := [OpNew] in
  let ops := [OpNeedScheduleThread 2%positive true None;
              OpPrepare 1%positive None None] in
  exists w0 w2,
    run_ops ops0 empty_world = Some w0
    /\ run_ops ops (snd (gst_task_pool_new_full 2 false w0)) = Some w2
    /\ backend_of
         (fst (gst_task_pool_prepare gst_task_pool_class_init
                 (fst (gst_task_pool_new_full 2 false w0)) None None w2))
         (fst (gst_task_pool_new_full 2 false w0))
       = Some (mkGThreadPool default_func
                 (fst (gst_task_pool_new_full 2 false w0)) 2 false [] []).
Proof.
  cbv zeta.
  destruct (run_ops [OpNew] empty_world) as [w0|] eqn:E0;
    [|vm_compute in E0; discriminate].
  destruct (run_ops [OpNeedScheduleThread 2%positive true None;
                     OpPrepare 1%positive None None]
              (snd (gst_task_pool_new_full 2 false w0))) as [w2|] eqn:E1.
  2:{ vm_compute in E0. injection E0 as <-. vm_compute in E1. discriminate. }
  exists w0, w2. split; [done|]. split; [exact E1|].
  exact (configuration_reaches_the_backend _ _ 2%Z false _ _ None None E0 E1).
Defined.

Lemma run_op_no_backend op w w' p :
  wf w -> run_op op w = Some w' ->
  is_Some (heap w !! p) -> backend_of w p = None ->
  is_prepare_of p op = false ->
  backend_of w' p = None.
Proof.
  intros Hwf Hr [o Ho] Hb Hp.
  assert (pool o = None) as Hpo by (unfold backend_of in Hb; by rewrite Ho in Hb).
  destruct (touches_backend op p) eqn:Et.
  2:{ destruct (run_op_object _ _ _ _ _ Hwf Hr Ho)
        as (o' & Ho' & _ & _ & _ & _ & Hk & _).
      unfold backend_of. rewrite Ho', (Hk Et). done. }
  destruct op; try discriminate; cbn in Et, Hp;
    apply bool_decide_eq_true_1 in Et; subst p0; cbn in Hr.
  - by rewrite bool_decide_eq_true_2 in Hp.
  - by destruct (cleanup_leaves_no_backend _ _ _ _ Hr).
  - injection Hr as <-. rewrite push_no_backend; [done|by eexists|done].
  - injection Hr as <-. unfold worker_event. by rewrite Ho, Hpo.
Qed.

(** X11.  From a reachable world, a pool without backend stays without
    backend, and pushes on it stay dropped, through every sequence of calls
    that holds no [gst_task_pool_prepare] on it.  In particular
    [gst_task_pool_get_default] never prepares the default pool a second
    time, also not after somebody has cleaned it up. *)
Theorem only_prepare_gives_a_backend ops0 ops w w' p :
  run_ops ops0 empty_world = Some w ->
  is_Some (heap w !! p) ->
  backend_of w p = None ->
  run_ops ops w = Some w' ->
  (forall op, op ∈ ops -> is_prepare_of p op = false) ->
  backend_of w' p = None
  /\ forall tdata spawn error,
       gst_task_pool_push gst_task_pool_class_init p tdata spawn error w'
       = (None, error, w').
Proof.
  intros Hr0 Hl Hb Hr Hnp.
  assert (wf w) as Hwf by (apply reachable_wf; by exists ops0).
  assert (is_Some (heap w' !! p) /\ backend_of w' p = None) as [Hl' Hb'].
  { clear Hr0. revert w Hwf Hl Hb Hr.
    induction ops as [|op ops IH]; intros w Hwf Hl Hb Hr; cbn in Hr.
    - by injection Hr as <-.
    - destruct (run_op op w) as [w1|] eqn:E; [|done].
      apply (IH (fun op' Hin => Hnp op' (list_elem_of_further _ _ _ Hin)) w1).
      + by eapply wf_run_op.
      + destruct Hl as [o Ho].
        destruct (run_op_object _ _ _ _ _ Hwf E Ho) as (o' & Ho' & _).
        by eexists.
      + eapply run_op_no_backend; try done. apply Hnp. by left.
      + done. }
  split; [done|]. intros. by apply push_no_backend.
Qed.

Lemma only_prepare_gives_a_backend_witness :
  let ops0 := [OpGetDefault None; OpCleanup 1%positive []] in
  let ops := [OpGetDefault None;
              OpPush 1%positive (mkTaskData 7 None) None None] in
  exists w w',
    run_ops ops0 empty_world = Some w
    /\ is_Some (heap w !! 1%positive)
    /\ backend_of w 1%positive = None
    /\ run_ops ops w = Some w'
    /\ backend_of w' 1%positive = None.
Proof.
  cbv zeta.
  destruct (run_ops [OpGetDefault None; OpCleanup 1%positive []] empty_world)
    as [w|] eqn:E0; [|vm_compute in E0; discriminate].
  destruct (run_ops [OpGetDefault None;
                     OpPush 1%positive (mkTaskData 7 None) None None] w)
    as [w'|] eqn:E1.
  2:{ vm_compute in E0. injection E0 as <-. vm_compute in E1. discriminate. }
  assert (is_Some (heap w !! 1%positive)) as Hl.
  { vm_compute in E0. injection E0 as <-. vm_compute. eauto. }
  assert (backend_of w 1%positive = None) as Hb.
  { vm_compute in E0. injection E0 as <-. vm_compute. reflexivity. }
  assert (forall op,
    op ∈ [OpGetDefault None; OpPush 1%positive (mkTaskData 7 None) None None] ->
    is_prepare_of 1%positive op = false) as Hnp.
  { intros op Hin.
    repeat (apply elem_of_cons in Hin as [->|Hin]; [reflexivity|]).
    by apply elem_of_nil in Hin. }
  exists w, w'. split; [done|]. split; [exact Hl|]. split; [exact Hb|].
  split; [exact E1|].
  exact (proj1 (only_prepare_gives_a_backend _ _ _ _ _ E0 Hl Hb E1 Hnp)).
Defined.

(** ** Jobs in flight *)

Lemma prefix_snoc_cases {A} (pre l : list A) (x : A) :
  pre `prefix_of` l ++ [x] -> pre `prefix_of` l \/ pre = l ++ [x].
Proof.
  intros [k Hk]. destruct k as [|y k _] using rev_ind.
  - right. by rewrite app_nil_r in Hk.
  - left. rewrite app_assoc in Hk. apply app_inj_tail in Hk as [-> _].
    by exists k.
Qed.

Lemma at_most_in_flight_snoc p k evs e :
  at_most_in_flight p k evs ->
  (0 <= in_flight p (evs ++ [e]) <= k)%Z ->
  at_most_in_flight p k (evs ++ [e]).
Proof.
  intros H Hn pre Hpre.
  destruct (prefix_snoc_cases _ _ _ Hpre) as [Hp| ->]; [by apply H|done].
Qed.

Lemma at_most_in_flight_nil p k : (0 <= k)%Z -> at_most_in_flight p k [].
Proof.
  intros Hk pre Hpre. apply prefix_nil_inv in Hpre as ->.
  unfold in_flight. cbn. lia.
Qed.

(** What one move of a worker does to the books, for a bounded backend. *)
Lemma worker_step_in_order p k e tp tp' evs evs' :
  tp_func tp = default_func -> tp_user_data tp = p ->
  tp_max_threads tp = k -> (0 < k)%Z ->
  worker_step e tp = Some (tp', evs') ->
  in_flight p evs = Z.of_nat (length (tp_running tp)) ->
  (Z.of_nat (length (tp_running tp)) <= k)%Z ->
  at_most_in_flight p k evs ->
  invoked p (evs ++ evs') ++ tp_queue tp' = invoked p evs ++ tp_queue tp
  /\ in_flight p (evs ++ evs') = Z.of_nat (length (tp_running tp'))
  /\ (Z.of_nat (length (tp_running tp')) <= k)%Z
  /\ at_most_in_flight p k (evs ++ evs').
Proof.
  intros Hf Hu Hk Hpos Hs Hn Hb Ha. destruct e as [|i]; cbn in Hs.
  - destruct (tp_queue tp) as [|td q] eqn:Eq; [done|].
    destruct (can_start tp) eqn:Ec; [|done]. injection Hs as <- <-.
    rewrite Hf, Hu. unfold default_func.
    assert (Z.of_nat (length (tp_running tp)) < k)%Z as Hlt.
    { unfold can_start in Ec. apply orb_true_iff in Ec as [Ec|Ec].
      - apply Z.eqb_eq in Ec. lia.
      - apply Z.ltb_lt in Ec. lia. }
    assert (in_flight p (evs ++ [EvInvoke p td])
            = Z.of_nat (length (tp_running tp ++ [td]))) as Hn'.
    { unfold in_flight in *. rewrite invoked_app, completed_app. cbn.
      rewrite decide_True by done. cbn.
      rewrite !length_app. cbn. lia. }
    cbn [tp_queue tp_running tp_set_running tp_set_queue].
    split; [|split; [done|split]].
    + rewrite invoked_app. cbn. rewrite decide_True by done. cbn.
      by rewrite <- app_assoc.
    + rewrite length_app. cbn. lia.
    + apply at_most_in_flight_snoc; [done|]. rewrite Hn'.
      rewrite length_app. cbn. lia.
  - destruct (tp_running tp !! i) as [td|] eqn:Ei; [|done].
    injection Hs as <- <-. rewrite Hu.
    pose proof (lookup_lt_Some _ _ _ Ei) as Hi.
    assert (length (delete i (tp_running tp)) = length (tp_running tp) - 1)
      as Hl by (by rewrite length_delete by eauto).
    assert (in_flight p (evs ++ [EvDone p td])
            = Z.of_nat (length (delete i (tp_running tp)))) as Hn'.
    { unfold in_flight in *. rewrite invoked_app, completed_app. cbn.
      rewrite decide_True by done. cbn.
      rewrite !length_app. cbn. lia. }
    cbn [tp_queue tp_running tp_set_running tp_set_queue].
    split; [|split; [done|split]].
    + rewrite invoked_app. cbn. by rewrite app_nil_r.
    + lia.
    + apply at_most_in_flight_snoc; [done|]. rewrite Hn'. lia.
Qed.

Lemma wait_in_order p k sched : forall tp tp' evs evs',
  tp_func tp = default_func -> tp_user_data tp = p ->
  tp_max_threads tp = k -> (0 < k)%Z ->
  g_thread_pool_wait sched tp = Some (tp', evs') ->
  in_flight p evs = Z.of_nat (length (tp_running tp)) ->
  (Z.of_nat (length (tp_running tp)) <= k)%Z ->
  at_most_in_flight p k evs ->
  invoked p (evs ++ evs') = invoked p evs ++ tp_queue tp
  /\ at_most_in_flight p k (evs ++ evs').
Proof.
  induction sched as [|e sched IH];
    intros tp tp' evs evs' Hf Hu Hk Hpos; cbn.
  - destruct (drained tp) eqn:Ed; [|done]. intros [= <- <-] Hn Hb Ha.
    unfold drained in Ed. destruct (tp_queue tp); [|done].
    by rewrite !app_nil_r.
  - destruct (drained tp) eqn:Ed.
    { intros [= <- <-] Hn Hb Ha.
      unfold drained in Ed. destruct (tp_queue tp); [|done].
      by rewrite !app_nil_r. }
    destruct (worker_step e tp) as [[tp1 evs1]|] eqn:Es; [|by apply IH].
    destruct (g_thread_pool_wait sched tp1) as [[tp2 evs2]|] eqn:Ew; [|done].
    intros [= <- <-] Hn Hb Ha.
    destruct (worker_step_keeps _ _ _ _ Es) as (Hf1 & Hu1 & Hk1).
    destruct (worker_step_in_order _ _ _ _ _ _ _ Hf Hu Hk Hpos Es Hn Hb Ha)
      as (Hq1 & Hn1 & Hb1 & Ha1).
    destruct (IH tp1 tp2 (evs ++ evs1) evs2) as [Hq2 Ha2]; try done;
      try congruence.
    rewrite app_assoc. split; [|done].
    by rewrite Hq2, Hq1.
Qed.

Lemma serving_in_order_step p k w1 w w' jobs a :
  (0 < k)%Z ->
  serving_in_order p k w1 w jobs ->
  run_op (activity_op p a) w = Some w' ->
  serving_in_order p k w1 w' (jobs ++ pushed [a]).
Proof.
  intros Hpos (o & tp & evs & Ho & Hp & Hf & Hu & Hk & Ht & Hq & Hn & Hb & Ha).
  destruct a as [tdata error|e]; cbn [activity_op run_op pushed omap].
  - intros [= <-]. unfold gst_task_pool_push. rewrite Ho.
    cbn [push gst_task_pool_class_init]. unfold default_push. rewrite Ho, Hp.
    cbn [g_thread_pool_push snd].
    exists (set_pool (Some (tp_set_queue (tp_queue tp ++ [tdata]) tp)) o),
      (tp_set_queue (tp_queue tp ++ [tdata]) tp), evs.
    rewrite store_lookup, Ho.
    split_and!; try done. cbn. by rewrite app_assoc, Hq.
  - intros [= <-]. unfold worker_event. rewrite Ho, Hp. rewrite app_nil_r.
    destruct (worker_step e tp) as [[tp' evs']|] eqn:Es.
    + destruct (worker_step_keeps _ _ _ _ Es) as (Hf' & Hu' & Hm').
      destruct (worker_step_in_order _ _ _ _ _ _ _ Hf Hu Hk Hpos Es Hn Hb Ha)
        as (Hq1 & Hn1 & Hb1 & Ha1).
      exists (set_pool (Some tp') o), tp', (evs ++ evs').
      assert (heap (emit evs' (store p (set_pool (Some tp')) w)) !! p
              = Some (set_pool (Some tp') o)) as ->.
      { change (heap (store p (set_pool (Some tp')) w) !! p
                = Some (set_pool (Some tp') o)).
        by rewrite store_lookup, Ho. }
      split_and!; try done; try congruence.
      cbn. by rewrite Ht, <- app_assoc.
    + exists o, tp, evs. split_and!; done.
Qed.

Lemma serving_in_order_run p k w1 acts : forall w w' jobs,
  (0 < k)%Z ->
  serving_in_order p k w1 w jobs ->
  run_ops (map (activity_op p) acts) w = Some w' ->
  serving_in_order p k w1 w' (jobs ++ pushed acts).
Proof.
  induction acts as [|a acts IH]; intros w w' jobs Hpos Hs; cbn [map run_ops].
  - intros [= <-]. by rewrite app_nil_r.
  - destruct (run_op (activity_op p a) w) as [wa|] eqn:Ea; [|done].
    intros Hr. pose proof (serving_in_order_step _ _ _ _ _ _ _ Hpos Hs Ea) as Hs'.
    pose proof (IH _ _ _ Hpos Hs' Hr) as Hs''.
    replace (pushed (a :: acts)) with (pushed [a] ++ pushed acts)
      by (by destruct a).
    by rewrite app_assoc.
Qed.

Lemma serving_in_order_after_prepare p o error w :
  heap w !! p = Some o ->
  (0 < max_threads (priv o))%Z ->
  let w1 := fst (gst_task_pool_prepare gst_task_pool_class_init p None error w) in
  serving_in_order p (max_threads (priv o)) w1 w1 [].
Proof.
  intros Ho Hc w1. subst w1. unfold gst_task_pool_prepare. rewrite Ho.
  cbn [prepare gst_task_pool_class_init]. unfold default_prepare. rewrite Ho.
  unfold g_thread_pool_new.
  assert ((exclusive (priv o) && (max_threads (priv o) =? -1)%Z)
          || (max_threads (priv o) <? -1)%Z = false) as ->.
  { apply orb_false_iff. split.
    - apply andb_false_iff. right. apply Z.eqb_neq. lia.
    - apply Z.ltb_ge. lia. }
  cbn [fst].
  set (tp := mkGThreadPool default_func p (max_threads (priv o))
               (exclusive (priv o)) [] []).
  exists (set_pool (Some tp) o), tp, [].
  split.
  { change (heap (store p (set_pool (Some tp)) w) !! p
            = Some (set_pool (Some tp) o)).
    by rewrite store_lookup, Ho. }
  split_and!; try done.
  - by rewrite app_nil_r.
  - cbn. lia.
  - apply at_most_in_flight_nil. lia.
Qed.

Lemma serving_in_order_result p k w1 w2 jobs :
  (0 < k)%Z ->
  serving_in_order p k w1 w2 jobs ->
  at_most_in_flight p k (emitted w1 w2)
  /\ (exists rest, invoked p (emitted w1 w2) ++ rest = jobs)
  /\ forall sched w3,
       gst_task_pool_cleanup gst_task_pool_class_init p sched w2 = Some w3 ->
       at_most_in_flight p k (emitted w1 w3)
       /\ invoked p (emitted w1 w3) = jobs.
Proof.
  intros Hpos (o & tp & evs & Ho & Hp & Hf & Hu & Hk & Ht & Hq & Hn & Hb & Ha).
  rewrite (emitted_app _ _ _ Ht).
  split; [done|]. split; [by exists (tp_queue tp)|].
  intros sched w3. unfold gst_task_pool_cleanup. rewrite Ho.
  cbn [cleanup gst_task_pool_class_init]. unfold default_cleanup.
  rewrite Ho, Hp. unfold g_thread_pool_free.
  assert ((tp_max_threads tp =? 0)%Z = false) as ->
    by (apply Z.eqb_neq; lia).
  cbn [negb orb].
  destruct (g_thread_pool_wait sched tp) as [[tp' evs']|] eqn:Ew; [|done].
  cbn. intros [= <-].
  destruct (wait_in_order _ _ _ _ _ _ _ Hf Hu Hk Hpos Ew Hn Hb Ha)
    as [Hq' Ha'].
  rewrite (emitted_app w1 _ (evs ++ evs'))
    by (cbn; by rewrite Ht, app_assoc).
  split; [done|]. by rewrite Hq', Hq.
Qed.

(** X12.  A pool with a positive [max_threads] is prepared, jobs are pushed
    and the workers move in any order, and the pool is cleaned up.  At no
    point before or during the cleanup are more than [max_threads] of its
    jobs in flight (called and not yet returned). *)
Theorem never_more_than_max_threads_in_flight w p o error acts w2 :
  heap w !! p = Some o ->
  (0 < max_threads (priv o))%Z ->
  let w1 := fst (gst_task_pool_prepare gst_task_pool_class_init p None error w) in
  run_ops (map (activity_op p) acts) w1 = Some w2 ->
  at_most_in_flight p (max_threads (priv o)) (emitted w1 w2)
  /\ forall sched w3,
       gst_task_pool_cleanup gst_task_pool_class_init p sched w2 = Some w3 ->
       at_most_in_flight p (max_threads (priv o)) (emitted w1 w3).
Proof.
  intros Ho Hc w1 Hr.
  pose proof (serving_in_order_after_prepare p o error w Ho Hc) as Hs.
  pose proof (serving_in_order_run _ _ _ _ _ _ _ Hc Hs Hr) as Hs2.
  destruct (serving_in_order_result _ _ _ _ _ Hc Hs2) as (Ha & _ & Hcl).
  split; [done|]. intros sched w3 H3. by destruct (Hcl _ _ H3).
Qed.

Lemma never_more_than_max_threads_in_flight_witness :
  let w := snd (gst_task_pool_new_full 2 false empty_world) in
  let o := set_priv (set_config 2 false (priv gst_task_pool_init))
             gst_task_pool_init in
  let acts := [Push (mkTaskData 7 None) None; Push (mkTaskData 8 None) None;
               Push (mkTaskData 9 None) None; Work WStart; Work WStart;
               Work WStart] in
  let w1 := fst (gst_task_pool_prepare gst_task_pool_class_init 1%positive
                   None None w) in
  heap w !! 1%positive = Some o
  /\ (0 < max_threads (priv o))%Z
  /\ exists w2,
       run_ops (map (activity_op 1%positive) acts) w1 = Some w2
       /\ at_most_in_flight 1%positive 2 (emitted w1 w2).
Proof.
  cbv zeta.
  set (w := snd (gst_task_pool_new_full 2 false empty_world)).
  set (o := set_priv (set_config 2 false (priv gst_task_pool_init))
              gst_task_pool_init).
  set (acts := [Push (mkTaskData 7 None) None; Push (mkTaskData 8 None) None;
                Push (mkTaskData 9 None) None; Work WStart; Work WStart;
                Work WStart]).
  assert (heap w !! 1%positive = Some o) as H1 by (vm_compute; reflexivity).
  assert (0 < max_threads (priv o))%Z as H2 by reflexivity.
  split; [exact H1|]. split; [exact H2|].
  destruct (run_ops (map (activity_op 1%positive) acts)
              (fst (gst_task_pool_prepare gst_task_pool_class_init 1%positive
                      None None w))) as [w2|] eqn:E2;
    [|vm_compute in E2; discriminate].
  exists w2. split; [reflexivity|].
  exact (proj1 (never_more_than_max_threads_in_flight w 1%positive o None acts
                  w2 H1 H2 E2)).
Defined.

(** X13.  With [max_threads = 1] the pool runs its jobs one after the other
    in the order they were pushed: when the cleanup returns, the jobs were
    called in push order, and no call began before the one before it had
    returned. *)
Theorem one_thread_runs_jobs_in_push_order w p o error acts w2 sched w3 :
  heap w !! p = Some o ->
  max_threads (priv o) = 1%Z ->
  let w1 := fst (gst_task_pool_prepare gst_task_pool_class_init p None error w) in
  run_ops (map (activity_op p) acts) w1 = Some w2 ->
  gst_task_pool_cleanup gst_task_pool_class_init p sched w2 = Some w3 ->
  invoked p (emitted w1 w3) = pushed acts
  /\ at_most_in_flight p 1 (emitted w1 w3).
Proof.
  intros Ho Hc w1 Hr H3.
  assert (0 < max_threads (priv o))%Z as Hpos by lia.
  pose proof (serving_in_order_after_prepare p o error w Ho Hpos) as Hs.
  pose proof (serving_in_order_run _ _ _ _ _ _ _ Hpos Hs Hr) as Hs2.
  destruct (serving_in_order_result _ _ _ _ _ Hpos Hs2) as (_ & _ & Hcl).
  destruct (Hcl _ _ H3) as [Ha Hi]. rewrite Hc in Ha. done.
Qed.

Lemma one_thread_runs_jobs_in_push_order_witness :
  let w := snd (gst_task_pool_new_full 1 false empty_world) in
  let o := set_priv (set_config 1 false (priv gst_task_pool_init))
             gst_task_pool_init in
  let j1 := mkTaskData 7 None in
  let j2 := mkTaskData 8 None in
  let acts := [Push j1 None; Work WStart; Push j2 None; Work WStart] in
  let w1 := fst (gst_task_pool_prepare gst_task_pool_class_init 1%positive
                   None None w) in
  heap w !! 1%positive = Some o
  /\ max_threads (priv o) = 1%Z
  /\ exists w2 w3,
       run_ops (map (activity_op 1%positive) acts) w1 = Some w2
       /\ gst_task_pool_cleanup gst_task_pool_class_init 1%positive
            [WStart; WFinish 0; WStart; WFinish 0] w2 = Some w3
       /\ invoked 1%positive (emitted w1 w3) = [j1; j2].
Proof.
  cbv zeta.
  set (w := snd (gst_task_pool_new_full 1 false empty_world)).
  set (o := set_priv (set_config 1 false (priv gst_task_pool_init))
              gst_task_pool_init).
  set (acts := [Push (mkTaskData 7 None) None; Work WStart;
                Push (mkTaskData 8 None) None; Work WStart]).
  assert (heap w !! 1%positive = Some o) as H1 by (vm_compute; reflexivity).
  assert (max_threads (priv o) = 1%Z) as H2 by reflexivity.
  split; [exact H1|]. split; [exact H2|].
  destruct (run_ops (map (activity_op 1%positive) acts)
              (fst (gst_task_pool_prepare gst_task_pool_class_init 1%positive
                      None None w))) as [w2|] eqn:E2;
    [|vm_compute in E2; discriminate].
  destruct (gst_task_pool_cleanup gst_task_pool_class_init 1%positive
              [WStart; WFinish 0; WStart; WFinish 0] w2) as [w3|] eqn:E3.
  2:{ vm_compute in E2. injection E2 as <-. vm_compute in E3. discriminate. }
  exists w2, w3. split; [reflexivity|]. split; [exact E3|].
  exact (proj1 (one_thread_runs_jobs_in_push_order w 1%positive o None acts w2
                  _ w3 H1 H2 E2 E3)).
Defined.

(** ** The readiness handshake *)

Import Handshake.

Lemma handshake_inv_init : handshake_inv init.
Proof. repeat split; cbn; done. Qed.

Lemma handshake_inv_step m s s' :
  m <> MSpurious -> handshake_inv s -> step m s = Some s' -> handshake_inv s'.
Proof.
  intros Hm (H1 & H2 & H3 & H4).
  destruct s as [c t l n cx lp lr sg]. cbn in *.
  destruct m; [| |done]; cbn.
  - unfold caller_step. cbn.
    destruct c; cbn in *;
      try (destruct l; try discriminate);
      try (rewrite H4 by done; cbn);
      intros [= <-]; unfold handshake_inv; cbn; intuition congruence.
  - unfold thread_step. cbn.
    destruct t; cbn in *;
      try (destruct l; try discriminate);
      try discriminate;
      intros [= <-]; unfold handshake_inv; cbn;
      try (destruct c; cbn in *); intuition congruence.
Qed.

Lemma handshake_inv_run ms : forall s s',
  MSpurious ∉ ms -> handshake_inv s -> run ms s = Some s' -> handshake_inv s'.
Proof.
  induction ms as [|m ms IH]; intros s s' Hns Hi; cbn.
  - by intros [= <-].
  - destruct (step m s) as [s1|] eqn:E; [|done].
    apply IH.
    + intros Hin. apply Hns. by right.
    + eapply handshake_inv_step; [|done|done].
      intros ->. apply Hns. by left.
Qed.

(** Without spurious wakeups the handshake does what it is meant to do: once
    the caller is past [g_cond_wait], the schedule thread has signalled from
    inside its running loop. *)
Lemma caller_waits_for_the_loop ms s :
  MSpurious ∉ ms -> run ms init = Some s ->
  past_wait (caller s) = true ->
  signalled s = true /\ loop_running s = true.
Proof.
  intros Hns Hr Hp.
  destruct (handshake_inv_run _ _ _ Hns handshake_inv_init Hr) as (H1 & H2 & _).
  split; [by apply H1|]. by apply H2, H1.
Qed.

(** C5.  [g_cond_wait] is called once, outside any loop and with no
    condition to test again.  Under the schedule [early_return] the caller
    has returned with the counter at 1 and the context in place, while the
    schedule thread has not entered [g_main_loop_run] and has not
    signalled. *)
Theorem spurious_wakeup_ends_the_wait_early :
  run early_return init
  = Some (mkState CReturned TAttach None 1 true true false false).
Proof. reflexivity. Qed.

(** ** The handshake never blocks *)

Lemma positions_step m c t s' :
  Progress.positions_ok c t = true ->
  step m (Progress.state_at c t) = Some s' ->
  Progress.rank (Progress.state_at c t) < Progress.rank s'
  /\ exists c' t',
       s' = Progress.state_at c' t' /\ Progress.positions_ok c' t' = true.
Proof.
  intros Hok Hs.
  destruct c, t; try discriminate Hok;
    destruct m; cbv in Hs; try discriminate Hs;
    injection Hs as <-;
    (split; [cbv; lia|]);
    match goal with
    | |- exists c' t', mkState ?c ?t _ _ _ _ _ _ = _ /\ _ =>
        exists c, t; split; reflexivity
    end.
Qed.

Lemma positions_run ms : forall c t s,
  Progress.positions_ok c t = true ->
  run ms (Progress.state_at c t) = Some s ->
  Progress.rank (Progress.state_at c t) + length ms <= Progress.rank s
  /\ exists c' t',
       s = Progress.state_at c' t' /\ Progress.positions_ok c' t' = true.
Proof.
  induction ms as [|m ms IH]; intros c t s Hok; cbn [run].
  - intros [= <-]. split; [cbn; lia|]. by exists c, t.
  - destruct (step m (Progress.state_at c t)) as [s1|] eqn:E; [|done].
    destruct (positions_step _ _ _ _ Hok E) as (Hlt & c1 & t1 & -> & Hok1).
    intros Hr. destruct (IH _ _ _ Hok1 Hr) as (Hle & Hex).
    split; [cbn [length]; lia|done].
Qed.

Lemma positions_progress c t :
  Progress.positions_ok c t = true ->
  Progress.state_at c t = Progress.finished
  \/ exists m s', m <> MSpurious /\ step m (Progress.state_at c t) = Some s'.
Proof.
  intros Hok.
  destruct c, t; try discriminate Hok;
    first [ left; reflexivity
          | right; exists MCaller; eexists; split; [discriminate|reflexivity]
          | right; exists MThread; eexists; split; [discriminate|reflexivity] ].
Qed.

(** A caller that sleeps in [g_cond_wait] still has the signal before it. *)
Lemma positions_sleeping c t :
  Progress.positions_ok c t = true ->
  c = CSleeping ->
  signalled (Progress.state_at c t) = false
  /\ exists s', step MThread (Progress.state_at c t) = Some s'.
Proof.
  intros Hok ->.
  destruct t; try discriminate Hok; (split; [reflexivity|]);
    eexists; reflexivity.
Qed.

(** X14.  The enable handshake cannot block, and it needs no spurious wakeup
    to go on.  In every state that a schedule of the caller and the new
    thread reaches from the start (spurious wakeups of the caller allowed),
    either the caller has returned with the counter at 1, the lock is free
    and the schedule thread has signalled and runs its loop, or the caller or
    the schedule thread can make a step of its own.  The signal cannot be
    lost: whenever the caller sleeps in [g_cond_wait], the schedule thread has
    not called [g_cond_signal] yet and is not blocked.  (The caller takes the
    lock before it creates the thread and gives it up only inside
    [g_cond_wait], and the thread signals with the lock held.)  No schedule
    has more than 16 moves. *)
Theorem handshake_never_blocks ms s :
  run ms init = Some s ->
  length ms <= 16
  /\ (s = mkState CReturned TLooping None 1 true true true true
      \/ exists m s', m <> MSpurious /\ step m s = Some s')
  /\ (caller s = CSleeping ->
      signalled s = false /\ exists s', step MThread s = Some s').
Proof.
  intros Hr.
  destruct (positions_run ms CLock TNone s eq_refl Hr)
    as (Hle & c & t & -> & Hok).
  split; [|split].
  - assert (Progress.rank (Progress.state_at c t) <= 16)
      by (destruct c, t; cbn; lia).
    cbn in Hle. lia.
  - apply (positions_progress _ _ Hok).
  - intros Hc. apply (positions_sleeping _ _ Hok Hc).
Qed.

Lemma handshake_never_blocks_witness :
  run [MCaller; MCaller; MCaller; MCaller; MCaller; MCaller; MThread; MThread;
       MThread; MThread; MThread; MCaller; MCaller; MCaller] init
  = Some (mkState CReturned TLooping None 1 true true true true)
  /\ length [MCaller; MCaller; MCaller; MCaller; MCaller; MCaller; MThread;
             MThread; MThread; MThread; MThread; MCaller; MCaller; MCaller]
     <= 16.
Proof.
  assert (run [MCaller; MCaller; MCaller; MCaller; MCaller; MCaller; MThread;
               MThread; MThread; MThread; MThread; MCaller; MCaller; MCaller]
            init
          = Some (mkState CReturned TLooping None 1 true true true true)) as H
    by reflexivity.
  split; [exact H|].
  exact (proj1 (handshake_never_blocks _ _ H)).
Defined.

(** ** Two enable requests at the same time *)

(** A caller that is alone in the function does what
    [start_schedule_thread] says: the same GLib calls with the same handles,
    which end up in the object, and the counter at 1. *)
Lemma alone_is_start_schedule_thread p w i :
  exists s,
    Overlap.run (Overlap.alone i) (Overlap.init (next_handle w)) = Some s
    /\ Overlap.pc i s = CReturned
    /\ Overlap.lock s = None
    /\ Overlap.need s = 1%Z
    /\ Overlap.calls s = emitted w (start_schedule_thread p w)
    /\ Overlap.next s = next_handle (start_schedule_thread p w)
    /\ forall o, heap w !! p = Some o ->
         heap (start_schedule_thread p w) !! p
         = Some (with_schedule (Overlap.context s) (Overlap.loop s)
                   (Overlap.thread s) o).
Proof.
  rewrite start_schedule_thread_spec. cbv zeta.
  destruct i; eexists; (split; [vm_compute; reflexivity|]); cbn;
    (split_and!; try reflexivity;
     [ symmetry; by apply emitted_app
     | intros o Ho; by rewrite lookup_alter_eq, Ho ]).
Qed.

(** Two calls of which the second begins when the first has returned: the
    second finds the counter at 1 and only counts. *)
Lemma enables_one_after_the_other h :
  let c := h in
  let l := Pos.succ c in
  let t := Pos.succ l in
  Overlap.run
    (Overlap.alone Overlap.First
     ++ [Overlap.Go Overlap.Second; Overlap.Go Overlap.Second;
         Overlap.Go Overlap.Second; Overlap.Go Overlap.Second])
    (Overlap.init h)
  = Some (Overlap.mkState CReturned CReturned None 2 (Some c) (Some l) (Some t)
            [EvContextNew c; EvLoopNew l (Some c); EvThreadNew t; EvCondWait]
            (Pos.succ t)).
Proof. vm_compute. reflexivity. Qed.

(** C3.  Two enable requests on an idle pool that overlap.  The first caller
    makes context, loop and thread and sleeps in [g_cond_wait], which gives
    [schedule_lock] up with the counter still at 0.  The second caller takes
    the lock, finds the counter at 0 and makes a second context, a second
    loop and a second thread, whose handles replace the first ones in the
    object: two schedule threads exist while the counter is 0.  When both
    callers have returned the counter is 2, it went from 0 to 1 once, and the
    first context, loop and thread are in no field any more, so that no
    later call can quit, join or release them. *)
Theorem overlapping_enables_make_two_schedule_threads h :
  let c1 := h in
  let l1 := Pos.succ c1 in
  let t1 := Pos.succ l1 in
  let c2 := Pos.succ t1 in
  let l2 := Pos.succ c2 in
  let t2 := Pos.succ l2 in
  let made :=
    [EvContextNew c1; EvLoopNew l1 (Some c1); EvThreadNew t1; EvCondWait;
     EvContextNew c2; EvLoopNew l2 (Some c2); EvThreadNew t2; EvCondWait] in
  Overlap.run Overlap.both_asleep (Overlap.init h)
  = Some (Overlap.mkState CSleeping CSleeping None 0 (Some c2) (Some l2)
            (Some t2) made (Pos.succ t2))
  /\ Overlap.run (Overlap.both_asleep ++ Overlap.both_return) (Overlap.init h)
     = Some (Overlap.mkState CReturned CReturned None 2 (Some c2) (Some l2)
               (Some t2) made (Pos.succ t2)).
Proof. split; vm_compute; reflexivity. Qed.

(** ** Cleaning up while a job pushes *)

Lemma teardown_inv_init : Teardown.teardown_inv Teardown.init.
Proof. repeat split. Qed.

Lemma teardown_inv_step m s s' :
  Teardown.teardown_inv s -> Teardown.step m s = Some s' ->
  Teardown.teardown_inv s'.
Proof.
  destruct s as [c j q l b]. intros (Hl & Hb & Hc & Hq). cbn in Hl, Hb, Hc, Hq.
  subst l b.
  destruct m, c, j, q; cbn in Hc, Hq; try done;
    cbv; intros [= <-]; done.
Qed.

Lemma teardown_inv_run ms : forall s s',
  Teardown.teardown_inv s -> Teardown.run ms s = Some s' ->
  Teardown.teardown_inv s'.
Proof.
  induction ms as [|m ms IH]; intros s s' Hi; cbn.
  - by intros [= <-].
  - destruct (Teardown.step m s) as [s1|] eqn:E; [|done].
    apply IH. by eapply teardown_inv_step.
Qed.

(** Once the caller of cleanup has the object lock while the job has not got
    it yet, each of the two makes at most one more step. *)
Lemma teardown_blocked ms : forall s s',
  Teardown.teardown_inv s ->
  Teardown.blocked s = true ->
  Teardown.run ms s = Some s' ->
  Teardown.blocked s' = true
  /\ length ms
     + ((if Teardown.cleaner s' is Teardown.KTest then 1 else 0)
        + (if Teardown.job s' is Teardown.JWaiting then 1 else 0))
     = (if Teardown.cleaner s is Teardown.KTest then 1 else 0)
       + (if Teardown.job s is Teardown.JWaiting then 1 else 0).
Proof.
  induction ms as [|m ms IH]; intros s s' Hi Hb; cbn [Teardown.run].
  - intros [= <-]. done.
  - destruct (Teardown.step m s) as [s1|] eqn:E; [|done].
    intros Hr.
    pose proof (teardown_inv_step _ _ _ Hi E) as Hi1.
    assert (Teardown.blocked s1 = true
            /\ 1 + ((if Teardown.cleaner s1 is Teardown.KTest then 1 else 0)
                    + (if Teardown.job s1 is Teardown.JWaiting then 1 else 0))
               = (if Teardown.cleaner s is Teardown.KTest then 1 else 0)
                 + (if Teardown.job s is Teardown.JWaiting then 1 else 0))
      as (Hb1 & Hm).
    { destruct s as [c j q l b]. destruct Hi as (Hl & Hk & _ & Hq).
      cbn in Hl, Hk, Hq. subst l b.
      destruct m, c, j, q; try done; cbv in E; try done;
        injection E as <-; done. }
    destruct (IH _ _ Hi1 Hb1 Hr) as (Hb' & Hm').
    split; [done|]. cbn [length]. lia.
Qed.

(** X16.  [default_cleanup] keeps the object lock while it waits in
    [g_thread_pool_free], and [default_push] takes the same lock.  For a job
    of the pool that pushes on its own pool: once the caller of cleanup has
    the lock and the job has not yet got it in [default_push], cleanup never
    returns and the job never gets further, each making at most one more
    step; in every other state that is reached, letting the job go first
    ends with cleanup returned and both jobs done.  The only states in which
    no thread can move are that end and the one in which the caller of
    cleanup sits in [g_thread_pool_free] and the job waits for the lock. *)
Theorem cleanup_deadlocks_with_a_job_that_pushes ms s :
  Teardown.run ms Teardown.init = Some s ->
  (Teardown.blocked s = true ->
   forall ms' s', Teardown.run ms' s = Some s' ->
     Teardown.blocked s' = true /\ s' <> Teardown.finished /\ length ms' <= 2)
  /\ (Teardown.blocked s = false ->
      Teardown.run (Teardown.job_first 12 s) s = Some Teardown.finished)
  /\ (Teardown.stuck s -> s = Teardown.finished \/ s = Teardown.deadlock).
Proof.
  intros Hr.
  pose proof (teardown_inv_run _ _ _ teardown_inv_init Hr) as Hi.
  split; [|split].
  - intros Hb ms' s' Hr'.
    destruct (teardown_blocked _ _ _ Hi Hb Hr') as (Hb' & Hm).
    split; [done|]. split; [by intros ->|].
    destruct (Teardown.cleaner s), (Teardown.job s),
      (Teardown.cleaner s'), (Teardown.job s'); lia.
  - intros Hb. destruct s as [c j q l b].
    destruct Hi as (Hl & Hk & Hc & Hq). cbn in Hl, Hk, Hc, Hq. subst l b.
    destruct c, j, q; cbn in Hc, Hq; try done; try discriminate Hb;
      reflexivity.
  - intros Hs. destruct s as [c j q l b].
    destruct Hi as (Hl & Hb & Hc & Hq). cbn in Hl, Hb, Hc, Hq. subst l b.
    pose proof (Hs Teardown.MCleaner) as H1.
    pose proof (Hs Teardown.MJob) as H2.
    pose proof (Hs Teardown.MWorker) as H3.
    destruct c, j, q; cbn in Hc, Hq; try done; cbv in H1, H2, H3; try done;
      auto.
Qed.

Lemma cleanup_deadlocks_with_a_job_that_pushes_witness :
  Teardown.run [Teardown.MCleaner] Teardown.init
  = Some (Teardown.mkState Teardown.KTest Teardown.JWaiting Teardown.PNone
            (Some Teardown.Cleaner) true)
  /\ Teardown.run [Teardown.MCleaner; Teardown.MJob]
       (Teardown.mkState Teardown.KTest Teardown.JWaiting Teardown.PNone
          (Some Teardown.Cleaner) true)
     = Some Teardown.deadlock
  /\ Teardown.stuck Teardown.deadlock
  /\ length [Teardown.MCleaner; Teardown.MJob] <= 2.
Proof.
  assert (Teardown.run [Teardown.MCleaner] Teardown.init
          = Some (Teardown.mkState Teardown.KTest Teardown.JWaiting
                    Teardown.PNone (Some Teardown.Cleaner) true)) as H
    by reflexivity.
  assert (Teardown.run [Teardown.MCleaner; Teardown.MJob]
            (Teardown.mkState Teardown.KTest Teardown.JWaiting Teardown.PNone
               (Some Teardown.Cleaner) true)
          = Some Teardown.deadlock) as H' by reflexivity.
  split; [exact H|]. split; [exact H'|].
  split; [by intros []|].
  exact (proj2 (proj2 (proj1 (cleanup_deadlocks_with_a_job_that_pushes _ _ H)
                         eq_refl _ _ H'))).
Defined.
